(** * MyLedgerApp: the balance-recalculation engine

    A shallow embedding of [src/lib/db.ts] ([recalculateBalancesForParty]) and of
    the store-mutating handlers of the application component
    ([AddEditEntryPage.handleSubmit], [App.handleConfirmDelete]).

    Modelling conventions.
    - JavaScript numbers (amounts, balances) are IEEE 754 binary64 values.
      The handlers are embedded twice.  Module [F64] has them over Rocq's
      primitive binary64 [float]s, operation by operation as the code has
      them ([+], unary [-], [!==], [<=], [isNaN]); the top level has them
      over [Z], with exact arithmetic.  On a ledger whose amounts are
      positive whole numbers with a total below 2^53 the two agree
      ([sim_recalculate], [sim_handleSubmit], [sim_deleteEntry]); what
      depends on rounding or on NaN is stated on [F64].
    - A [Date] is modelled by its [getTime()] value.
    - The Dexie table [parties] is a finite map from primary key to row; the
      table [entries] is the list of its rows in primary-key order, which is
      the order in which [where({partyId})] enumerates them, together with the
      next key of the [++id] generator.
    - [Array.prototype.sort] is stable; it is modelled by a stable insertion
      sort driven by the JavaScript comparator (negative, zero, positive).
    - A transaction body is a function from the store it reads to either an
      error or the list of writes it issues; [transaction] commits the writes
      or leaves the store untouched.
    - [new Date()] is an explicit clock argument. *)

From Stdlib Require Import ZArith Lia Sorted Floats.
From stdpp Require Import base list gmap strings.

Local Open Scope Z_scope.

(** ** Data model ([src/lib/db.ts], type declarations) *)

Inductive PartyType := customer | supplier.
Inductive Direction := credit | debit.

Module Party.
Record t := mk {
  type : PartyType;
  name : string;
  phone : string;
  createdAt : Z;
  updatedAt : Z;
  balance : Z
}.
End Party.

Module LedgerEntry.
Record t := mk {
  id : Z;
  partyId : Z;
  direction : Direction;
  amount : Z;
  date : Z;
  note : string;
  balanceAfter : Z;
  createdAt : Z
}.
End LedgerEntry.

Abbreviation Entry := LedgerEntry.t.

(** Partial updates of a row ([table.update(key, changes)] leaves the other
    fields as they are). *)
Definition set_balanceAfter (b : Z) (e : Entry) : Entry :=
  LedgerEntry.mk (LedgerEntry.id e) (LedgerEntry.partyId e)
    (LedgerEntry.direction e) (LedgerEntry.amount e) (LedgerEntry.date e)
    (LedgerEntry.note e) b (LedgerEntry.createdAt e).

Definition set_id (k : Z) (e : Entry) : Entry :=
  LedgerEntry.mk k (LedgerEntry.partyId e)
    (LedgerEntry.direction e) (LedgerEntry.amount e) (LedgerEntry.date e)
    (LedgerEntry.note e) (LedgerEntry.balanceAfter e) (LedgerEntry.createdAt e).

Definition set_edit_fields (a : Z) (d : Direction) (n : string) (dt : Z)
    (e : Entry) : Entry :=
  LedgerEntry.mk (LedgerEntry.id e) (LedgerEntry.partyId e) d a dt n
    (LedgerEntry.balanceAfter e) (LedgerEntry.createdAt e).

Definition set_balance (b u : Z) (p : Party.t) : Party.t :=
  Party.mk (Party.type p) (Party.name p) (Party.phone p) (Party.createdAt p)
    u b.

(** ** The store *)

Record Store := mkStore {
  parties : gmap Z Party.t;
  entries : list Entry;
  nextEntryId : Z
}.

(** Primary keys come from the [++id] generator: they start at 1, increase
    along the table and stay below the generator's next value. *)
Fixpoint keys_increasing (lo : Z) (rows : list Entry) : bool :=
  match rows with
  | [] => true
  | e :: rows' => (lo <? LedgerEntry.id e) && keys_increasing (LedgerEntry.id e) rows'
  end.

Definition store_okb (st : Store) : bool :=
  keys_increasing 0 (entries st)
  && forallb (fun e => LedgerEntry.id e <? nextEntryId st) (entries st).

Definition store_ok (st : Store) : Prop := store_okb st = true.

(** The writes a transaction body issues against the two tables. *)
Inductive Write :=
| EntryUpdate (key : Z) (balanceAfter : Z)
    (* db.entries.update(key, { balanceAfter }) *)
| EntryAdd (e : Entry)
    (* db.entries.add(e), the key of e having been deleted *)
| PartyUpdate (key : Z) (balance : Z) (updatedAt : Z)
    (* db.parties.update(key, { balance, updatedAt }) *).

Definition update_row (key b : Z) (e : Entry) : Entry :=
  if LedgerEntry.id e =? key then set_balanceAfter b e else e.

Definition apply_write (st : Store) (w : Write) : Store :=
  match w with
  | EntryUpdate key b =>
      mkStore (parties st) (map (update_row key b) (entries st)) (nextEntryId st)
  | EntryAdd e =>
      mkStore (parties st) (entries st ++ [set_id (nextEntryId st) e])
        (nextEntryId st + 1)
  | PartyUpdate key b u =>
      mkStore (alter (set_balance b u) key (parties st)) (entries st)
        (nextEntryId st)
  end.

Definition apply_writes (ws : list Write) (st : Store) : Store :=
  fold_left apply_write ws st.

Inductive Result (A : Type) :=
| Ok (a : A)
| Err (msg : string).
Arguments Ok {A} a.
Arguments Err {A} msg.

(** [db.transaction('rw', db.parties, db.entries, body)]: all writes of the
    body, or none of them together with the error. *)
Definition transaction (body : Store -> Result (list Write)) (st : Store)
    : Store * option string :=
  match body st with
  | Ok ws => (apply_writes ws st, None)
  | Err msg => (st, Some msg)
  end.

(** ** Sorting *)

Section Sort.
Context {A : Type} (compareFn : A -> A -> Z).

Fixpoint sort_insert (x : A) (l : list A) : list A :=
  match l with
  | [] => [x]
  | y :: l' =>
      if compareFn x y <=? 0 then x :: y :: l' else y :: sort_insert x l'
  end.

(** [Array.prototype.sort(compareFn)] *)
Definition sort (l : list A) : list A := foldr sort_insert [] l.

(** A list ordered by the comparator. *)
Definition ordered (l : list A) : Prop :=
  StronglySorted (fun a b => compareFn a b <= 0) l.
End Sort.

(** Appending one element to the array before sorting puts it behind every
    element that does not compare strictly greater. *)
Section SortLast.
Context {A : Type} (compareFn : A -> A -> Z).

Fixpoint sort_insert_last (x : A) (l : list A) : list A :=
  match l with
  | [] => [x]
  | y :: l' =>
      if compareFn x y <? 0 then x :: y :: l' else y :: sort_insert_last x l'
  end.

(** The elements in front of and behind the appended one. *)
Fixpoint split_at_new (x : A) (l : list A) : list A * list A :=
  match l with
  | [] => ([], [])
  | y :: l' =>
      if compareFn x y <? 0 then ([], y :: l')
      else let '(pre, post) := split_at_new x l' in (y :: pre, post)
  end.
End SortLast.

(** JavaScript [a || b] on numbers. *)
Definition js_or (a b : Z) : Z := if a =? 0 then b else a.

(** The comparator of [recalculateBalancesForParty]. *)
Definition compareEntries (a b : Entry) : Z :=
  js_or (LedgerEntry.date a - LedgerEntry.date b)
        (LedgerEntry.createdAt a - LedgerEntry.createdAt b).

(** The comparator of the add-entry transaction. *)
Definition compareAllEntries (a b : Entry) : Z :=
  js_or (LedgerEntry.date a - LedgerEntry.date b)
        (js_or (LedgerEntry.createdAt a) 0 - js_or (LedgerEntry.createdAt b) 0).

(** Dexie's [where({partyId})]: the rows of the party, by primary key. *)
Definition where_partyId (partyId : Z) (rows : list Entry) : list Entry :=
  List.filter (fun e => LedgerEntry.partyId e =? partyId) rows.

(** Dexie's [Collection.sortBy('date')]: the array sorted on that key. *)
Definition sorter_date (a b : Entry) : Z :=
  if LedgerEntry.date a <? LedgerEntry.date b then -1
  else if LedgerEntry.date b <? LedgerEntry.date a then 1
  else 0.

Definition sortBy_date (l : list Entry) : list Entry := sort sorter_date l.

(** ** recalculateBalancesForParty *)

Definition signedAmount (e : Entry) : Z :=
  match LedgerEntry.direction e with
  | credit => LedgerEntry.amount e
  | debit => - LedgerEntry.amount e
  end.

(** One iteration of the [for (const entry of entries)] loop; the state is
    [runningBalance] and the [updates] issued so far.  This is the exact
    model; [F64.recalc_step] is the same step over binary64 numbers, and the
    two agree within the exact range ([sim_recalc_step]). *)
Definition recalc_step (s : Z * list Write) (entry : Entry) : Z * list Write :=
  let runningBalance := fst s + signedAmount entry in
  if LedgerEntry.balanceAfter entry =? runningBalance
  then (runningBalance, snd s)
  else (runningBalance,
        snd s ++ [EntryUpdate (LedgerEntry.id entry) runningBalance]).

Definition recalc_loop (es : list Entry) : Z * list Write :=
  fold_left recalc_step es (0, []).

(** The entries the pass iterates over, in its chronological order. *)
Definition chronological (st : Store) (partyId : Z) : list Entry :=
  sort compareEntries (sortBy_date (where_partyId partyId (entries st))).

Definition recalc_body (partyId now : Z) (st : Store) : Result (list Write) :=
  let es := chronological st partyId in
  let '(runningBalance, updates) := recalc_loop es in
  Ok (updates ++
      match parties st !! partyId with
      | Some party =>
          if negb (Party.balance party =? runningBalance)
          then [PartyUpdate partyId runningBalance now]
          else if (length es =? 0)%nat
          then [PartyUpdate partyId 0 now]
          else []
      | None => []
      end).

Definition recalculateBalancesForParty (partyId now : Z) (st : Store)
    : Store * option string :=
  transaction (recalc_body partyId now) st.

(** ** AddEditEntryPage.handleSubmit *)

(** The add-entry loop: besides [runningBalance] and [updates] the state
    carries [newEntry], the object with the temporary key 0 (persisted keys
    start at 1), whose [balanceAfter] the loop assigns in place.  Exact
    model; over binary64 numbers the step is [F64.add_step]
    ([sim_add_step]). *)
Definition add_step (s : Z * list Write * Entry) (entry : Entry)
    : Z * list Write * Entry :=
  let '(running, updates, newEntry) := s in
  let runningBalance := running + signedAmount entry in
  if LedgerEntry.id entry =? 0
  then (runningBalance, updates, set_balanceAfter runningBalance newEntry)
  else if LedgerEntry.balanceAfter entry =? runningBalance
  then (runningBalance, updates, newEntry)
  else (runningBalance,
        updates ++ [EntryUpdate (LedgerEntry.id entry) runningBalance],
        newEntry).

Definition add_loop (es : list Entry) (newEntry : Entry)
    : Z * list Write * Entry :=
  fold_left add_step es (0, [], newEntry).

Definition mk_newEntry (partyId numAmount : Z) (direction : Direction)
    (note : string) (date nowCreated : Z) : Entry :=
  LedgerEntry.mk 0 partyId direction numAmount date note 0 nowCreated.

Definition allEntries (st : Store) (partyId : Z) (newEntry : Entry)
    : list Entry :=
  sort compareAllEntries
    (sortBy_date (where_partyId partyId (entries st)) ++ [newEntry]).

Definition add_body (partyId numAmount : Z) (direction : Direction)
    (note : string) (date nowCreated nowUpdated : Z) (st : Store)
    : Result (list Write) :=
  match parties st !! partyId with
  | None => Err "Party not found"
  | Some currentParty =>
      let newEntry := mk_newEntry partyId numAmount direction note date nowCreated in
      let '(runningBalance, updates, newEntry') :=
        add_loop (allEntries st partyId newEntry) newEntry in
      Ok (updates ++ [EntryAdd newEntry';
                      PartyUpdate partyId runningBalance nowUpdated])
  end.

(** [db.entries.update(entryId, { amount, direction, note, date })] *)
Definition entries_update_fields (entryId numAmount : Z) (direction : Direction)
    (note : string) (date : Z) (st : Store) : Store :=
  mkStore (parties st)
    (map (fun e => if LedgerEntry.id e =? entryId
                   then set_edit_fields numAmount direction note date e
                   else e) (entries st))
    (nextEntryId st).

(** [handleSubmit]: [party] is the component's view of the party row,
    [entryId] the optional route parameter and [numAmount] the parsed amount. *)
Definition handleSubmit (party : option Party.t) (partyId : Z)
    (entryId : option Z) (numAmount : Z) (direction : Direction)
    (note : string) (date nowCreated nowUpdated : Z) (st : Store)
    : Store * option string :=
  if (numAmount <=? 0) || negb (bool_decide (is_Some party)) then (st, None)
  else
    match entryId with
    | Some k =>
        if k =? 0
        then transaction
               (add_body partyId numAmount direction note date nowCreated nowUpdated) st
        else recalculateBalancesForParty partyId nowUpdated
               (entries_update_fields k numAmount direction note date st)
    | None =>
        transaction
          (add_body partyId numAmount direction note date nowCreated nowUpdated) st
    end.

(** ** App.handleConfirmDelete *)

(** The pending confirmation: a party with its key, or an entry with its key
    and the key of its party. *)
Inductive DeleteConfirmation :=
| ConfirmParty (partyId : Z)
| ConfirmEntry (entryId partyId : Z).

(** [db.entries.delete(entryId)] *)
Definition entries_delete (entryId : Z) (st : Store) : Store :=
  mkStore (parties st)
    (List.filter (fun e => negb (LedgerEntry.id e =? entryId)) (entries st))
    (nextEntryId st).

(** The party branch: [db.entries.where({partyId}).delete()] and
    [db.parties.delete(partyId)] in one transaction. *)
Definition delete_party (partyId : Z) (st : Store) : Store :=
  mkStore (delete partyId (parties st))
    (List.filter (fun e => negb (LedgerEntry.partyId e =? partyId)) (entries st))
    (nextEntryId st).

Definition handleConfirmDelete (deleteConfirmation : option DeleteConfirmation)
    (now : Z) (st : Store) : Store * option string :=
  match deleteConfirmation with
  | None => (st, None)
  | Some (ConfirmParty partyId) => (delete_party partyId st, None)
  | Some (ConfirmEntry entryId partyId) =>
      recalculateBalancesForParty partyId now (entries_delete entryId st)
  end.

(** The entry branch, the [deleteEntry(entryId, partyId)] of the
    specification. *)
Definition deleteEntry (entryId partyId now : Z) (st : Store)
    : Store * option string :=
  handleConfirmDelete (Some (ConfirmEntry entryId partyId)) now st.

(** ** Sums and running balances, as the specification words them *)

Definition sumZ (l : list Z) : Z := foldr Z.add 0 l.

Definition signed_sum (es : list Entry) : Z := sumZ (map signedAmount es).

(** [runningBalance_i = runningBalance_{i-1} + signedAmount_i] *)
Fixpoint running_from (r : Z) (es : list Entry) : list Z :=
  match es with
  | [] => []
  | e :: es' => (r + signedAmount e) :: running_from (r + signedAmount e) es'
  end.

Definition running_balances (es : list Entry) : list Z := running_from 0 es.

Definition is_credit (e : Entry) : bool :=
  match LedgerEntry.direction e with credit => true | debit => false end.

Definition credits (es : list Entry) : Z :=
  sumZ (map LedgerEntry.amount (List.filter is_credit es)).

Definition debits (es : list Entry) : Z :=
  sumZ (map LedgerEntry.amount (List.filter (fun e => negb (is_credit e)) es)).

(** The ledger invariant of a party: along the chronological order every
    stored [balanceAfter] is the sum of the signed amounts up to and including
    its entry, and the party row holds the last of them, or 0. *)
Definition entries_consistent (es : list Entry) : Prop :=
  forall (i : nat) (e : Entry),
    es !! i = Some e -> LedgerEntry.balanceAfter e = signed_sum (take (S i) es).

Definition party_consistent (st : Store) (partyId : Z) : Prop :=
  exists party, parties st !! partyId = Some party
    /\ Party.balance party
       = default 0 (last (map LedgerEntry.balanceAfter
                              (chronological st partyId))).

Definition ledger_invariant (st : Store) (partyId : Z) : Prop :=
  entries_consistent (chronological st partyId) /\ party_consistent st partyId.

(** The same along a list, starting from running balance [r]. *)
Definition consistent_from (r : Z) (es : list Entry) : Prop :=
  map LedgerEntry.balanceAfter es = running_from r es.

(** An executable check of the ledger invariant. *)
Definition ledger_invariantb (st : Store) (p : Z) : bool :=
  bool_decide (map LedgerEntry.balanceAfter (chronological st p)
               = running_balances (chronological st p))
  && match parties st !! p with
     | Some party =>
         Party.balance party
         =? default 0 (last (map LedgerEntry.balanceAfter (chronological st p)))
     | None => false
     end.


(** ** The loops *)

Definition stale (p : Entry * Z) : bool :=
  negb (LedgerEntry.balanceAfter p.1 =? p.2).

Definition update_of (p : Entry * Z) : Write :=
  EntryUpdate (LedgerEntry.id p.1) p.2.

(** The updates a pass owes: one for every entry it keeps an eye on whose
    stored [balanceAfter] differs from the running balance at its place. *)
Definition pending_updates (keep : Entry -> bool) (es : list Entry)
    (bs : list Z) : list Write :=
  map update_of (List.filter (fun p => keep p.1 && stale p) (zip es bs)).

Definition persisted (e : Entry) : bool := negb (LedgerEntry.id e =? 0).
Definition every (e : Entry) : bool := true.

(** What the add-entry loop leaves in [newEntry]. *)
Fixpoint assign_new (r : Z) (es : list Entry) (c : Entry) : Entry :=
  match es with
  | [] => c
  | e :: es' =>
      assign_new (r + signedAmount e) es'
        (if LedgerEntry.id e =? 0 then set_balanceAfter (r + signedAmount e) c
         else c)
  end.

(** ** Effect of the entry updates on the rows *)

Definition row_write (e : Entry) (w : Write) : Entry :=
  match w with
  | EntryUpdate key b => update_row key b e
  | _ => e
  end.

(** The row after the writes of a pass, when these are entry updates. *)
Definition row_after (ws : list Write) (e : Entry) : Entry :=
  fold_left row_write ws e.

Definition is_entry_update (w : Write) : Prop :=
  match w with EntryUpdate _ _ => True | _ => False end.


(** The settled chronological list: every entry carries the running balance
    of its place. *)
Fixpoint settle_from (r : Z) (es : list Entry) : list Entry :=
  match es with
  | [] => []
  | e :: es' =>
      set_balanceAfter (r + signedAmount e) e
        :: settle_from (r + signedAmount e) es'
  end.

Definition settle (es : list Entry) : list Entry := settle_from 0 es.

(** Rewriting rows without touching the party and the two dates does not
    disturb the chronological order. *)
Definition keys_preserved (f : Entry -> Entry) : Prop :=
  forall e, LedgerEntry.partyId (f e) = LedgerEntry.partyId e
            /\ LedgerEntry.date (f e) = LedgerEntry.date e
            /\ LedgerEntry.createdAt (f e) = LedgerEntry.createdAt e.

(** ** The recalculation pass *)

Definition recalc_updates (st : Store) (p : Z) : list Write :=
  pending_updates every (chronological st p)
    (running_balances (chronological st p)).

Definition recalc_party_writes (st : Store) (p now : Z) : list Write :=
  match parties st !! p with
  | Some party =>
      if negb (Party.balance party =? signed_sum (chronological st p))
      then [PartyUpdate p (signed_sum (chronological st p)) now]
      else if (length (chronological st p) =? 0)%nat
      then [PartyUpdate p 0 now]
      else []
  | None => []
  end.

(** ** The add-entry pass *)

Definition before_new (st : Store) (p : Z) (c : Entry) : list Entry :=
  (split_at_new compareEntries c (chronological st p)).1.

Definition after_new (st : Store) (p : Z) (c : Entry) : list Entry :=
  (split_at_new compareEntries c (chronological st p)).2.

Definition add_updates (st : Store) (p : Z) (c : Entry) : list Write :=
  pending_updates persisted (allEntries st p c)
    (running_balances (allEntries st p c)).

(** ** Editing entries *)

Record EditRequest := mkEdit {
  edit_view : option Party.t;
  edit_partyId : Z;
  edit_entryId : Z;
  edit_amount : Z;
  edit_direction : Direction;
  edit_note : string;
  edit_date : Z;
  edit_now : Z
}.

(** [handleSubmit] on the edit route of an entry. *)
Definition submit_edit (r : EditRequest) (st : Store) : Store :=
  (handleSubmit (edit_view r) (edit_partyId r) (Some (edit_entryId r))
     (edit_amount r) (edit_direction r) (edit_note r) (edit_date r)
     (edit_now r) (edit_now r) st).1.

Definition submit_edits (rs : list EditRequest) (st : Store) : Store :=
  fold_left (fun s r => submit_edit r s) rs st.

Definition same_identity (e e' : Entry) : Prop :=
  LedgerEntry.id e' = LedgerEntry.id e
  /\ LedgerEntry.partyId e' = LedgerEntry.partyId e
  /\ LedgerEntry.createdAt e' = LedgerEntry.createdAt e.

(** What [db.entries.update(k, { amount, direction, note, date })] may change
    in a row. *)
Definition updated_from (k : Z) (e e' : Entry) : Prop :=
  same_identity e e'
  /\ LedgerEntry.balanceAfter e' = LedgerEntry.balanceAfter e
  /\ (LedgerEntry.id e <> k -> e' = e).

(** What an edit with key [k], update and recalculation, may change in a
    row. *)
Definition edited_from (k : Z) (e e' : Entry) : Prop :=
  same_identity e e'
  /\ (LedgerEntry.id e <> k ->
      LedgerEntry.amount e' = LedgerEntry.amount e
      /\ LedgerEntry.direction e' = LedgerEntry.direction e
      /\ LedgerEntry.note e' = LedgerEntry.note e
      /\ LedgerEntry.date e' = LedgerEntry.date e).

Definition pair_rows (i j : Z) (rows : list Entry) : list Entry :=
  List.filter (fun e => (LedgerEntry.id e =? i) || (LedgerEntry.id e =? j)) rows.

(** The entries with keys [i] and [j] carry one and the same date. *)
Definition share_date (i j : Z) (rows : list Entry) : Prop :=
  forallb (fun e => forallb (fun e' => LedgerEntry.date e =? LedgerEntry.date e')
                      (pair_rows i j rows))
    (pair_rows i j rows) = true.

(** The keys [i] and [j] in the order in which their entries occur in the
    chronological list of the party. *)
Definition relative_rank (st : Store) (p i j : Z) : list Z :=
  map LedgerEntry.id (pair_rows i j (chronological st p)).

Definition compare_createdAt (a b : Entry) : Z :=
  LedgerEntry.createdAt a - LedgerEntry.createdAt b.

(** ** AddEditPartyPage.handleSubmit *)

(** The database: the two tables of the store and the [++id] generator of
    [parties]. *)
Record AppDB := mkAppDB {
  store : Store;
  nextPartyId : Z
}.

(** [!s] on a string. *)
Definition is_empty (s : string) : bool :=
  match s with EmptyString => true | _ => false end.

(** [db.parties.update(partyId, { name, phone, type, updatedAt })] *)
Definition set_party_fields (type : PartyType) (name phone : string)
    (updatedAt : Z) (p : Party.t) : Party.t :=
  Party.mk type name phone (Party.createdAt p) updatedAt (Party.balance p).

Definition parties_update (partyId : Z) (type : PartyType) (name phone : string)
    (updatedAt : Z) (d : AppDB) : AppDB :=
  mkAppDB
    (mkStore (alter (set_party_fields type name phone updatedAt) partyId
                (parties (store d)))
       (entries (store d)) (nextEntryId (store d)))
    (nextPartyId d).

(** [db.parties.add({ name, phone, type, updatedAt, balance: 0, createdAt })] *)
Definition parties_add (type : PartyType) (name phone : string)
    (updatedAt createdAt : Z) (d : AppDB) : AppDB :=
  mkAppDB
    (mkStore (<[nextPartyId d := Party.mk type name phone createdAt updatedAt 0]>
                (parties (store d)))
       (entries (store d)) (nextEntryId (store d)))
    (nextPartyId d + 1).

Module AddEditPartyPage.
Definition handleSubmit (name phone : string) (type : PartyType)
    (partyId : option Z) (nowUpdated nowCreated : Z) (d : AppDB) : AppDB :=
  if is_empty name || is_empty phone then d
  else
    match partyId with
    | Some k =>
        if k =? 0 then parties_add type name phone nowUpdated nowCreated d
        else parties_update k type name phone nowUpdated d
    | None => parties_add type name phone nowUpdated nowCreated d
    end.
End AddEditPartyPage.

(** ** DashboardPage *)

(** [db.parties.toArray()]: the rows by primary key. *)
Definition compare_key (a b : Z * Party.t) : Z := a.1 - b.1.

Definition parties_toArray (st : Store) : list Party.t :=
  (sort compare_key (map_to_list (parties st))).*2.

(** The reducer of [totalReceivable] and [totalPayable].  Exact model; over
    binary64 numbers the reducer is [F64.totals_step] ([sim_totals_step]). *)
Definition totals_step (acc : Z * Z) (party : Party.t) : Z * Z :=
  (if 0 <? Party.balance party then acc.1 + Party.balance party else acc.1,
   if Party.balance party <? 0 then acc.2 + Z.abs (Party.balance party)
   else acc.2).

(** The [useMemo] of the page: [parties] is undefined while the query loads. *)
Definition dashboardTotals (parties : option (list Party.t)) : Z * Z :=
  match parties with
  | None => (0, 0)
  | Some ps => fold_left totals_step ps (0, 0)
  end.

Definition balances_sum (ps : list Party.t) : Z := sumZ (map Party.balance ps).

(** What the dashboard is meant to show: the sum of the positive balances
    and the sum of the absolute values of the negative ones. *)
Definition receivable (ps : list Party.t) : Z :=
  sumZ (map Party.balance
          (List.filter (fun p => 0 <? Party.balance p) ps)).

Definition payable (ps : list Party.t) : Z :=
  sumZ (map (fun p => Z.abs (Party.balance p))
          (List.filter (fun p => Party.balance p <? 0) ps)).

(** An executable check that every party satisfies the ledger invariant and
    that every entry has its party. *)
Definition all_consistentb (st : Store) : bool :=
  forallb (fun kp => ledger_invariantb st kp.1) (map_to_list (parties st)).

Definition no_orphansb (st : Store) : bool :=
  forallb (fun e => bool_decide (is_Some (parties st !! LedgerEntry.partyId e)))
    (entries st).

(** ** PartyDetailPage *)

(** The sorter of [sortBy('date')] on a reversed collection. *)
Definition sorter_date_prev (a b : Entry) : Z := sorter_date a b * -1.

(** [db.entries.where('partyId').equals(partyId).reverse().sortBy('date')] *)
Definition party_history (st : Store) (partyId : Z) : list Entry :=
  sort sorter_date_prev (rev (where_partyId partyId (entries st))).

(** ** Navigation: useRouter, App.handleNavigate, App.handleBack *)

Module Page.
Inductive t :=
| dashboard | parties | settings | party_detail
| add_party | edit_party | add_entry | edit_entry.
End Page.

Record RouteParams := mkParams {
  param_partyId : option Z;
  param_entryId : option Z;
  param_direction : option Direction
}.

Record Route := mkRoute {
  page : Page.t;
  params : option RouteParams
}.

Record Nav := mkNav {
  route : Route;
  history : list Route
}.

Definition navigate (page : Page.t) (params : option RouteParams) (n : Nav)
    : Nav :=
  mkNav (mkRoute page params) (history n).

Definition handleNavigate (page : Page.t) (params : option RouteParams)
    (n : Nav) : Nav :=
  navigate page params (mkNav (route n) (history n ++ [route n])).

(** [history.pop()] leaves an empty array as it is and yields undefined. *)
Definition handleBack (n : Nav) : Nav :=
  match last (history n) with
  | Some lastRoute =>
      navigate (page lastRoute) (params lastRoute)
        (mkNav (route n) (removelast (history n)))
  | None => navigate Page.dashboard None n
  end.

(** ** The handlers as actions on the database *)

Inductive Action :=
| SubmitEntry (view : option Party.t) (partyId : Z) (entryId : option Z)
    (numAmount : Z) (direction : Direction) (note : string)
    (date nowCreated nowUpdated : Z)
| ConfirmDelete (deleteConfirmation : option DeleteConfirmation) (now : Z)
| SubmitParty (name phone : string) (type : PartyType) (partyId : option Z)
    (nowUpdated nowCreated : Z).

Definition step (a : Action) (d : AppDB) : AppDB :=
  match a with
  | SubmitEntry view partyId entryId numAmount direction note date t1 t2 =>
      mkAppDB
        (handleSubmit view partyId entryId numAmount direction note date t1 t2
           (store d)).1
        (nextPartyId d)
  | ConfirmDelete deleteConfirmation now =>
      mkAppDB (handleConfirmDelete deleteConfirmation now (store d)).1
        (nextPartyId d)
  | SubmitParty name phone type partyId t1 t2 =>
      AddEditPartyPage.handleSubmit name phone type partyId t1 t2 d
  end.

Definition run (acts : list Action) (d : AppDB) : AppDB :=
  fold_left (fun d a => step a d) acts d.

(** The entry with key [entryId], if there is one, belongs to [partyId]: the
    entry pages are reached from the detail page of the entry's party. *)
Definition entry_of (st : Store) (entryId partyId : Z) : Prop :=
  forallb (fun e => negb (LedgerEntry.id e =? entryId)
                    || (LedgerEntry.partyId e =? partyId)) (entries st) = true.

Definition action_ok (a : Action) (st : Store) : Prop :=
  match a with
  | SubmitEntry _ partyId (Some entryId) _ _ _ _ _ _ => entry_of st entryId partyId
  | ConfirmDelete (Some (ConfirmEntry entryId partyId)) _ =>
      entry_of st entryId partyId
  | _ => True
  end.


(** Invariants of the database. *)
Definition no_orphans (st : Store) : Prop :=
  Forall (fun e => is_Some (parties st !! LedgerEntry.partyId e)) (entries st).

Definition all_consistent (st : Store) : Prop :=
  forall p, is_Some (parties st !! p) -> ledger_invariant st p.

Definition party_keys_ok (d : AppDB) : Prop :=
  0 < nextPartyId d
  /\ forall k, is_Some (parties (store d) !! k) -> 0 < k < nextPartyId d.

(** The key generator of [entries] starts at 1. *)
Definition keys_ok (st : Store) : Prop := store_ok st /\ 0 < nextEntryId st.

Definition db_ok (d : AppDB) : Prop :=
  keys_ok (store d) /\ party_keys_ok d
  /\ no_orphans (store d) /\ all_consistent (store d).

(** The store [st'] holds for party [q] what [st] holds. *)
Definition same_for (st st' : Store) (q : Z) : Prop :=
  where_partyId q (entries st') = where_partyId q (entries st)
  /\ parties st' !! q = parties st !! q.

Definition empty_db : AppDB := mkAppDB (mkStore ∅ [] 1) 1.

(** * Binary64 numbers

    A JavaScript number is an IEEE 754 binary64 value.  The integers of
    magnitude below 2^53 are among them, and on these addition, negation
    and comparison are exact. *)

Definition sf_of_Z (z : Z) : spec_float := binary_normalize prec emax z 0 false.

(** The binary64 value of an integer (rounded to nearest, if need be). *)
Definition num_of_Z (z : Z) : float := SF2Prim (sf_of_Z z).

Definition safe (z : Z) : Prop := Z.abs z < 2 ^ 53.

(** The mantissa [m] shifted left by [k] bits. *)
Definition shl (m : positive) (k : nat) : positive := Nat.iter k xO m.

(** The leading zeros of a 53-bit mantissa holding [p]. *)
Definition lead (p : positive) : nat := Z.to_nat (53 - Zpos (Pos.size p)).

(** The canonical binary64 representation of a non-zero integer below 2^53. *)
Definition canon (s : bool) (p : positive) : spec_float :=
  S754_finite s (shl p (lead p)) (- Z.of_nat (lead p)).

(** * The handlers over binary64 numbers

    The same code with amounts and balances as IEEE 754 binary64 values,
    which is what a JavaScript number is: [+] and unary [-] round to
    nearest, ties to even; [!==] is the negation of IEEE equality, so that
    [NaN !== NaN] holds and [0 !== -0] does not. *)

Module F64.

(** [a !== b] on numbers. *)
Definition strict_ne (a b : float) : bool := negb (PrimFloat.eqb a b).

Module Party.
Record t := mk {
  type : PartyType;
  name : string;
  phone : string;
  createdAt : Z;
  updatedAt : Z;
  balance : float
}.
End Party.

Module LedgerEntry.
Record t := mk {
  id : Z;
  partyId : Z;
  direction : Direction;
  amount : float;
  date : Z;
  note : string;
  balanceAfter : float;
  createdAt : Z
}.
End LedgerEntry.

Abbreviation Entry := LedgerEntry.t.

Definition set_balanceAfter (b : float) (e : Entry) : Entry :=
  LedgerEntry.mk (LedgerEntry.id e) (LedgerEntry.partyId e)
    (LedgerEntry.direction e) (LedgerEntry.amount e) (LedgerEntry.date e)
    (LedgerEntry.note e) b (LedgerEntry.createdAt e).

Definition set_id (k : Z) (e : Entry) : Entry :=
  LedgerEntry.mk k (LedgerEntry.partyId e)
    (LedgerEntry.direction e) (LedgerEntry.amount e) (LedgerEntry.date e)
    (LedgerEntry.note e) (LedgerEntry.balanceAfter e) (LedgerEntry.createdAt e).

Definition set_edit_fields (a : float) (d : Direction) (n : string) (dt : Z)
    (e : Entry) : Entry :=
  LedgerEntry.mk (LedgerEntry.id e) (LedgerEntry.partyId e) d a dt n
    (LedgerEntry.balanceAfter e) (LedgerEntry.createdAt e).

Definition set_balance (b : float) (u : Z) (p : Party.t) : Party.t :=
  Party.mk (Party.type p) (Party.name p) (Party.phone p) (Party.createdAt p)
    u b.

Record Store := mkStore {
  parties : gmap Z Party.t;
  entries : list Entry;
  nextEntryId : Z
}.

Inductive Write :=
| EntryUpdate (key : Z) (balanceAfter : float)
| EntryAdd (e : Entry)
| PartyUpdate (key : Z) (balance : float) (updatedAt : Z).

Definition update_row (key : Z) (b : float) (e : Entry) : Entry :=
  if LedgerEntry.id e =? key then set_balanceAfter b e else e.

Definition apply_write (st : Store) (w : Write) : Store :=
  match w with
  | EntryUpdate key b =>
      mkStore (parties st) (map (update_row key b) (entries st)) (nextEntryId st)
  | EntryAdd e =>
      mkStore (parties st) (entries st ++ [set_id (nextEntryId st) e])
        (nextEntryId st + 1)
  | PartyUpdate key b u =>
      mkStore (alter (set_balance b u) key (parties st)) (entries st)
        (nextEntryId st)
  end.

Definition apply_writes (ws : list Write) (st : Store) : Store :=
  fold_left apply_write ws st.

Definition transaction (body : Store -> Result (list Write)) (st : Store)
    : Store * option string :=
  match body st with
  | Ok ws => (apply_writes ws st, None)
  | Err msg => (st, Some msg)
  end.

Definition compareEntries (a b : Entry) : Z :=
  js_or (LedgerEntry.date a - LedgerEntry.date b)
        (LedgerEntry.createdAt a - LedgerEntry.createdAt b).

Definition compareAllEntries (a b : Entry) : Z :=
  js_or (LedgerEntry.date a - LedgerEntry.date b)
        (js_or (LedgerEntry.createdAt a) 0 - js_or (LedgerEntry.createdAt b) 0).

Definition where_partyId (partyId : Z) (rows : list Entry) : list Entry :=
  List.filter (fun e => LedgerEntry.partyId e =? partyId) rows.

Definition sorter_date (a b : Entry) : Z :=
  if LedgerEntry.date a <? LedgerEntry.date b then -1
  else if LedgerEntry.date b <? LedgerEntry.date a then 1
  else 0.

Definition sortBy_date (l : list Entry) : list Entry := sort sorter_date l.

(** [entry.direction === 'credit' ? entry.amount : -entry.amount] *)
Definition signedAmount (e : Entry) : float :=
  match LedgerEntry.direction e with
  | credit => LedgerEntry.amount e
  | debit => PrimFloat.opp (LedgerEntry.amount e)
  end.

Definition recalc_step (s : float * list Write) (entry : Entry)
    : float * list Write :=
  let runningBalance := PrimFloat.add (fst s) (signedAmount entry) in
  if strict_ne (LedgerEntry.balanceAfter entry) runningBalance
  then (runningBalance,
        snd s ++ [EntryUpdate (LedgerEntry.id entry) runningBalance])
  else (runningBalance, snd s).

Definition recalc_loop (es : list Entry) : float * list Write :=
  fold_left recalc_step es (PrimFloat.zero, []).

Definition chronological (st : Store) (partyId : Z) : list Entry :=
  sort compareEntries (sortBy_date (where_partyId partyId (entries st))).

Definition recalc_body (partyId now : Z) (st : Store) : Result (list Write) :=
  let es := chronological st partyId in
  let '(runningBalance, updates) := recalc_loop es in
  Ok (updates ++
      match parties st !! partyId with
      | Some party =>
          if strict_ne (Party.balance party) runningBalance
          then [PartyUpdate partyId runningBalance now]
          else if (length es =? 0)%nat
          then [PartyUpdate partyId PrimFloat.zero now]
          else []
      | None => []
      end).

Definition recalculateBalancesForParty (partyId now : Z) (st : Store)
    : Store * option string :=
  transaction (recalc_body partyId now) st.

Definition add_step (s : float * list Write * Entry) (entry : Entry)
    : float * list Write * Entry :=
  let '(running, updates, newEntry) := s in
  let runningBalance := PrimFloat.add running (signedAmount entry) in
  if LedgerEntry.id entry =? 0
  then (runningBalance, updates, set_balanceAfter runningBalance newEntry)
  else if strict_ne (LedgerEntry.balanceAfter entry) runningBalance
  then (runningBalance,
        updates ++ [EntryUpdate (LedgerEntry.id entry) runningBalance],
        newEntry)
  else (runningBalance, updates, newEntry).

Definition add_loop (es : list Entry) (newEntry : Entry)
    : float * list Write * Entry :=
  fold_left add_step es (PrimFloat.zero, [], newEntry).

Definition mk_newEntry (partyId : Z) (numAmount : float) (direction : Direction)
    (note : string) (date nowCreated : Z) : Entry :=
  LedgerEntry.mk 0 partyId direction numAmount date note PrimFloat.zero
    nowCreated.

Definition allEntries (st : Store) (partyId : Z) (newEntry : Entry)
    : list Entry :=
  sort compareAllEntries
    (sortBy_date (where_partyId partyId (entries st)) ++ [newEntry]).

Definition add_body (partyId : Z) (numAmount : float) (direction : Direction)
    (note : string) (date nowCreated nowUpdated : Z) (st : Store)
    : Result (list Write) :=
  match parties st !! partyId with
  | None => Err "Party not found"
  | Some currentParty =>
      let newEntry := mk_newEntry partyId numAmount direction note date nowCreated in
      let '(runningBalance, updates, newEntry') :=
        add_loop (allEntries st partyId newEntry) newEntry in
      Ok (updates ++ [EntryAdd newEntry';
                      PartyUpdate partyId runningBalance nowUpdated])
  end.

Definition entries_update_fields (entryId : Z) (numAmount : float)
    (direction : Direction) (note : string) (date : Z) (st : Store) : Store :=
  mkStore (parties st)
    (map (fun e => if LedgerEntry.id e =? entryId
                   then set_edit_fields numAmount direction note date e
                   else e) (entries st))
    (nextEntryId st).

(** [numAmount] is [parseFloat(amount)]; the guard is
    [isNaN(numAmount) || numAmount <= 0 || !party]. *)
Definition handleSubmit (party : option Party.t) (partyId : Z)
    (entryId : option Z) (numAmount : float) (direction : Direction)
    (note : string) (date nowCreated nowUpdated : Z) (st : Store)
    : Store * option string :=
  if PrimFloat.is_nan numAmount || PrimFloat.leb numAmount PrimFloat.zero
     || negb (bool_decide (is_Some party))
  then (st, None)
  else
    match entryId with
    | Some k =>
        if k =? 0
        then transaction
               (add_body partyId numAmount direction note date nowCreated nowUpdated) st
        else recalculateBalancesForParty partyId nowUpdated
               (entries_update_fields k numAmount direction note date st)
    | None =>
        transaction
          (add_body partyId numAmount direction note date nowCreated nowUpdated) st
    end.

Definition entries_delete (entryId : Z) (st : Store) : Store :=
  mkStore (parties st)
    (List.filter (fun e => negb (LedgerEntry.id e =? entryId)) (entries st))
    (nextEntryId st).

(** The entry branch of [App.handleConfirmDelete]. *)
Definition deleteEntry (entryId partyId now : Z) (st : Store)
    : Store * option string :=
  recalculateBalancesForParty partyId now (entries_delete entryId st).

(** The reducer of the dashboard totals. *)
Definition totals_step (acc : float * float) (party : Party.t) : float * float :=
  (if PrimFloat.ltb PrimFloat.zero (Party.balance party)
   then PrimFloat.add acc.1 (Party.balance party) else acc.1,
   if PrimFloat.ltb (Party.balance party) PrimFloat.zero
   then PrimFloat.add acc.2 (PrimFloat.abs (Party.balance party)) else acc.2).

Definition dashboardTotals (parties : option (list Party.t)) : float * float :=
  match parties with
  | None => (PrimFloat.zero, PrimFloat.zero)
  | Some ps => fold_left totals_step ps (PrimFloat.zero, PrimFloat.zero)
  end.

(** [db.parties.toArray()]: the rows by primary key. *)
Definition compare_key (a b : Z * Party.t) : Z := a.1 - b.1.
Definition parties_toArray (st : Store) : list Party.t :=
  (sort compare_key (map_to_list (parties st))).*2.

(** ** Sums and running balances over binary64 numbers *)

(** The sum of an array, from the left. *)
Definition sum (l : list float) : float :=
  fold_left PrimFloat.add l PrimFloat.zero.

Definition credits (es : list Entry) : float :=
  sum (map LedgerEntry.amount
         (List.filter (fun e => match LedgerEntry.direction e with
                                | credit => true | debit => false end) es)).

Definition debits (es : list Entry) : float :=
  sum (map LedgerEntry.amount
         (List.filter (fun e => match LedgerEntry.direction e with
                                | credit => false | debit => true end) es)).

(** [runningBalance_i = runningBalance_{i-1} + signedAmount_i] *)
Fixpoint running_from (r : float) (es : list Entry) : list float :=
  match es with
  | [] => []
  | e :: es' =>
      PrimFloat.add r (signedAmount e)
        :: running_from (PrimFloat.add r (signedAmount e)) es'
  end.

Definition running_balances (es : list Entry) : list float :=
  running_from PrimFloat.zero es.

(** The running balance behind the last entry. *)
Definition final (r : float) (es : list Entry) : float :=
  fold_left (fun r e => PrimFloat.add r (signedAmount e)) es r.

(** No number of the list is NaN. *)
Definition not_nan (l : list float) : bool :=
  forallb (fun r => negb (PrimFloat.is_nan r)) l.

(** The updates the loop issues from the running balance [r] on. *)
Fixpoint pending (r : float) (es : list Entry) : list Write :=
  match es with
  | [] => []
  | e :: es' =>
      (if strict_ne (LedgerEntry.balanceAfter e)
            (PrimFloat.add r (signedAmount e))
       then [EntryUpdate (LedgerEntry.id e) (PrimFloat.add r (signedAmount e))]
       else [])
      ++ pending (PrimFloat.add r (signedAmount e)) es'
  end.

(** The rows as these updates leave them: a row that compared equal keeps
    the number it had. *)
Fixpoint settle_from (r : float) (es : list Entry) : list Entry :=
  match es with
  | [] => []
  | e :: es' =>
      (if strict_ne (LedgerEntry.balanceAfter e)
            (PrimFloat.add r (signedAmount e))
       then set_balanceAfter (PrimFloat.add r (signedAmount e)) e
       else e)
      :: settle_from (PrimFloat.add r (signedAmount e)) es'
  end.

Definition row_write (e : Entry) (w : Write) : Entry :=
  match w with
  | EntryUpdate key b => update_row key b e
  | _ => e
  end.

Definition row_after (ws : list Write) (e : Entry) : Entry :=
  fold_left row_write ws e.

Definition is_entry_update (w : Write) : Prop :=
  match w with EntryUpdate _ _ => True | _ => False end.

Definition keyed_in (ks : list Z) (w : Write) : Prop :=
  match w with EntryUpdate k _ => k ∈ ks | _ => False end.

(** The party write of a pass. *)
Definition party_writes (st : Store) (p now : Z) : list Write :=
  match parties st !! p with
  | Some party =>
      if strict_ne (Party.balance party) (final PrimFloat.zero (chronological st p))
      then [PartyUpdate p (final PrimFloat.zero (chronological st p)) now]
      else if (length (chronological st p) =? 0)%nat
      then [PartyUpdate p PrimFloat.zero now]
      else []
  | None => []
  end.

End F64.

(** ** Integer-valued stores as binary64 stores *)

Definition entry_f64 (e : Entry) : F64.Entry :=
  F64.LedgerEntry.mk (LedgerEntry.id e) (LedgerEntry.partyId e)
    (LedgerEntry.direction e) (num_of_Z (LedgerEntry.amount e))
    (LedgerEntry.date e) (LedgerEntry.note e)
    (num_of_Z (LedgerEntry.balanceAfter e)) (LedgerEntry.createdAt e).

Definition party_f64 (p : Party.t) : F64.Party.t :=
  F64.Party.mk (Party.type p) (Party.name p) (Party.phone p)
    (Party.createdAt p) (Party.updatedAt p) (num_of_Z (Party.balance p)).

Definition write_f64 (w : Write) : F64.Write :=
  match w with
  | EntryUpdate key b => F64.EntryUpdate key (num_of_Z b)
  | EntryAdd e => F64.EntryAdd (entry_f64 e)
  | PartyUpdate key b u => F64.PartyUpdate key (num_of_Z b) u
  end.

Definition store_f64 (st : Store) : F64.Store :=
  F64.mkStore (party_f64 <$> parties st) (map entry_f64 (entries st))
    (nextEntryId st).

Definition result_f64 (r : Result (list Write)) : Result (list F64.Write) :=
  match r with
  | Ok ws => Ok (map write_f64 ws)
  | Err msg => Err msg
  end.

(** The ledger of a party on which binary64 arithmetic is exact: positive
    amounts whose total stays below 2^53, and stored balances below 2^53 in
    magnitude. *)
Definition safe_rows (rows : list Entry) : bool :=
  forallb (fun e => (0 <? LedgerEntry.amount e)
                    && (Z.abs (LedgerEntry.balanceAfter e) <? 2 ^ 53)) rows.

Definition safe_ledger (st : Store) (p : Z) : bool :=
  safe_rows (where_partyId p (entries st))
  && (sumZ (map LedgerEntry.amount (where_partyId p (entries st))) <? 2 ^ 53)
  && match parties st !! p with
     | Some party => Z.abs (Party.balance party) <? 2 ^ 53
     | None => true
     end.

(** The same with room for one more amount. *)
Definition safe_amount (st : Store) (p a : Z) : bool :=
  (0 <? a)
  && (sumZ (map LedgerEntry.amount (where_partyId p (entries st))) + a <? 2 ^ 53).

(** [handleSubmit] on an integer amount: what the ledger has to satisfy for
    the branch taken. *)
Definition submit_safe (st : Store) (p : Z) (entryId : option Z) (a : Z)
    (d : Direction) (n : string) (dt : Z) : bool :=
  match entryId with
  | Some k =>
      if k =? 0 then safe_ledger st p && safe_amount st p a
      else safe_ledger (entries_update_fields k a d n dt st) p
  | None => safe_ledger st p && safe_amount st p a
  end.

(** Party balances on which the totals of the dashboard are exact. *)
Definition safe_balances (ps : list Party.t) : bool :=
  sumZ (map (fun p => Z.abs (Party.balance p)) ps) <? 2 ^ 53.


(** ** Concrete stores: the scenario of the specification and variations *)

Definition partyP : Party.t := Party.mk customer "P" "555" 1 1 0.
Definition st0 : Store := mkStore {[ 1 := partyP ]} [] 1.

Definition st_A : Store :=
  fst (handleSubmit (Some partyP) 1 None 100 credit "A" 20240101 10 11 st0).
Definition st_AB : Store :=
  fst (handleSubmit (Some partyP) 1 None 30 debit "B" 20240103 20 21 st_A).
Definition st_ABC : Store :=
  fst (handleSubmit (Some partyP) 1 None 20 credit "C" 20240102 30 31 st_AB).

Definition party_AB : Party.t := Party.mk customer "P" "555" 1 21 70.

Definition entry_orphan : Entry := LedgerEntry.mk 1 7 credit 50 20240101 "x" 0 5.
Definition st_orphan : Store := mkStore ∅ [entry_orphan] 2.

Definition st_same : Store :=
  fst (handleSubmit (Some partyP) 1 None 30 debit "B" 20240101 20 21 st_A).

(** Two entries with the same date and the same [createdAt], the first one
    rewritten by [db.entries.update] and not yet recalculated. *)
Definition st_tie : Store :=
  entries_update_fields 1 50 credit "A2" 20240101
    (fst (handleSubmit (Some partyP) 1 None 30 debit "B" 20240101 10 21 st_A)).

Definition edit_A : EditRequest :=
  mkEdit (Some partyP) 1 1 50 credit "A2" 20240101 40.

(** Two parties: the first with the entries A and B, the second with one
    entry not yet recalculated. *)
Definition st_two : Store :=
  mkStore {[ 1 := party_AB; 2 := Party.mk supplier "Q" "777" 60 60 0 ]}
    (entries st_AB ++ [LedgerEntry.mk 3 2 credit 5 20240104 "q" 0 61])
    4.

(** The same party row over binary64 numbers. *)
Definition partyP_f64 : F64.Party.t := party_f64 partyP.

(** A credit of 0.1, a debit of 0.3 and a credit of 0.2, on three days. *)
Definition fst_tenths : F64.Store :=
  F64.mkStore {[ 1 := partyP_f64 ]}
    [F64.LedgerEntry.mk 1 1 credit 0x1.999999999999ap-4%float 20240101 "a"
       PrimFloat.zero 10;
     F64.LedgerEntry.mk 2 1 debit 0x1.3333333333333p-2%float 20240102 "b"
       PrimFloat.zero 20;
     F64.LedgerEntry.mk 3 1 credit 0x1.999999999999ap-3%float 20240103 "c"
       PrimFloat.zero 30]
    4.

(** A credit of 2^53, a credit of 1 and a debit of 2^53, on three days. *)
Definition st_large : Store :=
  mkStore {[ 1 := partyP ]}
    [LedgerEntry.mk 1 1 credit (2 ^ 53) 20240101 "a" 0 10;
     LedgerEntry.mk 2 1 credit 1 20240102 "b" 0 20;
     LedgerEntry.mk 3 1 debit (2 ^ 53) 20240103 "c" 0 30]
    4.


(** An amount typed as 1e999 parses to Infinity: a credit and a debit of
    Infinity. *)
Definition fst_infinite : F64.Store :=
  F64.mkStore {[ 1 := partyP_f64 ]}
    [F64.LedgerEntry.mk 1 1 credit PrimFloat.infinity 20240101 "a"
       PrimFloat.zero 10;
     F64.LedgerEntry.mk 2 1 debit PrimFloat.infinity 20240102 "b"
       PrimFloat.zero 20]
    3.

(** A session: a party is created, three entries are added (the third one
    back-dated), the first is edited, the third deleted, a second party is
    created and the first party deleted. *)
Definition acts_demo : list Action :=
  [SubmitParty "P" "555" customer None 1 1;
   SubmitEntry (Some partyP) 1 None 100 credit "A" 20240101 10 11;
   SubmitEntry (Some partyP) 1 None 30 debit "B" 20240103 20 21;
   SubmitEntry (Some partyP) 1 None 20 credit "C" 20240102 30 31;
   SubmitEntry (Some partyP) 1 (Some 1) 50 credit "A2" 20240101 40 41;
   ConfirmDelete (Some (ConfirmEntry 3 1)) 50;
   SubmitParty "Q" "777" supplier None 60 60;
   ConfirmDelete (Some (ConfirmParty 1)) 70].

(** * Properties *)

(** ** Properties of the sort *)

Lemma Forall_bfilter {A : Type} (P : A -> Prop) (f : A -> bool) (l : list A) :
  Forall P l -> Forall P (List.filter f l).
Proof.
  induction 1 as [|x l Hx Hl IH]; simpl; [constructor|].
  destruct (f x); [by constructor|done].
Qed.

Section SortFacts.
Context {A : Type} (compareFn : A -> A -> Z).
Hypothesis compare_flip : forall a b, compareFn b a = - compareFn a b.
Hypothesis compare_trans :
  forall a b c, compareFn a b <= 0 -> compareFn b c <= 0 -> compareFn a c <= 0.

Local Abbreviation ins := (sort_insert compareFn).
Local Abbreviation ins_last := (sort_insert_last compareFn).

Lemma compare_lt_le_trans a b c :
  compareFn a b < 0 -> compareFn b c <= 0 -> compareFn a c < 0.
Proof using compare_flip compare_trans.
  intros Hab Hbc.
  destruct (Z_lt_le_dec (compareFn a c) 0) as [|Hca]; [done|].
  assert (compareFn c a <= 0) by (rewrite compare_flip; lia).
  assert (compareFn b a <= 0) by eauto.
  rewrite (compare_flip a b) in *. lia.
Qed.

Lemma compare_le_lt_trans a b c :
  compareFn a b <= 0 -> compareFn b c < 0 -> compareFn a c < 0.
Proof using compare_flip compare_trans.
  intros Hab Hbc.
  destruct (Z_lt_le_dec (compareFn a c) 0) as [|Hca]; [done|].
  assert (compareFn c a <= 0) by (rewrite compare_flip; lia).
  assert (compareFn c b <= 0) by eauto.
  rewrite (compare_flip b c) in *. lia.
Qed.

(** Two insertions commute when the elements compare strictly. *)
Lemma sort_insert_comm x y s :
  compareFn y x < 0 -> ins y (ins x s) = ins x (ins y s).
Proof using compare_flip compare_trans.
  intros Hyx.
  assert (Hxy : 0 < compareFn x y) by (rewrite compare_flip; lia).
  induction s as [|z s IH]; simpl.
  - destruct (Z.leb_spec (compareFn y x) 0), (Z.leb_spec (compareFn x y) 0);
      try lia; reflexivity.
  - destruct (Z.leb_spec (compareFn x z) 0) as [Hxz|Hxz];
      destruct (Z.leb_spec (compareFn y z) 0) as [Hyz|Hyz]; simpl.
    + destruct (Z.leb_spec (compareFn y x) 0); [|lia].
      destruct (Z.leb_spec (compareFn x y) 0); [lia|].
      simpl. destruct (Z.leb_spec (compareFn x z) 0); [done|lia].
    + pose proof (compare_lt_le_trans _ _ _ Hyx Hxz). lia.
    + destruct (Z.leb_spec (compareFn y z) 0); [|lia].
      destruct (Z.leb_spec (compareFn x y) 0); [lia|].
      simpl. destruct (Z.leb_spec (compareFn x z) 0); [lia|done].
    + destruct (Z.leb_spec (compareFn y z) 0); [lia|].
      destruct (Z.leb_spec (compareFn x z) 0); [lia|].
      by rewrite IH.
Qed.

(** An element appended to the input ends up behind its equals. *)
Lemma sort_insert_insert_last a x s :
  ins a (ins_last x s) = ins_last x (ins a s).
Proof using compare_flip compare_trans.
  induction s as [|z s IH]; simpl.
  - pose proof (compare_flip a x).
    destruct (Z.leb_spec (compareFn a x) 0), (Z.ltb_spec (compareFn x a) 0);
      try lia; reflexivity.
  - pose proof (compare_flip a x) as Hax.
    destruct (Z.ltb_spec (compareFn x z) 0) as [Hxz|Hxz];
      destruct (Z.leb_spec (compareFn a z) 0) as [Haz|Haz]; simpl.
    + destruct (Z.leb_spec (compareFn a x) 0), (Z.ltb_spec (compareFn x a) 0);
        try lia; simpl.
      * destruct (Z.ltb_spec (compareFn x z) 0); [done|lia].
      * destruct (Z.leb_spec (compareFn a z) 0); [done|lia].
    + assert (compareFn z a < 0) by (rewrite compare_flip; lia).
      assert (compareFn x a < 0) by (eapply compare_lt_le_trans; [done|lia]).
      destruct (Z.leb_spec (compareFn a x) 0); [lia|].
      destruct (Z.ltb_spec (compareFn x z) 0); [|lia].
      destruct (Z.leb_spec (compareFn a z) 0); [lia|done].
    + assert (compareFn z x <= 0) by (rewrite compare_flip; lia).
      assert (compareFn a x <= 0) by eauto.
      destruct (Z.leb_spec (compareFn a z) 0); [|lia].
      destruct (Z.ltb_spec (compareFn x a) 0); [lia|].
      destruct (Z.ltb_spec (compareFn x z) 0); [lia|done].
    + destruct (Z.leb_spec (compareFn a z) 0); [lia|].
      destruct (Z.ltb_spec (compareFn x z) 0); [lia|].
      by rewrite IH.
Qed.

Lemma sort_snoc x l :
  sort compareFn (l ++ [x]) = ins_last x (sort compareFn l).
Proof using compare_flip compare_trans.
  unfold sort. induction l as [|a l IH]; simpl; [done|].
  rewrite IH. apply sort_insert_insert_last.
Qed.

Lemma sort_insert_last_split x s :
  ins_last x s
  = (split_at_new compareFn x s).1 ++ x :: (split_at_new compareFn x s).2.
Proof.
  induction s as [|z s IH]; simpl; [done|].
  destruct (compareFn x z <? 0); simpl; [done|].
  destruct (split_at_new compareFn x s); simpl in *. by rewrite IH.
Qed.

Lemma split_at_new_app x s :
  (split_at_new compareFn x s).1 ++ (split_at_new compareFn x s).2 = s.
Proof.
  induction s as [|z s IH]; simpl; [done|].
  destruct (compareFn x z <? 0); simpl; [done|].
  destruct (split_at_new compareFn x s); simpl in *. by rewrite IH.
Qed.



Lemma sort_insert_perm x l : ins x l ≡ₚ x :: l.
Proof.
  induction l as [|y l IH]; simpl; [done|].
  destruct (compareFn x y <=? 0); [done|].
  rewrite IH. apply Permutation_swap.
Qed.

Lemma sort_perm l : sort compareFn l ≡ₚ l.
Proof.
  induction l as [|x l IH]; simpl; [done|].
  by rewrite sort_insert_perm, IH.
Qed.

Lemma sort_length l : length (sort compareFn l) = length l.
Proof. by rewrite sort_perm. Qed.
Lemma sort_insert_ordered x s :
  ordered compareFn s -> ordered compareFn (ins x s).
Proof using compare_flip compare_trans.
  unfold ordered. induction 1 as [|z s Hs IH Hz]; simpl.
  - repeat constructor.
  - destruct (Z.leb_spec (compareFn x z) 0) as [Hxz|Hxz].
    + constructor; [by constructor|].
      constructor; [done|].
      eapply Forall_impl; [exact Hz|]. simpl; eauto.
    + constructor; [done|].
      rewrite sort_insert_perm. constructor; [|done].
      rewrite compare_flip. lia.
Qed.

Lemma sort_ordered l : ordered compareFn (sort compareFn l).
Proof using compare_flip compare_trans.
  induction l as [|x l IH]; simpl; [constructor|].
  by apply sort_insert_ordered.
Qed.

Lemma sort_insert_front x t :
  Forall (fun y => compareFn x y <= 0) t -> ins x t = x :: t.
Proof.
  destruct 1 as [|y t Hy _]; simpl; [done|].
  destruct (Z.leb_spec (compareFn x y) 0); [done|lia].
Qed.

(** Stability: sorting commutes with taking a sub-array. *)
Lemma filter_sort_insert (P : A -> bool) x s :
  ordered compareFn s ->
  List.filter P (ins x s)
  = if P x then ins x (List.filter P s) else List.filter P s.
Proof using compare_flip compare_trans.
  unfold ordered. induction 1 as [|z s Hs IH Hz]; simpl.
  - by destruct (P x).
  - destruct (Z.leb_spec (compareFn x z) 0) as [Hxz|Hxz]; simpl.
    + destruct (P x); [|done].
      change (x :: List.filter P (z :: s) = ins x (List.filter P (z :: s))).
      rewrite sort_insert_front; [done|].
      apply Forall_bfilter. constructor; [done|].
      eapply Forall_impl; [exact Hz|]. simpl; eauto.
    + rewrite IH. destruct (P x), (P z); simpl; try done.
      destruct (Z.leb_spec (compareFn x z) 0); [lia|done].
Qed.

Lemma filter_sort (P : A -> bool) l :
  List.filter P (sort compareFn l) = sort compareFn (List.filter P l).
Proof using compare_flip compare_trans.
  induction l as [|x l IH]; simpl; [done|].
  rewrite filter_sort_insert by apply sort_ordered.
  rewrite IH. by destruct (P x).
Qed.
End SortFacts.

Section SortMap.
Context {A B : Type} (cmpA : A -> A -> Z) (cmpB : B -> B -> Z) (f : A -> B).
Hypothesis compare_f : forall a b, cmpB (f a) (f b) = cmpA a b.

Lemma sort_insert_map x l :
  sort_insert cmpB (f x) (map f l) = map f (sort_insert cmpA x l).
Proof using compare_f.
  induction l as [|y l IH]; simpl; [done|].
  rewrite compare_f. destruct (cmpA x y <=? 0); simpl; [done|].
  by rewrite IH.
Qed.

Lemma sort_map l : sort cmpB (map f l) = map f (sort cmpA l).
Proof using compare_f.
  induction l as [|x l IH]; simpl; [done|].
  by rewrite IH, sort_insert_map.
Qed.
End SortMap.

Section SplitMap.
Context {A B : Type} (cmpA : A -> A -> Z) (cmpB : B -> B -> Z) (f : A -> B).
Context (x : A) (y : B).
Hypothesis compare_f : forall b, cmpB y (f b) = cmpA x b.

Lemma split_at_new_map s :
  split_at_new cmpB y (map f s)
  = (map f (split_at_new cmpA x s).1, map f (split_at_new cmpA x s).2).
Proof using compare_f.
  induction s as [|z s IH]; simpl; [done|].
  rewrite compare_f. destruct (cmpA x z <? 0); simpl; [done|].
  rewrite IH. by destruct (split_at_new cmpA x s).
Qed.
End SplitMap.

Lemma sort_ext {A : Type} (c1 c2 : A -> A -> Z) l :
  (forall a b, c1 a b = c2 a b) -> sort c1 l = sort c2 l.
Proof.
  intros H. rewrite <- (map_id l) at 1.
  rewrite (sort_map c2 c1 (fun x => x)) by done. apply map_id.
Qed.

(** ** The comparators of the ledger *)

Lemma compareEntries_flip a b : compareEntries b a = - compareEntries a b.
Proof. unfold compareEntries, js_or. repeat case_match; lia. Qed.

Lemma compareEntries_trans a b c :
  compareEntries a b <= 0 -> compareEntries b c <= 0 -> compareEntries a c <= 0.
Proof. unfold compareEntries, js_or. repeat case_match; lia. Qed.

Lemma compareAllEntries_eq a b : compareAllEntries a b = compareEntries a b.
Proof. unfold compareAllEntries, compareEntries, js_or. repeat case_match; lia. Qed.

Lemma sorter_date_gt x z : 0 < sorter_date x z -> compareEntries z x < 0.
Proof.
  unfold sorter_date, compareEntries, js_or. repeat case_match; lia.
Qed.

(** Sorting on the date first does not change the outcome of the sort on
    (date, createdAt). *)
Lemma sort_after_sort_insert_date x s t :
  sort compareEntries (sort_insert sorter_date x s ++ t)
  = sort_insert compareEntries x (sort compareEntries (s ++ t)).
Proof.
  induction s as [|z s IH]; simpl; [done|].
  destruct (Z.leb_spec (sorter_date x z) 0) as [H|H]; simpl; [done|].
  rewrite IH.
  apply sort_insert_comm;
    [apply compareEntries_flip | apply compareEntries_trans
    | by apply sorter_date_gt].
Qed.

Lemma sort_after_sortBy_date l t :
  sort compareEntries (sortBy_date l ++ t) = sort compareEntries (l ++ t).
Proof.
  induction l as [|x l IH]; simpl; [done|].
  unfold sortBy_date in *. simpl. rewrite sort_after_sort_insert_date.
  by rewrite IH.
Qed.

Lemma chronological_eq st p :
  chronological st p = sort compareEntries (where_partyId p (entries st)).
Proof.
  unfold chronological.
  rewrite <- (app_nil_r (sortBy_date _)), sort_after_sortBy_date.
  by rewrite app_nil_r.
Qed.

Lemma allEntries_eq st p c :
  allEntries st p c
  = sort_insert_last compareEntries c (chronological st p).
Proof.
  unfold allEntries.
  rewrite (sort_ext _ compareEntries) by apply compareAllEntries_eq.
  rewrite sort_after_sortBy_date, chronological_eq.
  apply sort_snoc; [apply compareEntries_flip | apply compareEntries_trans].
Qed.

(** ** Running balances *)

Lemma signed_sum_cons e es : signed_sum (e :: es) = signedAmount e + signed_sum es.
Proof. reflexivity. Qed.

Lemma signed_sum_app l1 l2 : signed_sum (l1 ++ l2) = signed_sum l1 + signed_sum l2.
Proof.
  induction l1 as [|e l1 IH]; simpl; [done|].
  rewrite !signed_sum_cons, IH. lia.
Qed.

Lemma running_from_length r es : length (running_from r es) = length es.
Proof. revert r; induction es as [|e es IH]; intros r; simpl; [done|]. by rewrite IH. Qed.


(** The i-th running balance is the sum of the first i signed amounts. *)
Lemma running_from_lookup r es (i : nat) e :
  es !! i = Some e ->
  running_from r es !! i = Some (r + signed_sum (take (S i) es)).
Proof.
  revert r i; induction es as [|x es IH]; intros r i H; [done|].
  destruct i as [|i]; simpl in *.
  - unfold signed_sum; simpl. do 2 f_equal. lia.
  - rewrite (IH _ _ H), (signed_sum_cons x). f_equal. lia.
Qed.

Lemma running_from_last r es :
  default r (last (running_from r es)) = r + signed_sum es.
Proof.
  revert r; induction es as [|e es IH]; intros r.
  - unfold signed_sum; simpl. lia.
  - rewrite signed_sum_cons. specialize (IH (r + signedAmount e)).
    simpl running_from. rewrite last_cons.
    destruct (last (running_from (r + signedAmount e) es)); simpl in *; lia.
Qed.

Lemma entries_consistent_iff es :
  entries_consistent es <-> consistent_from 0 es.
Proof.
  unfold entries_consistent, consistent_from. split.
  - intros H. apply list_eq. intros i.
    rewrite list_lookup_fmap.
    destruct (es !! i) as [e|] eqn:E; simpl.
    + by rewrite (running_from_lookup _ _ _ _ E), (H _ _ E).
    + symmetry. apply lookup_ge_None. rewrite running_from_length.
      by apply lookup_ge_None.
  - intros H i e E.
    assert (L : map LedgerEntry.balanceAfter es !! i
                = Some (LedgerEntry.balanceAfter e))
      by (by rewrite list_lookup_fmap, E).
    rewrite H in L.
    rewrite (running_from_lookup _ _ _ _ E) in L. injection L as L. lia.
Qed.


(** ** The loops of the two passes *)

Lemma pending_updates_cons keep e es b bs :
  pending_updates keep (e :: es) (b :: bs)
  = (if keep e && stale (e, b) then [update_of (e, b)] else [])
    ++ pending_updates keep es bs.
Proof.
  unfold pending_updates; simpl. by destruct (keep e && stale (e, b)).
Qed.


Lemma recalc_loop_from es r u :
  fold_left recalc_step es (r, u)
  = (r + signed_sum es, u ++ pending_updates every es (running_from r es)).
Proof.
  revert r u; induction es as [|e es IH]; intros r u; simpl.
  - unfold signed_sum; simpl. by rewrite Z.add_0_r, app_nil_r.
  - unfold recalc_step at 2; simpl.
    rewrite pending_updates_cons, signed_sum_cons; simpl. unfold stale; simpl.
    destruct (LedgerEntry.balanceAfter e =? r + signedAmount e); simpl;
      rewrite IH; f_equal; try lia. by rewrite <- app_assoc.
Qed.

Lemma recalc_loop_spec es :
  recalc_loop es
  = (signed_sum es, pending_updates every es (running_balances es)).
Proof. unfold recalc_loop. by rewrite recalc_loop_from. Qed.

Lemma add_loop_from es r u c :
  fold_left add_step es (r, u, c)
  = (r + signed_sum es,
     u ++ pending_updates persisted es (running_from r es),
     assign_new r es c).
Proof.
  revert r u c; induction es as [|e es IH]; intros r u c; simpl.
  - unfold signed_sum; simpl. by rewrite Z.add_0_r, app_nil_r.
  - rewrite pending_updates_cons, signed_sum_cons; simpl.
    unfold stale, persisted; simpl.
    destruct (LedgerEntry.id e =? 0); simpl;
      [|destruct (LedgerEntry.balanceAfter e =? r + signedAmount e); simpl];
      rewrite IH, Z.add_assoc; simpl; by rewrite <- ?app_assoc.
Qed.

Lemma assign_new_persisted r es c :
  Forall (fun e => persisted e = true) es -> assign_new r es c = c.
Proof.
  intros H; revert r; induction H as [|e es He _ IH]; intros r; simpl; [done|].
  unfold persisted in He. destruct (LedgerEntry.id e =? 0); [done|]. apply IH.
Qed.

Lemma assign_new_split r pre x post c :
  Forall (fun e => persisted e = true) pre ->
  Forall (fun e => persisted e = true) post ->
  LedgerEntry.id x = 0 ->
  assign_new r (pre ++ x :: post) c
  = set_balanceAfter (r + signed_sum (pre ++ [x])) c.
Proof.
  intros Hpre Hpost Hx; revert r.
  induction Hpre as [|e pre He _ IH]; intros r; simpl.
  - rewrite Hx; simpl. rewrite assign_new_persisted by done.
    unfold signed_sum; simpl. f_equal. lia.
  - unfold persisted in He. destruct (LedgerEntry.id e =? 0); [done|].
    rewrite IH, signed_sum_cons. f_equal. lia.
Qed.

(** ** Rows after the entry updates of a pass *)

Lemma set_balanceAfter_id e : set_balanceAfter (LedgerEntry.balanceAfter e) e = e.
Proof. by destruct e. Qed.

Lemma set_balanceAfter_twice b b' e :
  set_balanceAfter b (set_balanceAfter b' e) = set_balanceAfter b e.
Proof. reflexivity. Qed.

Lemma update_row_set key b e :
  update_row key b e
  = set_balanceAfter (LedgerEntry.balanceAfter (update_row key b e)) e.
Proof.
  unfold update_row. destruct (LedgerEntry.id e =? key); simpl; [done|].
  by rewrite set_balanceAfter_id.
Qed.

(** A pass changes no field of a row but [balanceAfter]. *)
Lemma row_after_set ws e :
  row_after ws e = set_balanceAfter (LedgerEntry.balanceAfter (row_after ws e)) e.
Proof.
  unfold row_after. revert e; induction ws as [|w ws IH]; intros e; simpl.
  - by rewrite set_balanceAfter_id.
  - rewrite IH at 1. destruct w; simpl; try done.
    unfold update_row. by destruct (LedgerEntry.id e =? key).
Qed.

Lemma row_after_app ws1 ws2 e :
  row_after (ws1 ++ ws2) e = row_after ws2 (row_after ws1 e).
Proof. apply fold_left_app. Qed.

Lemma row_after_id ws e : LedgerEntry.id (row_after ws e) = LedgerEntry.id e.
Proof. by rewrite row_after_set. Qed.

Lemma apply_entry_updates ws st :
  Forall is_entry_update ws ->
  apply_writes ws st
  = mkStore (parties st) (map (row_after ws) (entries st)) (nextEntryId st).
Proof.
  intros H; revert st; induction H as [|w ws Hw _ IH]; intros st; simpl.
  - destruct st; simpl. f_equal. symmetry. apply map_id.
  - unfold apply_writes in *; simpl. rewrite IH.
    destruct w; try done; simpl. f_equal. by rewrite map_map.
Qed.

Lemma pending_updates_are_updates keep es bs :
  Forall is_entry_update (pending_updates keep es bs).
Proof. unfold pending_updates. apply List.Forall_map, Forall_forall. done. Qed.

(** Updates keyed by other rows leave a row alone. *)
Lemma row_after_other keep es bs e :
  Forall (fun e0 => keep e0 = true -> LedgerEntry.id e0 <> LedgerEntry.id e) es ->
  row_after (pending_updates keep es bs) e = e.
Proof.
  intros H; revert bs; induction H as [|e0 es He0 _ IH]; intros bs;
    [reflexivity|].
  destruct bs as [|b bs]; [reflexivity|].
  rewrite pending_updates_cons, row_after_app.
  assert (H1 : row_after
                 (if keep e0 && stale (e0, b) then [update_of (e0, b)] else [])
                 e = e).
  { destruct (keep e0); simpl; [|done].
    destruct (stale (e0, b)); simpl; [|done].
    unfold update_row.
    destruct (Z.eqb_spec (LedgerEntry.id e) (LedgerEntry.id e0)); [|done].
    exfalso. by apply He0. }
  by rewrite H1.
Qed.

(** The update of a row, if any, writes the running balance of its place. *)
Lemma row_after_own keep es bs (i : nat) e b :
  NoDup (map LedgerEntry.id es) ->
  es !! i = Some e -> bs !! i = Some b -> keep e = true ->
  row_after (pending_updates keep es bs) e = set_balanceAfter b e.
Proof.
  revert bs i; induction es as [|e0 es IH]; intros bs i Hnd He Hb Hk; [done|].
  destruct bs as [|b0 bs]; [done|].
  apply NoDup_cons in Hnd as [Hnotin Hnd].
  rewrite pending_updates_cons, row_after_app.
  destruct i as [|i]; simpl in He, Hb.
  - injection He as ->. injection Hb as ->. rewrite Hk; simpl.
    assert (H1 : row_after (if stale (e, b) then [update_of (e, b)] else []) e
                 = set_balanceAfter b e).
    { unfold stale; simpl.
      destruct (Z.eqb_spec (LedgerEntry.balanceAfter e) b) as [<-|]; simpl.
      - by rewrite set_balanceAfter_id.
      - unfold update_row. by rewrite Z.eqb_refl. }
    rewrite H1. apply row_after_other, Forall_forall. intros e1 He1 _ Heq.
    apply Hnotin. simpl in Heq. rewrite <- Heq.
    apply list_elem_of_In, in_map, list_elem_of_In, He1.
  - assert (Hne : LedgerEntry.id e <> LedgerEntry.id e0).
    { intros Heq. apply Hnotin. rewrite <- Heq.
      apply list_elem_of_In, in_map, list_elem_of_In.
      by eapply list_elem_of_lookup_2. }
    assert (H1 : row_after
                   (if keep e0 && stale (e0, b0) then [update_of (e0, b0)] else [])
                   e = e).
    { destruct (keep e0 && stale (e0, b0)); simpl; [|done].
      unfold update_row.
      by destruct (Z.eqb_spec (LedgerEntry.id e) (LedgerEntry.id e0)). }
    rewrite H1. by eapply IH.
Qed.

Lemma settle_from_lookup r es (i : nat) e :
  es !! i = Some e ->
  settle_from r es !! i
  = Some (set_balanceAfter (r + signed_sum (take (S i) es)) e).
Proof.
  revert r i; induction es as [|x es IH]; intros r i H; [done|].
  destruct i as [|i]; simpl in *.
  - injection H as ->. unfold signed_sum; simpl. do 2 f_equal. lia.
  - rewrite (IH _ _ H), (signed_sum_cons x). do 2 f_equal. lia.
Qed.

Lemma settle_from_length r es : length (settle_from r es) = length es.
Proof. revert r; induction es as [|e es IH]; intros r; simpl; [done|]. by rewrite IH. Qed.

Lemma settle_from_app r l1 l2 :
  settle_from r (l1 ++ l2)
  = settle_from r l1 ++ settle_from (r + signed_sum l1) l2.
Proof.
  revert r; induction l1 as [|e l1 IH]; intros r; simpl.
  - unfold signed_sum; simpl. by rewrite Z.add_0_r.
  - rewrite IH, signed_sum_cons. by rewrite Z.add_assoc.
Qed.

(** A segment of the iterated array after the pass. *)
Lemma map_row_after_segment keep r l1 l2 l3 :
  NoDup (map LedgerEntry.id (l1 ++ l2 ++ l3)) ->
  Forall (fun e => keep e = true) l2 ->
  map (row_after (pending_updates keep (l1 ++ l2 ++ l3)
                    (running_from r (l1 ++ l2 ++ l3)))) l2
  = settle_from (r + signed_sum l1) l2.
Proof.
  intros Hnd Hk. apply list_eq. intros i.
  rewrite list_lookup_fmap.
  destruct (l2 !! i) as [e|] eqn:E; simpl.
  - rewrite (settle_from_lookup _ _ _ _ E). f_equal.
    assert (Hall : (l1 ++ l2 ++ l3) !! (length l1 + i)%nat = Some e).
    { rewrite lookup_app_r by lia.
      replace (length l1 + i - length l1)%nat with i by lia.
      by apply lookup_app_l_Some. }
    rewrite (row_after_own keep _ _ (length l1 + i) e
               (r + signed_sum (take (S (length l1 + i)) (l1 ++ l2 ++ l3))));
      try done.
    + f_equal. rewrite take_app_ge by lia.
      replace (S (length l1 + i) - length l1)%nat with (S i) by lia.
      assert (Hi : (S i <= length l2)%nat)
        by (apply lookup_lt_Some in E; lia).
      rewrite take_app_le by done.
      rewrite signed_sum_app. lia.
    + apply (running_from_lookup _ _ _ _ Hall).
    + rewrite Forall_forall in Hk. apply Hk. by eapply list_elem_of_lookup_2.
  - symmetry. apply lookup_ge_None. rewrite settle_from_length.
    by apply lookup_ge_None.
Qed.

(** ** Well-formed stores *)

Lemma keys_increasing_lower lo rows :
  keys_increasing lo rows = true -> Forall (fun e => lo < LedgerEntry.id e) rows.
Proof.
  revert lo; induction rows as [|e rows IH]; intros lo H; simpl in *.
  - constructor.
  - apply andb_prop in H as [H1 H2]. apply Z.ltb_lt in H1.
    constructor; [done|].
    eapply Forall_impl; [by apply IH|]. simpl; lia.
Qed.

Lemma keys_increasing_NoDup lo rows :
  keys_increasing lo rows = true -> NoDup (map LedgerEntry.id rows).
Proof.
  revert lo; induction rows as [|e rows IH]; intros lo H; simpl in *.
  - constructor.
  - apply andb_prop in H as [H1 H2]. apply NoDup_cons. split; [|by eapply IH].
    intros Hin. apply list_elem_of_In, in_map_iff in Hin as (e' & Heq & Hin).
    apply keys_increasing_lower in H2. rewrite Forall_forall in H2.
    apply list_elem_of_In, H2 in Hin. lia.
Qed.

Lemma NoDup_map_bfilter {A B : Type} (f : A -> B) (P : A -> bool) l :
  NoDup (map f l) -> NoDup (map f (List.filter P l)).
Proof.
  induction l as [|x l IH]; simpl; [done|].
  intros [Hx Hl]%NoDup_cons. destruct (P x); simpl; [|by apply IH].
  apply NoDup_cons. split; [|by apply IH].
  intros Hin. apply Hx.
  apply list_elem_of_In, in_map_iff in Hin as (y & Heq & Hin).
  apply filter_In in Hin as [Hin _].
  rewrite <- Heq. by apply list_elem_of_In, in_map.
Qed.

Lemma store_ok_NoDup st : store_ok st -> NoDup (map LedgerEntry.id (entries st)).
Proof.
  intros [H _]%andb_prop. by eapply keys_increasing_NoDup.
Qed.

Lemma store_ok_bounds st :
  store_ok st ->
  Forall (fun e => 0 < LedgerEntry.id e < nextEntryId st) (entries st).
Proof.
  intros [H1 H2]%andb_prop.
  apply keys_increasing_lower in H1.
  rewrite forallb_forall in H2. rewrite Forall_forall in *.
  intros e He. split; [by apply H1|].
  apply Z.ltb_lt, H2. by apply list_elem_of_In.
Qed.

Lemma chronological_perm st p :
  chronological st p ≡ₚ where_partyId p (entries st).
Proof. rewrite chronological_eq. apply sort_perm. Qed.

Lemma chronological_NoDup st p :
  store_ok st -> NoDup (map LedgerEntry.id (chronological st p)).
Proof.
  intros H. change (NoDup (LedgerEntry.id <$> chronological st p)).
  rewrite chronological_perm.
  by apply (NoDup_map_bfilter LedgerEntry.id), store_ok_NoDup.
Qed.

Lemma chronological_rows st p e :
  e ∈ chronological st p <-> e ∈ entries st /\ LedgerEntry.partyId e = p.
Proof.
  rewrite chronological_perm. unfold where_partyId.
  rewrite !list_elem_of_In, filter_In, Z.eqb_eq. done.
Qed.

Lemma chronological_persisted st p :
  store_ok st -> Forall (fun e => persisted e = true) (chronological st p).
Proof.
  intros H. apply Forall_forall. intros e [He _]%chronological_rows.
  apply store_ok_bounds in H. rewrite Forall_forall in H.
  apply H in He. unfold persisted.
  destruct (Z.eqb_spec (LedgerEntry.id e) 0); [lia|done].
Qed.

Lemma where_partyId_map f p rows :
  keys_preserved f ->
  where_partyId p (map f rows) = map f (where_partyId p rows).
Proof.
  intros Hf. unfold where_partyId.
  induction rows as [|e rows IH]; simpl; [done|].
  destruct (Hf e) as (-> & _). rewrite IH.
  by destruct (LedgerEntry.partyId e =? p).
Qed.

Lemma chronological_map f st st' p :
  keys_preserved f ->
  entries st' = map f (entries st) ->
  chronological st' p = map f (chronological st p).
Proof.
  intros Hf Hrows. rewrite !chronological_eq, Hrows.
  rewrite where_partyId_map by done.
  apply sort_map. intros a b. unfold compareEntries.
  destruct (Hf a) as (_ & -> & ->), (Hf b) as (_ & -> & ->). done.
Qed.

Lemma row_after_keys ws : keys_preserved (row_after ws).
Proof. intros e. by rewrite row_after_set. Qed.

Lemma row_after_signed ws e : signedAmount (row_after ws e) = signedAmount e.
Proof. by rewrite row_after_set. Qed.

(** ** The settled list *)

Lemma settle_from_signed r es :
  map signedAmount (settle_from r es) = map signedAmount es.
Proof.
  revert r; induction es as [|e es IH]; intros r; simpl; [done|].
  by rewrite IH.
Qed.

Lemma settle_from_ids r es :
  map LedgerEntry.id (settle_from r es) = map LedgerEntry.id es.
Proof.
  revert r; induction es as [|e es IH]; intros r; simpl; [done|].
  by rewrite IH.
Qed.

Lemma settle_from_balances r es :
  map LedgerEntry.balanceAfter (settle_from r es) = running_from r es.
Proof.
  revert r; induction es as [|e es IH]; intros r; simpl; [done|].
  by rewrite IH.
Qed.

Lemma running_from_signed r es es' :
  map signedAmount es = map signedAmount es' ->
  running_from r es = running_from r es'.
Proof.
  revert r es'; induction es as [|e es IH]; intros r [|e' es'] H; try done.
  simpl in *. injection H as -> H. by rewrite (IH _ es').
Qed.

Lemma settle_from_consistent r es : consistent_from r (settle_from r es).
Proof.
  unfold consistent_from. rewrite settle_from_balances.
  symmetry. apply running_from_signed, settle_from_signed.
Qed.

Lemma settle_from_fixed r es : consistent_from r es -> settle_from r es = es.
Proof.
  unfold consistent_from.
  revert r; induction es as [|e es IH]; intros r H; simpl in *; [done|].
  injection H as H1 H2. rewrite <- H1, set_balanceAfter_id.
  f_equal. apply IH. by rewrite H1.
Qed.

Lemma signed_sum_signed es es' :
  map signedAmount es = map signedAmount es' -> signed_sum es = signed_sum es'.
Proof. unfold signed_sum. by intros ->. Qed.

(** ** The recalculation pass, as a whole *)

Lemma recalc_body_spec p now st :
  recalc_body p now st
  = Ok (recalc_updates st p ++ recalc_party_writes st p now).
Proof.
  unfold recalc_body, recalc_updates, recalc_party_writes.
  by rewrite recalc_loop_spec.
Qed.

Lemma apply_writes_app ws1 ws2 st :
  apply_writes (ws1 ++ ws2) st = apply_writes ws2 (apply_writes ws1 st).
Proof. apply fold_left_app. Qed.

Lemma recalc_party_writes_entries st p now st1 :
  entries (apply_writes (recalc_party_writes st p now) st1) = entries st1
  /\ nextEntryId (apply_writes (recalc_party_writes st p now) st1)
     = nextEntryId st1.
Proof.
  unfold recalc_party_writes. by repeat case_match.
Qed.

Lemma recalc_updates_are_updates st p : Forall is_entry_update (recalc_updates st p).
Proof. apply pending_updates_are_updates. Qed.

Lemma recalc_entries p now st :
  entries (recalculateBalancesForParty p now st).1
  = map (row_after (recalc_updates st p)) (entries st).
Proof.
  unfold recalculateBalancesForParty, transaction.
  rewrite recalc_body_spec; simpl. rewrite apply_writes_app.
  rewrite (proj1 (recalc_party_writes_entries _ _ _ _)).
  rewrite (apply_entry_updates (recalc_updates st p))
    by apply recalc_updates_are_updates. done.
Qed.

Lemma recalc_nextEntryId p now st :
  nextEntryId (recalculateBalancesForParty p now st).1 = nextEntryId st.
Proof.
  unfold recalculateBalancesForParty, transaction.
  rewrite recalc_body_spec; simpl. rewrite apply_writes_app.
  rewrite (proj2 (recalc_party_writes_entries _ _ _ _)).
  rewrite (apply_entry_updates (recalc_updates st p))
    by apply recalc_updates_are_updates. done.
Qed.

Lemma recalc_parties p now st :
  parties (recalculateBalancesForParty p now st).1
  = parties (apply_writes (recalc_party_writes st p now) st).
Proof.
  unfold recalculateBalancesForParty, transaction.
  rewrite recalc_body_spec; simpl. rewrite apply_writes_app.
  rewrite (apply_entry_updates (recalc_updates st p))
    by apply recalc_updates_are_updates.
  unfold recalc_party_writes. by repeat case_match.
Qed.

(** The party row after a pass: the balance is the sum of the signed
    amounts, whichever branch is taken. *)
Lemma recalc_party_balance p now st party :
  parties st !! p = Some party ->
  exists party',
    parties (recalculateBalancesForParty p now st).1 !! p = Some party'
    /\ Party.balance party' = signed_sum (chronological st p).
Proof.
  intros Hp. rewrite recalc_parties. unfold recalc_party_writes. rewrite Hp.
  destruct (Z.eqb_spec (Party.balance party) (signed_sum (chronological st p)))
    as [Heq|Hne]; simpl.
  - destruct (Nat.eqb_spec (length (chronological st p)) 0) as [Hlen|Hlen]; simpl.
    + rewrite lookup_alter_eq, Hp; simpl. eexists; split; [done|]. simpl.
      apply nil_length_inv in Hlen. by rewrite Hlen.
    + by exists party.
  - rewrite lookup_alter_eq, Hp; simpl. by eexists.
Qed.

Lemma recalc_chronological p now st :
  store_ok st ->
  chronological (recalculateBalancesForParty p now st).1 p
  = settle (chronological st p).
Proof.
  intros Hok.
  rewrite (chronological_map (row_after (recalc_updates st p)) st);
    [|apply row_after_keys|apply recalc_entries].
  pose proof (map_row_after_segment every 0 [] (chronological st p) []) as H.
  simpl in H. rewrite app_nil_r in H. unfold recalc_updates, settle. apply H.
  - by apply chronological_NoDup.
  - by apply Forall_forall.
Qed.

Lemma keys_increasing_map f lo rows :
  (forall e, LedgerEntry.id (f e) = LedgerEntry.id e) ->
  keys_increasing lo (map f rows) = keys_increasing lo rows.
Proof.
  intros Hf. revert lo; induction rows as [|e rows IH]; intros lo; simpl; [done|].
  by rewrite Hf, IH.
Qed.

Lemma store_ok_map f st st' :
  (forall e, LedgerEntry.id (f e) = LedgerEntry.id e) ->
  entries st' = map f (entries st) ->
  nextEntryId st' = nextEntryId st ->
  store_ok st -> store_ok st'.
Proof.
  unfold store_ok, store_okb. intros Hf -> -> [H1 H2]%andb_prop.
  rewrite keys_increasing_map, H1 by done. simpl.
  rewrite forallb_forall in *. intros e' (e & <- & He)%in_map_iff.
  rewrite Hf. by apply H2.
Qed.

Lemma recalc_store_ok p now st :
  store_ok st -> store_ok (recalculateBalancesForParty p now st).1.
Proof.
  apply (store_ok_map (row_after (recalc_updates st p))).
  - apply row_after_id.
  - apply recalc_entries.
  - apply recalc_nextEntryId.
Qed.

Lemma last_running_balances es :
  default 0 (last (running_balances es)) = signed_sum es.
Proof. unfold running_balances. by rewrite running_from_last. Qed.

Lemma settle_consistent es : entries_consistent (settle es).
Proof. apply entries_consistent_iff, settle_from_consistent. Qed.

Lemma recalc_invariant p now st party :
  store_ok st -> parties st !! p = Some party ->
  ledger_invariant (recalculateBalancesForParty p now st).1 p.
Proof.
  intros Hok Hp. split.
  - rewrite recalc_chronological by done. apply settle_consistent.
  - destruct (recalc_party_balance p now st party Hp) as (party' & H1 & H2).
    exists party'. split; [done|].
    rewrite recalc_chronological by done. unfold settle.
    rewrite settle_from_balances, H2. symmetry. apply last_running_balances.
Qed.

(** ** The add-entry pass, as a whole *)

Lemma allEntries_split st p c :
  allEntries st p c = before_new st p c ++ c :: after_new st p c.
Proof. rewrite allEntries_eq. apply sort_insert_last_split. Qed.

Lemma chronological_split st p c :
  chronological st p = before_new st p c ++ after_new st p c.
Proof. symmetry. apply split_at_new_app. Qed.

Lemma add_body_spec p a d n dt t1 t2 st party :
  parties st !! p = Some party ->
  let c := mk_newEntry p a d n dt t1 in
  add_body p a d n dt t1 t2 st
  = Ok (add_updates st p c
        ++ [EntryAdd (assign_new 0 (allEntries st p c) c);
            PartyUpdate p (signed_sum (allEntries st p c)) t2]).
Proof.
  intros Hp c. unfold add_body, add_loop, add_updates. rewrite Hp.
  fold c. by rewrite add_loop_from.
Qed.

Lemma before_new_persisted st p c :
  store_ok st -> Forall (fun e => persisted e = true) (before_new st p c).
Proof.
  intros H. apply (chronological_persisted st p) in H.
  rewrite (chronological_split st p c) in H. by apply Forall_app in H as [? _].
Qed.

Lemma after_new_persisted st p c :
  store_ok st -> Forall (fun e => persisted e = true) (after_new st p c).
Proof.
  intros H. apply (chronological_persisted st p) in H.
  rewrite (chronological_split st p c) in H. by apply Forall_app in H as [_ ?].
Qed.

Lemma add_newEntry_balance st p c :
  store_ok st -> LedgerEntry.id c = 0 ->
  assign_new 0 (allEntries st p c) c
  = set_balanceAfter (signed_sum (before_new st p c ++ [c])) c.
Proof.
  intros Hok Hc. rewrite allEntries_split.
  by rewrite assign_new_split
    by auto using before_new_persisted, after_new_persisted.
Qed.

Lemma allEntries_NoDup st p c :
  store_ok st -> LedgerEntry.id c = 0 ->
  NoDup (map LedgerEntry.id (allEntries st p c)).
Proof.
  intros Hok Hc. rewrite allEntries_split.
  change (NoDup (LedgerEntry.id <$> before_new st p c ++ c :: after_new st p c)).
  rewrite <- Permutation_middle, fmap_cons. apply NoDup_cons. split.
  - rewrite <- chronological_split.
    intros (e & He & Hin)%list_elem_of_fmap.
    pose proof (chronological_persisted st p Hok) as H.
    rewrite Forall_forall in H. apply H in Hin. unfold persisted in Hin.
    rewrite <- He, Hc in Hin. done.
  - rewrite <- chronological_split. by apply chronological_NoDup.
Qed.

Lemma add_entries p a d n dt t1 t2 st party :
  parties st !! p = Some party ->
  let c := mk_newEntry p a d n dt t1 in
  let st' := (transaction (add_body p a d n dt t1 t2) st).1 in
  entries st'
  = map (row_after (add_updates st p c)) (entries st)
    ++ [set_id (nextEntryId st) (assign_new 0 (allEntries st p c) c)]
  /\ nextEntryId st' = nextEntryId st + 1
  /\ parties st'
     = alter (set_balance (signed_sum (allEntries st p c)) t2) p (parties st).
Proof.
  intros Hp c. unfold transaction.
  rewrite (add_body_spec p a d n dt t1 t2 st party Hp). fold c. simpl.
  rewrite apply_writes_app.
  rewrite (apply_entry_updates (add_updates st p c))
    by apply pending_updates_are_updates.
  done.
Qed.

Lemma where_partyId_snoc p rows c :
  LedgerEntry.partyId c = p ->
  where_partyId p (rows ++ [c]) = where_partyId p rows ++ [c].
Proof.
  intros <-. unfold where_partyId. rewrite List.filter_app; simpl.
  by rewrite Z.eqb_refl.
Qed.

(** The chronological list after the pass is the settled [allEntries], the
    new entry carrying its primary key. *)
Lemma add_chronological p a d n dt t1 t2 st party :
  store_ok st -> parties st !! p = Some party ->
  let c := mk_newEntry p a d n dt t1 in
  chronological (transaction (add_body p a d n dt t1 t2) st).1 p
  = settle (before_new st p c ++ set_id (nextEntryId st) c :: after_new st p c).
Proof.
  intros Hok Hp c.
  destruct (add_entries p a d n dt t1 t2 st party Hp) as (Hrows & _ & _).
  fold c in Hrows. rewrite add_newEntry_balance in Hrows by done.
  set (f := row_after (add_updates st p c)) in *.
  rewrite chronological_eq, Hrows, where_partyId_snoc by done.
  rewrite where_partyId_map by apply row_after_keys.
  rewrite sort_snoc by (apply compareEntries_flip || apply compareEntries_trans).
  rewrite (sort_map compareEntries compareEntries f).
  2:{ intros x y. unfold f, compareEntries.
      destruct (row_after_keys (add_updates st p c) x) as (_ & -> & ->).
      by destruct (row_after_keys (add_updates st p c) y) as (_ & -> & ->). }
  rewrite <- chronological_eq, sort_insert_last_split.
  rewrite (split_at_new_map compareEntries compareEntries f c).
  2:{ intros y. unfold f, compareEntries.
      by destruct (row_after_keys (add_updates st p c) y) as (_ & -> & ->). }
  simpl. fold (before_new st p c) (after_new st p c).
  unfold settle. rewrite settle_from_app. simpl.
  pose proof (allEntries_NoDup st p c Hok eq_refl) as Hnd.
  rewrite allEntries_split in Hnd.
  f_equal; [|f_equal].
  - pose proof (map_row_after_segment persisted 0 []
                  (before_new st p c) (c :: after_new st p c)) as H.
    simpl in H. unfold f, add_updates, running_balances.
    rewrite allEntries_split. apply H; [done|].
    by apply before_new_persisted.
  - rewrite signed_sum_app. unfold signed_sum at 2; simpl.
    unfold set_id, set_balanceAfter; simpl. f_equal.
    unfold signedAmount; simpl. destruct d; lia.
  - pose proof (map_row_after_segment persisted 0
                  (before_new st p c ++ [c]) (after_new st p c) []) as H.
    rewrite app_nil_r, <- app_assoc in H. simpl in H.
    unfold f, add_updates, running_balances.
    rewrite allEntries_split, H; [|done|by apply after_new_persisted].
    rewrite signed_sum_app. unfold signed_sum at 2; simpl.
    f_equal. unfold signedAmount; simpl. destruct d; lia.
Qed.

Lemma add_invariant p a d n dt t1 t2 st party :
  store_ok st -> parties st !! p = Some party ->
  ledger_invariant (transaction (add_body p a d n dt t1 t2) st).1 p.
Proof.
  intros Hok Hp. split.
  - rewrite (add_chronological _ _ _ _ _ _ _ _ party) by done.
    apply settle_consistent.
  - destruct (add_entries p a d n dt t1 t2 st party Hp) as (_ & _ & Hps).
    unfold party_consistent.
    rewrite (add_chronological _ _ _ _ _ _ _ _ party) by done.
    eexists. split.
    + rewrite Hps, lookup_alter_eq, Hp. done.
    + simpl. unfold settle. rewrite settle_from_balances.
      rewrite running_from_last, allEntries_split.
      apply signed_sum_signed. by rewrite !map_app.
Qed.

(** ** Deleting an entry *)

Lemma keys_increasing_weaken lo lo' rows :
  lo <= lo' -> keys_increasing lo' rows = true -> keys_increasing lo rows = true.
Proof.
  destruct rows as [|e rows]; simpl; [done|].
  intros Hlo [H1 H2]%andb_prop. apply Z.ltb_lt in H1.
  apply andb_true_intro. split; [apply Z.ltb_lt; lia|done].
Qed.

Lemma keys_increasing_bfilter P lo rows :
  keys_increasing lo rows = true ->
  keys_increasing lo (List.filter P rows) = true.
Proof.
  revert lo; induction rows as [|e rows IH]; intros lo H; simpl in *; [done|].
  apply andb_prop in H as [H1 H2].
  destruct (P e); simpl.
  - rewrite H1; simpl. by apply IH.
  - apply IH. apply Z.ltb_lt in H1.
    eapply keys_increasing_weaken; [|done]. lia.
Qed.

Lemma entries_delete_ok k st : store_ok st -> store_ok (entries_delete k st).
Proof.
  unfold store_ok, store_okb; simpl. intros [H1 H2]%andb_prop.
  rewrite keys_increasing_bfilter by done. simpl.
  rewrite forallb_forall in *. intros e [He _]%filter_In. by apply H2.
Qed.

Lemma entries_update_fields_ok k a d n dt st :
  store_ok st -> store_ok (entries_update_fields k a d n dt st).
Proof.
  apply (store_ok_map
           (fun e => if LedgerEntry.id e =? k then set_edit_fields a d n dt e
                     else e)); try done.
  intros e. by destruct (LedgerEntry.id e =? k).
Qed.

Lemma bfilter_comm {A : Type} (P Q : A -> bool) l :
  List.filter P (List.filter Q l) = List.filter Q (List.filter P l).
Proof.
  induction l as [|x l IH]; simpl; [done|].
  destruct (P x) eqn:HP, (Q x) eqn:HQ; simpl; rewrite ?HP, ?HQ, IH; done.
Qed.



Lemma signed_sum_credits_debits es : signed_sum es = credits es - debits es.
Proof.
  unfold credits, debits.
  induction es as [|e es IH]; [done|].
  rewrite signed_sum_cons, IH. unfold signedAmount, is_credit; simpl.
  destruct (LedgerEntry.direction e); simpl; lia.
Qed.

Lemma signed_sum_perm es es' : es ≡ₚ es' -> signed_sum es = signed_sum es'.
Proof.
  induction 1 as [|x l l' _ IH|x y l|l l' l'' _ IH1 _ IH2];
    rewrite ?signed_sum_cons; lia.
Qed.

(** ** Which entries a pass writes *)


Lemma NoDup_ids_lookup (es : list Entry) (i j : nat) e e' :
  NoDup (map LedgerEntry.id es) ->
  es !! i = Some e -> es !! j = Some e' ->
  LedgerEntry.id e = LedgerEntry.id e' -> i = j.
Proof.
  intros Hnd Hi Hj Heq.
  eapply (NoDup_lookup (map LedgerEntry.id es) i j (LedgerEntry.id e)); [done| |].
  - by rewrite list_lookup_fmap, Hi.
  - by rewrite list_lookup_fmap, Hj, Heq.
Qed.


Lemma pending_updates_consistent keep r es :
  consistent_from r es -> pending_updates keep es (running_from r es) = [].
Proof.
  unfold consistent_from.
  revert r; induction es as [|e es IH]; intros r H; simpl in *; [done|].
  injection H as H1 H2. rewrite pending_updates_cons.
  unfold stale; simpl. rewrite H1, Z.eqb_refl, andb_false_r. simpl.
  by apply IH.
Qed.








Lemma handleSubmit_add view p a d n dt t1 t2 st :
  0 < a ->
  handleSubmit (Some view) p None a d n dt t1 t2 st
  = transaction (add_body p a d n dt t1 t2) st.
Proof.
  intros Ha. unfold handleSubmit. by destruct (Z.leb_spec a 0); [lia|].
Qed.

Lemma ledger_invariantb_sound st p :
  ledger_invariantb st p = true -> ledger_invariant st p.
Proof.
  unfold ledger_invariantb. intros [H1 H2]%andb_prop. split.
  - apply entries_consistent_iff. by apply bool_decide_eq_true_1 in H1.
  - unfold party_consistent. destruct (parties st !! p) as [party|]; [|done].
    exists party. split; [done|]. by apply Z.eqb_eq.
Qed.

Lemma ledger_invariant_balance st p party :
  ledger_invariant st p -> parties st !! p = Some party ->
  Party.balance party = signed_sum (chronological st p).
Proof.
  intros [H1 (party' & H2 & H3)] Hp. rewrite Hp in H2. injection H2 as <-.
  apply entries_consistent_iff in H1. unfold consistent_from in H1.
  by rewrite H3, H1, running_from_last.
Qed.


(** ** The party update of a pass *)


Lemma recalc_party_writes_same st p now party :
  parties st !! p = Some party ->
  Party.balance party = signed_sum (chronological st p) ->
  recalc_party_writes st p now
  = if (length (chronological st p) =? 0)%nat then [PartyUpdate p 0 now] else [].
Proof.
  intros Hp Heq. unfold recalc_party_writes. rewrite Hp.
  by destruct (Z.eqb_spec (Party.balance party)
                 (signed_sum (chronological st p))).
Qed.

Lemma recalc_party_writes_missing st p now :
  parties st !! p = None -> recalc_party_writes st p now = [].
Proof. intros Hp. unfold recalc_party_writes. by rewrite Hp. Qed.

Lemma length_eqb_nil {A : Type} (l : list A) :
  (length l =? 0)%nat = match l with [] => true | _ => false end.
Proof. by destruct l. Qed.

Lemma recalc_updates_settled st p :
  entries_consistent (chronological st p) -> recalc_updates st p = [].
Proof.
  intros H. apply entries_consistent_iff in H.
  by apply pending_updates_consistent.
Qed.

(** ** Edits and the rank of entries that share a date *)

Section SortRelated.
Context {A : Type} (R : A -> A -> Prop) (c : A -> A -> Z).
Hypothesis compare_related :
  forall a a' b b', R a a' -> R b b' -> c a b = c a' b'.

Lemma sort_insert_related x x' s s' :
  R x x' -> Forall2 R s s' ->
  Forall2 R (sort_insert c x s) (sort_insert c x' s').
Proof using compare_related.
  intros Hx. induction 1 as [|y y' s s' Hy Hs IH]; simpl.
  - by repeat constructor.
  - rewrite (compare_related x x' y y') by done.
    destruct (c x' y' <=? 0); by repeat constructor.
Qed.

Lemma sort_related l l' :
  Forall2 R l l' -> Forall2 R (sort c l) (sort c l').
Proof using compare_related.
  induction 1 as [|x x' l l' Hx Hl IH]; simpl; [constructor|].
  by apply sort_insert_related.
Qed.
End SortRelated.

Lemma sort_insert_ext_in {A : Type} (c1 c2 : A -> A -> Z) x s :
  (forall b, b ∈ s -> c1 x b = c2 x b) ->
  sort_insert c1 x s = sort_insert c2 x s.
Proof.
  induction s as [|y s IH]; intros H; simpl; [done|].
  rewrite (H y) by apply list_elem_of_here.
  rewrite IH; [done|]. intros b Hb. apply H. by apply list_elem_of_further.
Qed.

Lemma sort_ext_in {A : Type} (c1 c2 : A -> A -> Z) l :
  (forall a b, a ∈ l -> b ∈ l -> c1 a b = c2 a b) ->
  sort c1 l = sort c2 l.
Proof.
  induction l as [|x l IH]; intros H; simpl; [done|].
  rewrite IH.
  - apply sort_insert_ext_in. intros b Hb. rewrite sort_perm in Hb.
    apply H; [apply list_elem_of_here|by apply list_elem_of_further].
  - intros a b Ha Hb. apply H; by apply list_elem_of_further.
Qed.

Lemma Forall2_bfilter {A : Type} (R : A -> A -> Prop) (P : A -> bool) l l' :
  (forall a a', R a a' -> P a = P a') ->
  Forall2 R l l' -> Forall2 R (List.filter P l) (List.filter P l').
Proof.
  intros HP. induction 1 as [|x x' l l' Hx Hl IH]; simpl; [constructor|].
  rewrite <- (HP x x' Hx). destruct (P x); [by constructor|done].
Qed.

Lemma Forall2_map_r_rel {A : Type} (R : A -> A -> Prop) (f : A -> A) l :
  (forall a, R a (f a)) -> Forall2 R l (map f l).
Proof. intros H. induction l; simpl; by constructor. Qed.

Lemma same_identity_ids l l' :
  Forall2 same_identity l l' -> map LedgerEntry.id l' = map LedgerEntry.id l.
Proof.
  induction 1 as [|x x' l l' (Hx & _) Hl IH]; simpl; [done|].
  by rewrite Hx, IH.
Qed.

Lemma same_identity_trans a b c :
  same_identity a b -> same_identity b c -> same_identity a c.
Proof. unfold same_identity. intuition congruence. Qed.

(** Entries that share their date are ranked by [createdAt]. *)
Lemma pair_rows_chronological st p i j :
  share_date i j (entries st) ->
  pair_rows i j (chronological st p)
  = sort compare_createdAt (pair_rows i j (where_partyId p (entries st))).
Proof.
  intros Hsh. rewrite chronological_eq. unfold pair_rows.
  rewrite filter_sort by (apply compareEntries_flip || apply compareEntries_trans).
  apply sort_ext_in. intros a b Ha Hb.
  assert (Hsub : forall x,
            x ∈ List.filter (fun e => (LedgerEntry.id e =? i)
                                      || (LedgerEntry.id e =? j))
                  (where_partyId p (entries st)) ->
            In x (pair_rows i j (entries st))).
  { intros x Hx. apply list_elem_of_In, filter_In in Hx as [Hx1 Hx2].
    apply filter_In. split; [|done].
    unfold where_partyId in Hx1. by apply filter_In in Hx1 as [? _]. }
  unfold share_date in Hsh. rewrite forallb_forall in Hsh.
  specialize (Hsh a (Hsub a Ha)). rewrite forallb_forall in Hsh.
  specialize (Hsh b (Hsub b Hb)). apply Z.eqb_eq in Hsh.
  unfold compareEntries, compare_createdAt, js_or. rewrite Hsh, Z.sub_diag.
  done.
Qed.

Lemma edit_rows_edited r st :
  edit_entryId r <> 0 ->
  Forall2 (edited_from (edit_entryId r)) (entries st) (entries (submit_edit r st)).
Proof.
  intros Hk. unfold submit_edit, handleSubmit.
  destruct ((edit_amount r <=? 0) || negb (bool_decide (is_Some (edit_view r)))).
  - simpl. rewrite <- (map_id (entries st)) at 2.
    apply Forall2_map_r_rel. intros a. by repeat split.
  - destruct (Z.eqb_spec (edit_entryId r) 0); [done|].
    rewrite recalc_entries. simpl. rewrite map_map.
    apply Forall2_map_r_rel. intros a.
    rewrite row_after_set.
    destruct (Z.eqb_spec (LedgerEntry.id a) (edit_entryId r)); simpl;
      by repeat split.
Qed.

Lemma edits_rows_identity rs st :
  Forall (fun r => edit_entryId r <> 0) rs ->
  Forall2 same_identity (entries st) (entries (submit_edits rs st)).
Proof.
  intros H; revert st; induction H as [|r rs Hr _ IH]; intros st; simpl.
  - rewrite <- (map_id (entries st)) at 2.
    apply Forall2_map_r_rel. intros a. by repeat split.
  - eapply (Forall2_trans same_identity same_identity same_identity);
      [apply same_identity_trans| |apply IH].
    eapply Forall2_impl; [by apply edit_rows_edited|]. by intros a b [? _].
Qed.

(** ** The concrete stores, evaluated *)

Example scenario_balances :
  map (fun e => (LedgerEntry.id e, LedgerEntry.balanceAfter e))
      (chronological st_ABC 1) = [(1, 100); (3, 120); (2, 90)]
  /\ Party.balance <$> parties st_ABC !! 1 = Some 90.
Proof. vm_compute. split; reflexivity. Qed.

Example scenario_delete_C :
  let st := fst (deleteEntry 3 1 40 st_ABC) in
  map (fun e => (LedgerEntry.id e, LedgerEntry.balanceAfter e))
      (chronological st 1) = [(1, 100); (2, 70)]
  /\ Party.balance <$> parties st !! 1 = Some 70.
Proof. vm_compute. split; reflexivity. Qed.

Example recalculate_tie :
  map (fun e => (LedgerEntry.id e, LedgerEntry.date e, LedgerEntry.createdAt e,
                 LedgerEntry.balanceAfter e))
      (chronological st_tie 1)
  = [(1, 20240101, 10, 100); (2, 20240101, 10, 70)]
  /\ recalc_body 1 40 st_tie
     = Ok [EntryUpdate 1 50; EntryUpdate 2 20; PartyUpdate 1 20 40].
Proof. vm_compute. split; reflexivity. Qed.

Example edit_A_effect :
  map (fun e => (LedgerEntry.id e, LedgerEntry.amount e,
                 LedgerEntry.balanceAfter e))
      (chronological (submit_edits [edit_A] st_same) 1)
  = [(1, 50, 50); (2, 30, 20)].
Proof. vm_compute. reflexivity. Qed.

(** * Binary64 numbers and the exact model *)

(** ** Exactness of binary64 arithmetic on integers below 2^53 *)

Lemma digits2_pos_size p : digits2_pos p = Pos.size p.
Proof. induction p; simpl; congruence. Qed.

Lemma shl_S m k : shl m (S k) = xO (shl m k).
Proof. reflexivity. Qed.

Lemma shl_Z m k : Zpos (shl m k) = Zpos m * 2 ^ Z.of_nat k.
Proof.
  induction k as [|k IH]; [simpl; lia|].
  rewrite shl_S, Pos2Z.inj_xO, IH, Nat2Z.inj_succ, Z.pow_succ_r by lia. lia.
Qed.

Lemma size_shl m k : Zpos (Pos.size (shl m k)) = Zpos (Pos.size m) + Z.of_nat k.
Proof.
  induction k as [|k IH]; [simpl; lia|].
  rewrite shl_S. simpl Pos.size. rewrite Pos2Z.inj_succ, IH. lia.
Qed.

Lemma pos_iter_shl m d : Pos.iter xO m d = shl m (Pos.to_nat d).
Proof. unfold shl. by rewrite Pos2Nat.inj_iter. Qed.

Lemma shl_shl m j k : shl (shl m j) k = shl m (k + j).
Proof. unfold shl. by rewrite Nat.iter_add. Qed.

Lemma iter_pos_nat {A} (f : A -> A) n x :
  SpecFloat.iter_pos f n x = Nat.iter (Pos.to_nat n) f x.
Proof.
  revert x; induction n as [n IH|n IH|]; intros x;
    cbn [SpecFloat.iter_pos]; [| |done].
  - rewrite !IH, Pos2Nat.inj_xI, <- Nat.iter_add.
    replace (S (2 * Pos.to_nat n))%nat with (S (Pos.to_nat n + Pos.to_nat n)) by lia.
    by rewrite Nat.iter_succ_r.
  - rewrite !IH, Pos2Nat.inj_xO, <- Nat.iter_add. f_equal. lia.
Qed.

Lemma shr_exact m k :
  Nat.iter k shr_1 (Build_shr_record (Zpos (shl m k)) false false)
  = Build_shr_record (Zpos m) false false.
Proof.
  induction k as [|k IH]; [done|].
  by rewrite Nat.iter_succ_r, shl_S.
Qed.

Lemma size_safe p : Zpos p < 2 ^ 53 -> Zpos (Pos.size p) <= 53.
Proof.
  intros Hp. destruct (Z_le_gt_dec (Zpos (Pos.size p)) 53) as [|Hgt]; [done|].
  pose proof (Pos.size_le p) as Hle.
  apply Pos2Z.pos_le_pos in Hle. rewrite Pos2Z.inj_pow in Hle.
  change (Z.pos p~0) with (2 * Z.pos p) in Hle.
  assert (2 ^ 54 <= 2 ^ Zpos (Pos.size p)) by (apply Z.pow_le_mono_r; lia).
  assert (2 ^ 54 = 2 * 2 ^ 53) by reflexivity. lia.
Qed.

Lemma shr_fexp_shift m e q :
  Zpos (Pos.size m) = 53 -> -1074 <= e ->
  shr_fexp prec emax (Zpos (shl m q)) (e - Z.of_nat q) loc_Exact
  = (Build_shr_record (Zpos m) false false, e).
Proof.
  intros Hm He. unfold shr_fexp.
  change (Zdigits2 (Zpos (shl m q))) with (Zpos (digits2_pos (shl m q))).
  rewrite digits2_pos_size, size_shl, Hm.
  assert (Hf : fexp prec emax (53 + Z.of_nat q + (e - Z.of_nat q))
               - (e - Z.of_nat q) = Z.of_nat q).
  { unfold fexp, SpecFloat.emin, prec, emax. lia. }
  rewrite Hf. unfold shr, shr_record_of_loc.
  destruct q as [|q]; [simpl; f_equal; lia|].
  change (Z.of_nat (S q)) with (Zpos (Pos.of_succ_nat q)). cbv beta iota.
  rewrite iter_pos_nat, SuccNat2Pos.id_succ, shr_exact.
  f_equal. lia.
Qed.

Lemma binary_round_aux_shift s m e q :
  Zpos (Pos.size m) = 53 -> -1074 <= e <= 971 ->
  binary_round_aux prec emax s (Zpos (shl m q)) (e - Z.of_nat q) loc_Exact
  = S754_finite s m e.
Proof.
  intros Hm He. unfold binary_round_aux.
  rewrite shr_fexp_shift by (done || lia).
  cbn [loc_of_shr_record round_nearest_even shr_m].
  pose proof (shr_fexp_shift m e 0 Hm (proj1 He)) as H0.
  change (shl m 0) with m in H0. rewrite Z.sub_0_r in H0. rewrite H0.
  cbn [shr_m]. change (emax - prec) with 971.
  destruct (Z.leb_spec e 971) as [|]; [done|lia].
Qed.

Lemma lead_size p : Zpos p < 2 ^ 53 -> Zpos (Pos.size p) + Z.of_nat (lead p) = 53.
Proof. intros Hp. apply size_safe in Hp. unfold lead. lia. Qed.

Lemma binary_round_scaled s p k :
  Zpos p < 2 ^ 53 ->
  binary_round prec emax s (shl p k) (- Z.of_nat k) = canon s p.
Proof.
  intros Hp. pose proof (lead_size p Hp) as Hl.
  assert (Hm : Zpos (Pos.size (shl p (lead p))) = 53) by (rewrite size_shl; lia).
  unfold binary_round, canon.
  rewrite digits2_pos_size, size_shl.
  assert (Hf : fexp prec emax (Zpos (Pos.size p) + Z.of_nat k + - Z.of_nat k)
               = - Z.of_nat (lead p)).
  { unfold fexp, SpecFloat.emin, prec, emax. lia. }
  rewrite Hf. unfold shl_align.
  destruct (- Z.of_nat (lead p) - - Z.of_nat k) as [|d|d] eqn:E.
  - assert (k = lead p) as -> by lia.
    pose proof (binary_round_aux_shift s (shl p (lead p)) (- Z.of_nat (lead p)) 0 Hm)
      as H0.
    change (shl (shl p (lead p)) 0) with (shl p (lead p)) in H0.
    rewrite Z.sub_0_r in H0. apply H0. lia.
  - assert (Hk : (k = (k - lead p) + lead p)%nat) by lia.
    rewrite Hk at 1. rewrite <- shl_shl.
    replace (- Z.of_nat k)
      with (- Z.of_nat (lead p) - Z.of_nat (k - lead p)) by lia.
    apply binary_round_aux_shift; [done|lia].
  - rewrite pos_iter_shl, shl_shl.
    replace (Pos.to_nat d + k)%nat with (lead p) by lia.
    pose proof (binary_round_aux_shift s (shl p (lead p)) (- Z.of_nat (lead p)) 0 Hm)
      as H0.
    change (shl (shl p (lead p)) 0) with (shl p (lead p)) in H0.
    rewrite Z.sub_0_r in H0. apply H0. lia.
Qed.

Lemma sf_of_Z_pos p : Zpos p < 2 ^ 53 -> sf_of_Z (Zpos p) = canon false p.
Proof. intros Hp. exact (binary_round_scaled false p 0 Hp). Qed.

Lemma sf_of_Z_neg p : Zpos p < 2 ^ 53 -> sf_of_Z (Zneg p) = canon true p.
Proof. intros Hp. exact (binary_round_scaled true p 0 Hp). Qed.

Lemma binary_normalize_scaled z k :
  safe z ->
  binary_normalize prec emax (z * 2 ^ Z.of_nat k) (- Z.of_nat k) false
  = sf_of_Z z.
Proof.
  unfold safe. intros Hz. destruct z as [|p|p]; [done| |].
  - rewrite <- shl_Z, sf_of_Z_pos by lia. apply binary_round_scaled. lia.
  - rewrite sf_of_Z_neg by lia.
    rewrite <- Pos2Z.opp_pos, Z.mul_opp_l, <- shl_Z.
    apply binary_round_scaled. lia.
Qed.

Lemma shl_align_down p j J :
  (j <= J)%nat ->
  (shl_align (shl p j) (- Z.of_nat j) (- Z.of_nat J)).1 = shl p J.
Proof.
  intros HJ. unfold shl_align.
  destruct (- Z.of_nat J - - Z.of_nat j) as [|d|d] eqn:E; simpl.
  - f_equal. lia.
  - lia.
  - rewrite pos_iter_shl, shl_shl. f_equal. lia.
Qed.

Lemma SFadd_exact a b :
  safe a -> safe b -> safe (a + b) ->
  SF64add (sf_of_Z a) (sf_of_Z b) = sf_of_Z (a + b).
Proof.
  intros Ha Hb Hab.
  destruct (Z.eq_dec a 0) as [->|Ha0].
  { rewrite Z.add_0_l. destruct b as [|p|p]; [done| |]; unfold safe in Hb.
    - by rewrite sf_of_Z_pos by lia.
    - by rewrite sf_of_Z_neg by lia. }
  destruct (Z.eq_dec b 0) as [->|Hb0].
  { rewrite Z.add_0_r. destruct a as [|p|p]; [done| |]; unfold safe in Ha.
    - by rewrite sf_of_Z_pos by lia.
    - by rewrite sf_of_Z_neg by lia. }
  assert (Hc : forall z, z <> 0 -> safe z ->
            exists s p, z = cond_Zopp s (Zpos p) /\ Zpos p < 2 ^ 53
                        /\ sf_of_Z z = canon s p).
  { intros [|p|p] Hz Hs; [done| |]; unfold safe in Hs.
    - exists false, p. split; [done|]. split; [lia|]. apply sf_of_Z_pos. lia.
    - exists true, p. split; [done|]. split; [lia|]. apply sf_of_Z_neg. lia. }
  destruct (Hc a Ha0 Ha) as (sa & pa & Ea & Hpa & ->).
  destruct (Hc b Hb0 Hb) as (sb & pb & Eb & Hpb & ->).
  unfold SF64add, SFadd, canon.
  set (J := Nat.max (lead pa) (lead pb)).
  replace (Z.min (- Z.of_nat (lead pa)) (- Z.of_nat (lead pb)))
    with (- Z.of_nat J) by lia.
  rewrite !shl_align_down by lia. rewrite !shl_Z.
  replace (cond_Zopp sa (Z.pos pa * 2 ^ Z.of_nat J)
           + cond_Zopp sb (Z.pos pb * 2 ^ Z.of_nat J))
    with ((a + b) * 2 ^ Z.of_nat J).
  { by apply binary_normalize_scaled. }
  rewrite Ea, Eb. destruct sa, sb; simpl; lia.
Qed.

Lemma sf_of_Z_cases z :
  safe z ->
  z = 0 /\ sf_of_Z z = S754_zero false
  \/ exists s p, z = cond_Zopp s (Zpos p) /\ Zpos p < 2 ^ 53
                 /\ sf_of_Z z = canon s p.
Proof.
  unfold safe. intros Hz. destruct z as [|p|p]; [by left| |]; right.
  - exists false, p. split; [done|]. split; [lia|]. apply sf_of_Z_pos. lia.
  - exists true, p. split; [done|]. split; [lia|]. apply sf_of_Z_neg. lia.
Qed.

Lemma canon_valid s p : Zpos p < 2 ^ 53 -> valid_binary (canon s p) = true.
Proof.
  intros Hp. pose proof (lead_size p Hp) as Hl.
  unfold canon, SpecFloat.valid_binary, bounded, canonical_mantissa.
  rewrite digits2_pos_size, size_shl.
  apply andb_true_intro. split.
  - apply Z.eqb_eq. unfold fexp, SpecFloat.emin, prec, emax. lia.
  - apply Z.leb_le. unfold prec, emax. lia.
Qed.

Lemma sf_of_Z_valid z : safe z -> valid_binary (sf_of_Z z) = true.
Proof.
  intros Hz. destruct (sf_of_Z_cases z Hz) as [[_ ->]|(s & p & _ & Hp & ->)];
    [done|by apply canon_valid].
Qed.

Lemma Prim2SF_num_of_Z z : safe z -> Prim2SF (num_of_Z z) = sf_of_Z z.
Proof. intros Hz. apply Prim2SF_SF2Prim. by apply sf_of_Z_valid. Qed.

Lemma num_add_exact a b :
  safe a -> safe b -> safe (a + b) ->
  PrimFloat.add (num_of_Z a) (num_of_Z b) = num_of_Z (a + b).
Proof.
  intros Ha Hb Hab. apply Prim2SF_inj.
  rewrite FloatAxioms.add_spec, !Prim2SF_num_of_Z by done. by apply SFadd_exact.
Qed.

Lemma num_opp_exact a :
  safe a -> a <> 0 -> PrimFloat.opp (num_of_Z a) = num_of_Z (- a).
Proof.
  intros Ha Ha0. apply Prim2SF_inj.
  assert (safe (- a)) by (unfold safe in *; lia).
  rewrite FloatAxioms.opp_spec, !Prim2SF_num_of_Z by done.
  unfold safe in Ha. destruct a as [|p|p]; [done| |].
  - change (- Z.pos p) with (Z.neg p).
    by rewrite sf_of_Z_pos, sf_of_Z_neg by lia.
  - change (- Z.neg p) with (Z.pos p).
    by rewrite sf_of_Z_pos, sf_of_Z_neg by lia.
Qed.

Lemma canon_inj s p s' p' :
  Zpos p < 2 ^ 53 -> Zpos p' < 2 ^ 53 ->
  canon s p = canon s' p' -> s = s' /\ p = p'.
Proof.
  intros Hp Hp'. unfold canon. intros [= -> Hm He].
  split; [done|].
  assert (Hl : lead p = lead p') by lia.
  rewrite Hl in Hm.
  assert (HZ : Zpos (shl p (lead p')) = Zpos (shl p' (lead p'))) by congruence.
  rewrite !shl_Z in HZ.
  assert (0 < 2 ^ Z.of_nat (lead p')) by (apply Z.pow_pos_nonneg; lia).
  apply Z.mul_cancel_r in HZ; [congruence|lia].
Qed.

Lemma SFeqb_canon s p s' p' :
  SFeqb (canon s p) (canon s' p') = true <-> canon s p = canon s' p'.
Proof.
  unfold canon, SFeqb, SFcompare.
  set (m := shl p (lead p)). set (m' := shl p' (lead p')).
  set (e := - Z.of_nat (lead p)). set (e' := - Z.of_nat (lead p')).
  clearbody m m' e e'.
  change (Pos.compare_cont Eq m m') with (Pos.compare m m').
  split.
  - destruct s, s'; try done;
      destruct (Z.compare_spec e e'); try done;
      destruct (Pos.compare_spec m m'); try done; congruence.
  - intros [= -> -> ->]. rewrite Z.compare_refl, Pos.compare_refl.
    by destruct s'.
Qed.

Lemma SFeqb_exact a b :
  safe a -> safe b -> SFeqb (sf_of_Z a) (sf_of_Z b) = (a =? b).
Proof.
  intros Ha Hb.
  destruct (sf_of_Z_cases a Ha) as [[-> ->]|(s & p & -> & Hp & ->)],
    (sf_of_Z_cases b Hb) as [[-> ->]|(s' & p' & -> & Hp' & ->)].
  - done.
  - unfold canon. by destruct s'.
  - unfold canon. by destruct s.
  - destruct (Z.eqb_spec (cond_Zopp s (Z.pos p)) (cond_Zopp s' (Z.pos p')))
      as [E|E].
    + apply SFeqb_canon.
      destruct s, s'; cbn [cond_Zopp] in E; try lia;
        (assert (p = p') as -> by lia); done.
    + apply not_true_is_false. intros Heq. apply SFeqb_canon in Heq.
      apply canon_inj in Heq as [-> ->]; done.
Qed.

Lemma num_eqb_exact a b :
  safe a -> safe b -> PrimFloat.eqb (num_of_Z a) (num_of_Z b) = (a =? b).
Proof.
  intros Ha Hb. rewrite FloatAxioms.eqb_spec, !Prim2SF_num_of_Z by done.
  by apply SFeqb_exact.
Qed.

Lemma num_of_Z_inj a b : safe a -> safe b -> num_of_Z a = num_of_Z b -> a = b.
Proof.
  intros Ha Hb E. apply Z.eqb_eq. rewrite <- (num_eqb_exact a b) by done.
  rewrite E, num_eqb_exact by done. apply Z.eqb_refl.
Qed.

Lemma num_leb_zero a :
  safe a -> PrimFloat.leb (num_of_Z a) PrimFloat.zero = (a <=? 0).
Proof.
  intros Ha. rewrite FloatAxioms.leb_spec, Prim2SF_num_of_Z by done.
  change (Prim2SF PrimFloat.zero) with (S754_zero false).
  destruct (sf_of_Z_cases a Ha) as [[-> ->]|(s & p & -> & Hp & ->)]; [done|].
  by destruct s.
Qed.

Lemma num_ltb_zero a :
  safe a -> PrimFloat.ltb (num_of_Z a) PrimFloat.zero = (a <? 0).
Proof.
  intros Ha. rewrite FloatAxioms.ltb_spec, Prim2SF_num_of_Z by done.
  change (Prim2SF PrimFloat.zero) with (S754_zero false).
  destruct (sf_of_Z_cases a Ha) as [[-> ->]|(s & p & -> & Hp & ->)]; [done|].
  by destruct s.
Qed.

Lemma num_zero_ltb a :
  safe a -> PrimFloat.ltb PrimFloat.zero (num_of_Z a) = (0 <? a).
Proof.
  intros Ha. rewrite FloatAxioms.ltb_spec, Prim2SF_num_of_Z by done.
  change (Prim2SF PrimFloat.zero) with (S754_zero false).
  destruct (sf_of_Z_cases a Ha) as [[-> ->]|(s & p & -> & Hp & ->)]; [done|].
  by destruct s.
Qed.

Lemma num_abs_exact a :
  safe a -> PrimFloat.abs (num_of_Z a) = num_of_Z (Z.abs a).
Proof.
  intros Ha. apply Prim2SF_inj.
  assert (safe (Z.abs a)) by (unfold safe in *; lia).
  rewrite FloatAxioms.abs_spec, !Prim2SF_num_of_Z by done.
  unfold safe in Ha. destruct a as [|p|p]; [done| |].
  - change (Z.abs (Z.pos p)) with (Z.pos p).
    by rewrite sf_of_Z_pos by lia.
  - change (Z.abs (Z.neg p)) with (Z.pos p).
    by rewrite sf_of_Z_pos, sf_of_Z_neg by lia.
Qed.

Lemma num_zero : num_of_Z 0 = PrimFloat.zero.
Proof. reflexivity. Qed.

Lemma num_is_nan a : safe a -> PrimFloat.is_nan (num_of_Z a) = false.
Proof.
  intros Ha. unfold PrimFloat.is_nan.
  by rewrite num_eqb_exact, Z.eqb_refl.
Qed.

(** ** The binary64 handlers on integer-valued stores *)

Lemma sumZ_perm l l' : l ≡ₚ l' -> sumZ l = sumZ l'.
Proof. induction 1; simpl; lia. Qed.

Lemma safe_rows_Forall rows :
  safe_rows rows = true ->
  Forall (fun e => 0 < LedgerEntry.amount e /\ safe (LedgerEntry.balanceAfter e))
    rows.
Proof.
  unfold safe_rows, safe. induction rows as [|e rows IH]; simpl; [constructor|].
  intros [[H1 H2]%andb_prop H3]%andb_prop.
  constructor; [|by apply IH]. split; lia.
Qed.

Lemma abs_signedAmount e :
  0 < LedgerEntry.amount e -> Z.abs (signedAmount e) = LedgerEntry.amount e.
Proof. unfold signedAmount. destruct (LedgerEntry.direction e); lia. Qed.

Lemma abs_signed_sum es :
  Forall (fun e => 0 < LedgerEntry.amount e) es ->
  Z.abs (signed_sum es) <= sumZ (map LedgerEntry.amount es).
Proof.
  induction 1 as [|e es He _ IH]; [done|].
  rewrite signed_sum_cons. simpl.
  pose proof (abs_signedAmount e He). lia.
Qed.

Lemma sim_where p rows :
  F64.where_partyId p (map entry_f64 rows)
  = map entry_f64 (where_partyId p rows).
Proof.
  unfold F64.where_partyId, where_partyId.
  induction rows as [|e rows IH]; simpl; [done|].
  rewrite IH. by destruct (LedgerEntry.partyId e =? p).
Qed.

Lemma sim_sortBy_date l :
  F64.sortBy_date (map entry_f64 l) = map entry_f64 (sortBy_date l).
Proof. by apply sort_map. Qed.

Lemma sim_chronological st p :
  F64.chronological (store_f64 st) p = map entry_f64 (chronological st p).
Proof.
  unfold F64.chronological, chronological. simpl.
  rewrite sim_where, sim_sortBy_date. by apply sort_map.
Qed.

Lemma sim_allEntries st p c :
  F64.allEntries (store_f64 st) p (entry_f64 c)
  = map entry_f64 (allEntries st p c).
Proof.
  unfold F64.allEntries, allEntries. simpl.
  rewrite sim_where, sim_sortBy_date.
  change [entry_f64 c] with (map entry_f64 [c]). rewrite <- map_app.
  by apply sort_map.
Qed.

Lemma sim_signedAmount e :
  0 < LedgerEntry.amount e -> LedgerEntry.amount e < 2 ^ 53 ->
  F64.signedAmount (entry_f64 e) = num_of_Z (signedAmount e).
Proof.
  intros H1 H2. unfold F64.signedAmount, signedAmount. simpl.
  destruct (LedgerEntry.direction e); [done|].
  apply num_opp_exact; unfold safe; lia.
Qed.

Lemma sim_recalc_step r ws e :
  0 < LedgerEntry.amount e -> safe (LedgerEntry.balanceAfter e) ->
  Z.abs r + LedgerEntry.amount e < 2 ^ 53 ->
  F64.recalc_step (num_of_Z r, map write_f64 ws) (entry_f64 e)
  = (num_of_Z (recalc_step (r, ws) e).1,
     map write_f64 (recalc_step (r, ws) e).2).
Proof.
  intros Ha Hb Hr. pose proof (abs_signedAmount e Ha) as Hs.
  unfold F64.recalc_step, recalc_step, F64.strict_ne.
  cbn [fst snd]. rewrite sim_signedAmount by lia.
  rewrite num_add_exact by (unfold safe; lia).
  change (F64.LedgerEntry.balanceAfter (entry_f64 e))
    with (num_of_Z (LedgerEntry.balanceAfter e)).
  rewrite num_eqb_exact by (done || unfold safe; lia).
  destruct (LedgerEntry.balanceAfter e =? r + signedAmount e); simpl; [done|].
  by rewrite map_app.
Qed.

Lemma recalc_step_fst r ws e : (recalc_step (r, ws) e).1 = r + signedAmount e.
Proof. unfold recalc_step. simpl. by case_match. Qed.

Lemma sim_recalc_fold es r ws :
  Forall (fun e => 0 < LedgerEntry.amount e /\ safe (LedgerEntry.balanceAfter e))
    es ->
  Z.abs r + sumZ (map LedgerEntry.amount es) < 2 ^ 53 ->
  fold_left F64.recalc_step (map entry_f64 es) (num_of_Z r, map write_f64 ws)
  = (num_of_Z (fold_left recalc_step es (r, ws)).1,
     map write_f64 (fold_left recalc_step es (r, ws)).2).
Proof.
  intros Hes. revert r ws.
  induction Hes as [|e es [Ha Hb] Hes IH]; intros r ws Hr; [done|].
  simpl in Hr. pose proof (abs_signedAmount e Ha) as Hs.
  assert (0 <= sumZ (map LedgerEntry.amount es)).
  { clear -Hes. induction Hes as [|x l [Hx _] _ IH]; simpl; lia. }
  cbn [map fold_left]. rewrite sim_recalc_step by (done || lia).
  destruct (recalc_step (r, ws) e) as [r' ws'] eqn:E.
  assert (r' = r + signedAmount e) as ->
    by (by rewrite <- (recalc_step_fst r ws e), E).
  apply IH. lia.
Qed.

Lemma safe_ledger_chronological st p :
  safe_ledger st p = true ->
  Forall (fun e => 0 < LedgerEntry.amount e /\ safe (LedgerEntry.balanceAfter e))
    (chronological st p)
  /\ sumZ (map LedgerEntry.amount (chronological st p)) < 2 ^ 53.
Proof.
  unfold safe_ledger. intros [[H1 H2]%andb_prop _]%andb_prop. split.
  - rewrite chronological_perm. by apply safe_rows_Forall.
  - rewrite (sumZ_perm _ (map LedgerEntry.amount
                                    (where_partyId p (entries st)))); [lia|].
    apply Permutation_map, chronological_perm.
Qed.

Lemma sim_update_row key b e :
  F64.update_row key (num_of_Z b) (entry_f64 e) = entry_f64 (update_row key b e).
Proof.
  unfold F64.update_row, update_row. simpl.
  by destruct (LedgerEntry.id e =? key).
Qed.

Lemma sim_apply_write st w :
  F64.apply_write (store_f64 st) (write_f64 w) = store_f64 (apply_write st w).
Proof.
  destruct w as [key b|e|key b u]; unfold store_f64; simpl.
  - f_equal. rewrite !map_map. apply map_ext. intros e. apply sim_update_row.
  - f_equal. by rewrite map_app.
  - f_equal. symmetry. by apply fmap_alter.
Qed.

Lemma sim_apply_writes ws st :
  F64.apply_writes (map write_f64 ws) (store_f64 st)
  = store_f64 (apply_writes ws st).
Proof.
  revert st; induction ws as [|w ws IH]; intros st; [done|].
  unfold F64.apply_writes, apply_writes in *. cbn [map fold_left].
  by rewrite sim_apply_write, IH.
Qed.

Lemma sim_transaction fbody body st :
  fbody (store_f64 st) = result_f64 (body st) ->
  F64.transaction fbody (store_f64 st)
  = (store_f64 (transaction body st).1, (transaction body st).2).
Proof.
  intros H. unfold F64.transaction, transaction. rewrite H.
  destruct (body st) as [ws|msg]; simpl; [|done].
  by rewrite sim_apply_writes.
Qed.

(** The recalculation pass computes, on an integer-valued ledger within
    the exact range, the writes of the exact model. *)
Lemma sim_recalc_body p now st :
  safe_ledger st p = true ->
  F64.recalc_body p now (store_f64 st) = result_f64 (recalc_body p now st).
Proof.
  intros Hsafe.
  destruct (safe_ledger_chronological st p Hsafe) as [Hes Hsum].
  unfold F64.recalc_body, recalc_body, F64.recalc_loop, recalc_loop.
  rewrite sim_chronological.
  change (PrimFloat.zero, @nil F64.Write)
    with (num_of_Z 0, map write_f64 []).
  rewrite sim_recalc_fold by (done || simpl; lia).
  pose proof (recalc_loop_spec (chronological st p)) as Hloop.
  unfold recalc_loop in Hloop. rewrite Hloop. cbn [fst snd result_f64].
  rewrite length_map, map_app. do 2 f_equal.
  change (F64.parties (store_f64 st)) with (party_f64 <$> parties st).
  rewrite lookup_fmap.
  unfold safe_ledger in Hsafe. apply andb_prop in Hsafe as [_ Hparty].
  destruct (parties st !! p) as [party|]; [|done]. cbn [fmap option_fmap option_map].
  unfold F64.strict_ne.
  change (F64.Party.balance (party_f64 party))
    with (num_of_Z (Party.balance party)).
  assert (Z.abs (signed_sum (chronological st p)) < 2 ^ 53).
  { pose proof (abs_signed_sum (chronological st p)) as Habs.
    assert (Forall (fun e => 0 < LedgerEntry.amount e) (chronological st p))
      by (eapply Forall_impl; [exact Hes|]; by intros e [? _]).
    specialize (Habs ltac:(done)). lia. }
  rewrite num_eqb_exact by (unfold safe; lia).
  destruct (Party.balance party =? signed_sum (chronological st p)); simpl;
    [|done].
  by destruct (length (chronological st p) =? 0)%nat.
Qed.

Lemma sim_recalculate p now st :
  safe_ledger st p = true ->
  F64.recalculateBalancesForParty p now (store_f64 st)
  = (store_f64 (recalculateBalancesForParty p now st).1,
     (recalculateBalancesForParty p now st).2).
Proof.
  intros Hsafe. apply sim_transaction. by apply sim_recalc_body.
Qed.

Lemma sim_add_step r ws c e :
  0 < LedgerEntry.amount e -> safe (LedgerEntry.balanceAfter e) ->
  Z.abs r + LedgerEntry.amount e < 2 ^ 53 ->
  F64.add_step (num_of_Z r, map write_f64 ws, entry_f64 c) (entry_f64 e)
  = (num_of_Z (add_step (r, ws, c) e).1.1,
     map write_f64 (add_step (r, ws, c) e).1.2,
     entry_f64 (add_step (r, ws, c) e).2).
Proof.
  intros Ha Hb Hr. pose proof (abs_signedAmount e Ha) as Hs.
  unfold F64.add_step, add_step, F64.strict_ne.
  rewrite sim_signedAmount by lia.
  rewrite num_add_exact by (unfold safe; lia).
  change (F64.LedgerEntry.balanceAfter (entry_f64 e))
    with (num_of_Z (LedgerEntry.balanceAfter e)).
  change (F64.LedgerEntry.id (entry_f64 e)) with (LedgerEntry.id e).
  rewrite num_eqb_exact by (done || unfold safe; lia).
  destruct (LedgerEntry.id e =? 0); [done|].
  destruct (LedgerEntry.balanceAfter e =? r + signedAmount e); simpl; [done|].
  by rewrite map_app.
Qed.

Lemma add_step_fst r ws c e :
  (add_step (r, ws, c) e).1.1 = r + signedAmount e.
Proof. unfold add_step. by repeat case_match. Qed.

Lemma sim_add_fold es r ws c :
  Forall (fun e => 0 < LedgerEntry.amount e /\ safe (LedgerEntry.balanceAfter e))
    es ->
  Z.abs r + sumZ (map LedgerEntry.amount es) < 2 ^ 53 ->
  fold_left F64.add_step (map entry_f64 es)
    (num_of_Z r, map write_f64 ws, entry_f64 c)
  = (num_of_Z (fold_left add_step es (r, ws, c)).1.1,
     map write_f64 (fold_left add_step es (r, ws, c)).1.2,
     entry_f64 (fold_left add_step es (r, ws, c)).2).
Proof.
  intros Hes. revert r ws c.
  induction Hes as [|e es [Ha Hb] Hes IH]; intros r ws c Hr; [done|].
  simpl in Hr. pose proof (abs_signedAmount e Ha) as Hs.
  assert (0 <= sumZ (map LedgerEntry.amount es)).
  { clear -Hes. induction Hes as [|x l [Hx _] _ IH]; simpl; lia. }
  cbn [map fold_left]. rewrite sim_add_step by (done || lia).
  destruct (add_step (r, ws, c) e) as [[r' ws'] c'] eqn:E.
  assert (r' = r + signedAmount e) as ->
    by (by rewrite <- (add_step_fst r ws c e), E).
  apply IH. lia.
Qed.

Lemma allEntries_perm st p c :
  allEntries st p c ≡ₚ where_partyId p (entries st) ++ [c].
Proof.
  unfold allEntries. rewrite sort_perm. unfold sortBy_date.
  by rewrite sort_perm.
Qed.

(** The add-entry transaction likewise. *)
Lemma sim_add_body p a d n dt t1 t2 st :
  safe_ledger st p = true -> safe_amount st p a = true ->
  F64.add_body p (num_of_Z a) d n dt t1 t2 (store_f64 st)
  = result_f64 (add_body p a d n dt t1 t2 st).
Proof.
  intros Hsafe Hamount.
  unfold safe_ledger in Hsafe.
  apply andb_prop in Hsafe as [[Hrows _]%andb_prop _].
  unfold safe_amount in Hamount. apply andb_prop in Hamount as [Ha Hsum].
  unfold F64.add_body, add_body.
  change (F64.parties (store_f64 st)) with (party_f64 <$> parties st).
  rewrite lookup_fmap.
  destruct (parties st !! p) as [party|]; [|done].
  cbn [fmap option_fmap option_map].
  change (F64.mk_newEntry p (num_of_Z a) d n dt t1)
    with (entry_f64 (mk_newEntry p a d n dt t1)).
  set (c := mk_newEntry p a d n dt t1).
  rewrite sim_allEntries. unfold F64.add_loop, add_loop.
  change (PrimFloat.zero, @nil F64.Write, entry_f64 c)
    with (num_of_Z 0, map write_f64 [], entry_f64 c).
  rewrite sim_add_fold.
  - destruct (fold_left add_step (allEntries st p c) (0, [], c))
      as [[r ws] c']. simpl. by rewrite map_app.
  - rewrite allEntries_perm. apply Forall_app. split.
    + by apply safe_rows_Forall.
    + constructor; [|constructor]. split; [simpl; lia|unfold safe; simpl; lia].
  - rewrite (sumZ_perm _ (map LedgerEntry.amount
                                   (where_partyId p (entries st) ++ [c])))
      by apply Permutation_map, allEntries_perm.
    rewrite map_app. simpl.
    assert (sumZ (map LedgerEntry.amount (where_partyId p (entries st)) ++ [a])
            = sumZ (map LedgerEntry.amount (where_partyId p (entries st))) + a).
    { generalize (map LedgerEntry.amount (where_partyId p (entries st))).
      intros l. induction l as [|x l IH]; simpl; lia. }
    lia.
Qed.

Lemma sim_entries_update_fields k a d n dt st :
  F64.entries_update_fields k (num_of_Z a) d n dt (store_f64 st)
  = store_f64 (entries_update_fields k a d n dt st).
Proof.
  unfold F64.entries_update_fields, entries_update_fields, store_f64. simpl.
  f_equal. rewrite !map_map. apply map_ext. intros e. simpl.
  by destruct (LedgerEntry.id e =? k).
Qed.

Lemma sim_entries_delete k st :
  F64.entries_delete k (store_f64 st) = store_f64 (entries_delete k st).
Proof.
  unfold F64.entries_delete, entries_delete, store_f64. simpl. f_equal.
  induction (entries st) as [|e rows IH]; simpl; [done|].
  rewrite IH. by destruct (LedgerEntry.id e =? k).
Qed.

Lemma sim_handleSubmit view p k a d n dt t1 t2 st :
  safe a -> (0 < a -> submit_safe st p k a d n dt = true) ->
  F64.handleSubmit (party_f64 <$> view) p k (num_of_Z a) d n dt t1 t2
    (store_f64 st)
  = (store_f64 (handleSubmit view p k a d n dt t1 t2 st).1,
     (handleSubmit view p k a d n dt t1 t2 st).2).
Proof.
  intros Ha Hsafe. unfold F64.handleSubmit, handleSubmit.
  rewrite num_is_nan, num_leb_zero by done. simpl.
  assert (Hview : bool_decide (is_Some (party_f64 <$> view))
                  = bool_decide (is_Some view)).
  { apply bool_decide_ext. by rewrite fmap_is_Some. }
  rewrite Hview.
  destruct (Z.leb_spec a 0) as [|Hpos]; [done|].
  destruct (bool_decide (is_Some view)); [|done]. simpl.
  specialize (Hsafe Hpos). unfold submit_safe in Hsafe.
  assert (Hadd : safe_ledger st p && safe_amount st p a = true ->
            F64.transaction (F64.add_body p (num_of_Z a) d n dt t1 t2)
              (store_f64 st)
            = (store_f64 (transaction (add_body p a d n dt t1 t2) st).1,
               (transaction (add_body p a d n dt t1 t2) st).2)).
  { intros [H1 H2]%andb_prop. apply sim_transaction. by apply sim_add_body. }
  destruct k as [k|]; [|by apply Hadd].
  destruct (k =? 0); [by apply Hadd|].
  rewrite sim_entries_update_fields. by apply sim_recalculate.
Qed.

Lemma sim_deleteEntry k p now st :
  safe_ledger (entries_delete k st) p = true ->
  F64.deleteEntry k p now (store_f64 st)
  = (store_f64 (deleteEntry k p now st).1, (deleteEntry k p now st).2).
Proof.
  intros Hsafe. unfold F64.deleteEntry, deleteEntry, handleConfirmDelete.
  rewrite sim_entries_delete. by apply sim_recalculate.
Qed.

Lemma sim_ids l :
  map F64.LedgerEntry.id (map entry_f64 l) = map LedgerEntry.id l.
Proof. rewrite map_map. by apply map_ext. Qed.

Lemma sim_parties_lookup st p :
  F64.parties (store_f64 st) !! p = party_f64 <$> parties st !! p.
Proof. apply lookup_fmap. Qed.

(** ** The exact range is kept by the passes *)

Lemma Forall_safe_rows rows :
  Forall (fun e => 0 < LedgerEntry.amount e /\ safe (LedgerEntry.balanceAfter e))
    rows ->
  safe_rows rows = true.
Proof.
  unfold safe_rows, safe. induction 1 as [|e rows [H1 H2] _ IH]; simpl; [done|].
  rewrite IH, andb_true_r. apply andb_true_intro. split; lia.
Qed.

Lemma safe_ledger_intro st p :
  Forall (fun e => 0 < LedgerEntry.amount e /\ safe (LedgerEntry.balanceAfter e))
    (chronological st p) ->
  sumZ (map LedgerEntry.amount (chronological st p)) < 2 ^ 53 ->
  (forall party, parties st !! p = Some party -> safe (Party.balance party)) ->
  safe_ledger st p = true.
Proof.
  intros Hes Hsum Hparty. unfold safe_ledger.
  rewrite chronological_perm in Hes.
  rewrite (sumZ_perm _ (map LedgerEntry.amount
                                 (where_partyId p (entries st)))) in Hsum
    by apply Permutation_map, chronological_perm.
  rewrite (Forall_safe_rows _ Hes). simpl.
  apply andb_true_intro. split; [lia|].
  destruct (parties st !! p) as [party|]; [|done].
  specialize (Hparty party eq_refl). unfold safe in Hparty. lia.
Qed.

Lemma settle_from_safe r es :
  Forall (fun e => 0 < LedgerEntry.amount e) es ->
  Z.abs r + sumZ (map LedgerEntry.amount es) < 2 ^ 53 ->
  Forall (fun e => 0 < LedgerEntry.amount e /\ safe (LedgerEntry.balanceAfter e))
    (settle_from r es)
  /\ map LedgerEntry.amount (settle_from r es) = map LedgerEntry.amount es.
Proof.
  intros Hes. revert r. induction Hes as [|e es He Hes IH]; intros r Hr;
    [by split|].
  simpl in Hr. pose proof (abs_signedAmount e He) as Hs.
  assert (0 <= sumZ (map LedgerEntry.amount es)).
  { clear -Hes. induction Hes as [|x l Hx _ IH]; simpl; lia. }
  destruct (IH (r + signedAmount e)) as [IH1 IH2]; [lia|].
  simpl. split; [|by rewrite IH2].
  constructor; [|done]. split; [done|]. unfold safe. simpl. lia.
Qed.

Lemma safe_ledger_amounts st p :
  safe_ledger st p = true ->
  Forall (fun e => 0 < LedgerEntry.amount e) (chronological st p)
  /\ sumZ (map LedgerEntry.amount (chronological st p)) < 2 ^ 53.
Proof.
  intros [H1 H2]%safe_ledger_chronological. split; [|done].
  eapply Forall_impl; [exact H1|]. by intros e [? _].
Qed.

Lemma recalc_safe p now st :
  store_ok st -> safe_ledger st p = true ->
  safe_ledger (recalculateBalancesForParty p now st).1 p = true.
Proof.
  intros Hok Hsafe. destruct (safe_ledger_amounts st p Hsafe) as [Hes Hsum].
  destruct (settle_from_safe 0 (chronological st p) Hes) as [H1 H2];
    [simpl; lia|].
  apply safe_ledger_intro.
  - by rewrite recalc_chronological.
  - rewrite recalc_chronological by done. unfold settle. by rewrite H2.
  - intros party' Hp'.
    destruct (parties st !! p) as [party|] eqn:Hp.
    + destruct (recalc_party_balance p now st party Hp) as (party'' & E1 & E2).
      rewrite E1 in Hp'. injection Hp' as <-. unfold safe. rewrite E2.
      pose proof (abs_signed_sum _ Hes). lia.
    + rewrite recalc_parties, (recalc_party_writes_missing st p now Hp) in Hp'.
      simpl in Hp'. congruence.
Qed.

Lemma sumZ_snoc l x : sumZ (l ++ [x]) = sumZ l + x.
Proof. induction l as [|y l IH]; simpl; lia. Qed.

Lemma add_safe p a d n dt t1 t2 st party :
  store_ok st -> parties st !! p = Some party ->
  safe_ledger st p = true -> safe_amount st p a = true ->
  safe_ledger (transaction (add_body p a d n dt t1 t2) st).1 p = true.
Proof.
  intros Hok Hp Hsafe Hamount.
  destruct (safe_ledger_amounts st p Hsafe) as [Hes Hsum].
  unfold safe_amount in Hamount. apply andb_prop in Hamount as [Ha Hsum'].
  set (c := mk_newEntry p a d n dt t1).
  pose proof (add_chronological p a d n dt t1 t2 st party Hok Hp) as Hchr.
  fold c in Hchr. simpl in Hchr.
  set (l := before_new st p c ++ set_id (nextEntryId st) c :: after_new st p c)
    in *.
  assert (Hl : l ≡ₚ chronological st p ++ [set_id (nextEntryId st) c]).
  { unfold l. rewrite (chronological_split st p c), <- app_assoc.
    apply Permutation_app_head, Permutation_cons_append. }
  assert (Hpos : Forall (fun e => 0 < LedgerEntry.amount e) l).
  { rewrite Hl. apply Forall_app. split; [done|].
    constructor; [simpl; lia|constructor]. }
  assert (Htot : sumZ (map LedgerEntry.amount l) < 2 ^ 53).
  { rewrite (sumZ_perm _ (map LedgerEntry.amount
        (chronological st p ++ [set_id (nextEntryId st) c])))
      by apply Permutation_map, Hl.
    rewrite map_app.
    change (map LedgerEntry.amount [set_id (nextEntryId st) c]) with [a].
    rewrite sumZ_snoc.
    rewrite (sumZ_perm _ (map LedgerEntry.amount
                                   (where_partyId p (entries st))))
      by apply Permutation_map, chronological_perm.
    lia. }
  destruct (settle_from_safe 0 l Hpos) as [H1 H2]; [simpl; lia|].
  apply safe_ledger_intro.
  - by rewrite Hchr.
  - rewrite Hchr. unfold settle. by rewrite H2.
  - intros party' Hp'.
    pose proof (add_invariant p a d n dt t1 t2 st party Hok Hp) as Hinv.
    rewrite (ledger_invariant_balance _ _ _ Hinv Hp'), Hchr.
    unfold safe, settle.
    rewrite (signed_sum_signed _ l) by apply settle_from_signed.
    pose proof (abs_signed_sum _ Hpos). lia.
Qed.

Lemma safe_rows_filter (Q : Entry -> bool) rows :
  safe_rows rows = true ->
  safe_rows (List.filter Q rows) = true
  /\ sumZ (map LedgerEntry.amount (List.filter Q rows))
     <= sumZ (map LedgerEntry.amount rows).
Proof.
  unfold safe_rows. induction rows as [|e rows IH]; simpl; [done|].
  intros [[H1 H2]%andb_prop H3]%andb_prop.
  destruct (IH H3) as [IH1 IH2].
  destruct (Q e); simpl; [|split; [done|lia]].
  rewrite H1, H2, IH1. split; [done|lia].
Qed.

Lemma entries_delete_safe k st p :
  safe_ledger st p = true -> safe_ledger (entries_delete k st) p = true.
Proof.
  unfold safe_ledger. intros [[H1 H2]%andb_prop H3]%andb_prop. simpl.
  unfold where_partyId in *. rewrite bfilter_comm.
  destruct (safe_rows_filter (fun e => negb (LedgerEntry.id e =? k)) _ H1)
    as [G1 G2].
  rewrite G1, H3. simpl. rewrite andb_true_r. lia.
Qed.

Lemma sumZ_amounts_nonneg rows :
  safe_rows rows = true -> 0 <= sumZ (map LedgerEntry.amount rows).
Proof.
  intros H%safe_rows_Forall.
  induction H as [|x l [Hx _] _ IH]; simpl; lia.
Qed.

Lemma safe_amount_pos st p a :
  safe_ledger st p = true -> safe_amount st p a = true -> 0 < a /\ safe a.
Proof.
  unfold safe_ledger, safe_amount, safe.
  intros [[H0 _]%andb_prop _]%andb_prop [H1 H2]%andb_prop.
  pose proof (sumZ_amounts_nonneg _ H0). lia.
Qed.

Lemma sim_handleSubmit_add view p a d n dt t1 t2 st :
  safe_ledger st p = true -> safe_amount st p a = true ->
  F64.handleSubmit (Some (party_f64 view)) p None (num_of_Z a) d n dt t1 t2
    (store_f64 st)
  = (store_f64 (handleSubmit (Some view) p None a d n dt t1 t2 st).1,
     (handleSubmit (Some view) p None a d n dt t1 t2 st).2).
Proof.
  intros H1 H2. destruct (safe_amount_pos st p a H1 H2) as [Ha Hs].
  apply (sim_handleSubmit (Some view)); [done|].
  intros _. simpl. by rewrite H1, H2.
Qed.


(** ** The recalculation pass over binary64 numbers, whatever the values *)

Lemma F64_compareEntries_flip a b :
  F64.compareEntries b a = - F64.compareEntries a b.
Proof. unfold F64.compareEntries, js_or. repeat case_match; lia. Qed.

Lemma F64_compareEntries_trans a b c :
  F64.compareEntries a b <= 0 -> F64.compareEntries b c <= 0 ->
  F64.compareEntries a c <= 0.
Proof. unfold F64.compareEntries, js_or. repeat case_match; lia. Qed.

Lemma F64_chronological_perm fs p :
  F64.chronological fs p ≡ₚ F64.where_partyId p (F64.entries fs).
Proof.
  unfold F64.chronological, F64.sortBy_date. by rewrite !sort_perm.
Qed.

Lemma F64_chronological_ordered fs p :
  ordered F64.compareEntries (F64.chronological fs p).
Proof.
  apply sort_ordered;
    [apply F64_compareEntries_flip|apply F64_compareEntries_trans].
Qed.

Lemma F64_recalc_step_fst s e :
  (F64.recalc_step s e).1 = PrimFloat.add s.1 (F64.signedAmount e).
Proof. unfold F64.recalc_step. by case_match. Qed.

Lemma F64_recalc_loop_snoc es e :
  (F64.recalc_loop (es ++ [e])).1
  = PrimFloat.add (F64.recalc_loop es).1 (F64.signedAmount e).
Proof.
  unfold F64.recalc_loop. rewrite fold_left_app. simpl.
  apply F64_recalc_step_fst.
Qed.

Lemma F64_recalc_fold_updates es s :
  Forall F64.is_entry_update s.2 ->
  Forall F64.is_entry_update (fold_left F64.recalc_step es s).2.
Proof.
  revert s; induction es as [|e es IH]; intros s Hs; [done|].
  simpl. apply IH. unfold F64.recalc_step. case_match; simpl; [|done].
  apply Forall_app. split; [done|]. by repeat constructor.
Qed.

Lemma F64_apply_updates_parties ws fs :
  Forall F64.is_entry_update ws ->
  F64.parties (F64.apply_writes ws fs) = F64.parties fs.
Proof.
  intros Hws. revert fs.
  induction Hws as [|w ws Hw _ IH]; intros fs; [done|].
  unfold F64.apply_writes in *. simpl. rewrite IH. by destruct w.
Qed.

(** The party row after a pass holds the last running balance: either it
    was written, or it compared equal and was left. *)
Lemma F64_recalc_party_balance p now fs fparty :
  F64.parties fs !! p = Some fparty ->
  exists fparty',
    F64.parties (F64.recalculateBalancesForParty p now fs).1 !! p = Some fparty'
    /\ (F64.Party.balance fparty' = (F64.recalc_loop (F64.chronological fs p)).1
        \/ PrimFloat.eqb (F64.Party.balance fparty')
             (F64.recalc_loop (F64.chronological fs p)).1 = true).
Proof.
  intros Hp.
  unfold F64.recalculateBalancesForParty, F64.transaction, F64.recalc_body.
  pose proof (F64_recalc_fold_updates (F64.chronological fs p)
                (PrimFloat.zero, []) ltac:(constructor)) as Hups.
  fold (F64.recalc_loop (F64.chronological fs p)) in Hups.
  destruct (F64.recalc_loop (F64.chronological fs p)) as [r ups] eqn:E.
  rewrite Hp. cbn [fst snd] in *.
  unfold F64.apply_writes. rewrite fold_left_app.
  fold (F64.apply_writes ups fs).
  pose proof (F64_apply_updates_parties ups fs Hups) as Hsame.
  unfold F64.strict_ne.
  destruct (PrimFloat.eqb (F64.Party.balance fparty) r) eqn:Heq; simpl.
  - destruct (length (F64.chronological fs p) =? 0)%nat eqn:Hlen; simpl.
    + rewrite Hsame, lookup_alter_eq, Hp. simpl. eexists. split; [done|].
      left. simpl. apply Nat.eqb_eq, nil_length_inv in Hlen.
      rewrite Hlen in E. by injection E as <- _.
    + rewrite Hsame, Hp. eexists. split; [done|]. by right.
  - rewrite Hsame, lookup_alter_eq, Hp. simpl. eexists. split; [done|].
    by left.
Qed.

Lemma F64_recalc_fold_spec es r u :
  fold_left F64.recalc_step es (r, u) = (F64.final r es, u ++ F64.pending r es).
Proof.
  revert r u; induction es as [|e es IH]; intros r u; simpl.
  - by rewrite app_nil_r.
  - unfold F64.recalc_step at 2. cbn [fst snd].
    destruct (F64.strict_ne _ _); rewrite IH; [by rewrite <- app_assoc|done].
Qed.

Lemma F64_recalc_loop_spec es :
  F64.recalc_loop es
  = (F64.final PrimFloat.zero es, F64.pending PrimFloat.zero es).
Proof. unfold F64.recalc_loop. by rewrite F64_recalc_fold_spec. Qed.

Lemma F64_pending_keyed r es :
  Forall (F64.keyed_in (map F64.LedgerEntry.id es)) (F64.pending r es).
Proof.
  revert r; induction es as [|e es IH]; intros r; simpl; [constructor|].
  apply Forall_app. split.
  - destruct (F64.strict_ne _ _); [|constructor].
    constructor; [|constructor]. simpl. apply list_elem_of_here.
  - eapply Forall_impl; [apply IH|]. intros [k b| |] Hw; simpl in *; try done.
    by apply list_elem_of_further.
Qed.

Lemma F64_keyed_update ks w : F64.keyed_in ks w -> F64.is_entry_update w.
Proof. by destruct w. Qed.

Lemma F64_apply_entry_updates ws fs :
  Forall F64.is_entry_update ws ->
  F64.apply_writes ws fs
  = F64.mkStore (F64.parties fs) (map (F64.row_after ws) (F64.entries fs))
      (F64.nextEntryId fs).
Proof.
  intros H; revert fs; induction H as [|w ws Hw _ IH]; intros fs; simpl.
  - destruct fs; simpl. f_equal. symmetry. apply map_id.
  - unfold F64.apply_writes in *; simpl. rewrite IH.
    destruct w; try done; simpl. f_equal. by rewrite map_map.
Qed.

Lemma F64_row_write_set e w :
  F64.row_write e w
  = F64.set_balanceAfter (F64.LedgerEntry.balanceAfter (F64.row_write e w)) e.
Proof.
  destruct e as [i q d a dt n b0 c].
  destruct w as [k b| |]; simpl; try done.
  unfold F64.update_row. simpl. by destruct (i =? k).
Qed.

Lemma F64_row_after_set ws e :
  F64.row_after ws e
  = F64.set_balanceAfter (F64.LedgerEntry.balanceAfter (F64.row_after ws e)) e.
Proof.
  unfold F64.row_after. revert e; induction ws as [|w ws IH]; intros e; simpl.
  - by destruct e.
  - rewrite (IH (F64.row_write e w)) at 1.
    generalize (F64.LedgerEntry.balanceAfter
                  (fold_left F64.row_write ws (F64.row_write e w))).
    intros b. rewrite (F64_row_write_set e w). by destruct e.
Qed.

Lemma F64_row_after_other ws e :
  Forall (fun w => match w with
                   | F64.EntryUpdate k _ => k <> F64.LedgerEntry.id e
                   | _ => True
                   end) ws ->
  F64.row_after ws e = e.
Proof.
  unfold F64.row_after. induction 1 as [|w ws Hw _ IH]; simpl; [done|].
  assert (F64.row_write e w = e) as ->; [|done].
  destruct w as [k b| |]; simpl; try done. unfold F64.update_row.
  destruct (Z.eqb_spec (F64.LedgerEntry.id e) k); [congruence|done].
Qed.

Lemma F64_row_after_app ws1 ws2 e :
  F64.row_after (ws1 ++ ws2) e = F64.row_after ws2 (F64.row_after ws1 e).
Proof. apply fold_left_app. Qed.

Lemma F64_row_after_id ws e :
  F64.LedgerEntry.id (F64.row_after ws e) = F64.LedgerEntry.id e.
Proof. by rewrite F64_row_after_set. Qed.

(** With distinct keys, the updates of the loop leave the rows settled. *)
Lemma F64_map_row_after r es :
  NoDup (map F64.LedgerEntry.id es) ->
  map (F64.row_after (F64.pending r es)) es = F64.settle_from r es.
Proof.
  revert r; induction es as [|e es IH]; intros r Hnd; [done|].
  apply NoDup_cons in Hnd as [Hnotin Hnd].
  cbn [map F64.pending F64.settle_from].
  set (r' := PrimFloat.add r (F64.signedAmount e)).
  assert (Hrest : forall x, F64.LedgerEntry.id x = F64.LedgerEntry.id e ->
            F64.row_after (F64.pending r' es) x = x).
  { intros x Hx. apply F64_row_after_other.
    eapply Forall_impl; [apply F64_pending_keyed|].
    intros [k b| |] Hw; simpl in *; try done. intros ->.
    apply Hnotin. by rewrite <- Hx. }
  f_equal.
  - rewrite F64_row_after_app.
    destruct (F64.strict_ne (F64.LedgerEntry.balanceAfter e) r').
    + rewrite Hrest.
      * unfold F64.row_after. simpl. unfold F64.update_row.
        by rewrite Z.eqb_refl.
      * unfold F64.row_after. simpl. unfold F64.update_row.
        by rewrite Z.eqb_refl.
    + by rewrite Hrest.
  - rewrite <- (IH r' Hnd). apply map_ext_in. intros x Hx.
    rewrite F64_row_after_app. f_equal.
    apply F64_row_after_other.
    destruct (F64.strict_ne (F64.LedgerEntry.balanceAfter e) r');
      [|constructor].
    constructor; [|constructor]. simpl. intros Heq. apply Hnotin.
    rewrite Heq. apply list_elem_of_fmap. exists x. split; [done|].
    by apply list_elem_of_In.
Qed.

Lemma F64_settle_signed r es :
  map F64.signedAmount (F64.settle_from r es) = map F64.signedAmount es.
Proof.
  revert r; induction es as [|e es IH]; intros r; simpl; [done|].
  rewrite IH. f_equal. by destruct (F64.strict_ne _ _).
Qed.

Lemma F64_settle_ids r es :
  map F64.LedgerEntry.id (F64.settle_from r es) = map F64.LedgerEntry.id es.
Proof.
  revert r; induction es as [|e es IH]; intros r; simpl; [done|].
  rewrite IH. f_equal. by destruct (F64.strict_ne _ _).
Qed.

Lemma F64_final_settle r es :
  F64.final r (F64.settle_from r es) = F64.final r es.
Proof.
  unfold F64.final. revert r; induction es as [|e es IH]; intros r; simpl;
    [done|].
  assert (F64.signedAmount
            (if F64.strict_ne (F64.LedgerEntry.balanceAfter e)
                  (PrimFloat.add r (F64.signedAmount e))
             then F64.set_balanceAfter (PrimFloat.add r (F64.signedAmount e)) e
             else e) = F64.signedAmount e) as ->
    by (by destruct (F64.strict_ne _ _)).
  apply IH.
Qed.

(** A pass over settled rows issues no update, unless a running balance is
    NaN. *)
Lemma F64_pending_settle r es :
  F64.not_nan (F64.running_from r es) = true ->
  F64.pending r (F64.settle_from r es) = [].
Proof.
  revert r; induction es as [|e es IH]; intros r; simpl; [done|].
  intros [Hr Hes]%andb_prop.
  set (r' := PrimFloat.add r (F64.signedAmount e)) in *.
  assert (Hs : F64.signedAmount
            (if F64.strict_ne (F64.LedgerEntry.balanceAfter e) r'
             then F64.set_balanceAfter r' e else e) = F64.signedAmount e)
    by (by destruct (F64.strict_ne _ _)).
  rewrite Hs. fold r'. rewrite (IH r' Hes), app_nil_r.
  destruct (F64.strict_ne (F64.LedgerEntry.balanceAfter e) r') eqn:E.
  - simpl. unfold F64.strict_ne. unfold PrimFloat.is_nan in Hr.
    apply negb_true_iff in Hr. by rewrite Hr.
  - by rewrite E.
Qed.

Lemma F64_final_not_nan r es :
  PrimFloat.eqb r r = true ->
  F64.not_nan (F64.running_from r es) = true ->
  PrimFloat.eqb (F64.final r es) (F64.final r es) = true.
Proof.
  unfold F64.final. revert r; induction es as [|e es IH]; intros r Hr; simpl;
    [done|].
  intros [Hr' Hes]%andb_prop. apply IH; [|done].
  unfold PrimFloat.is_nan in Hr'. by apply negb_true_iff, negb_false_iff in Hr'.
Qed.

Lemma F64_where_map f p rows :
  (forall e, F64.LedgerEntry.partyId (f e) = F64.LedgerEntry.partyId e) ->
  F64.where_partyId p (map f rows) = map f (F64.where_partyId p rows).
Proof.
  intros Hf. unfold F64.where_partyId.
  induction rows as [|e rows IH]; simpl; [done|].
  rewrite Hf, IH. by destruct (F64.LedgerEntry.partyId e =? p).
Qed.

Lemma F64_chronological_map f fs fs' p :
  (forall e, f e = F64.set_balanceAfter (F64.LedgerEntry.balanceAfter (f e)) e) ->
  F64.entries fs' = map f (F64.entries fs) ->
  F64.chronological fs' p = map f (F64.chronological fs p).
Proof.
  intros Hf Hrows. unfold F64.chronological, F64.sortBy_date. rewrite Hrows.
  rewrite F64_where_map by (intros e; by rewrite Hf).
  rewrite (sort_map F64.sorter_date F64.sorter_date f)
    by (intros a b; by rewrite (Hf a), (Hf b)).
  apply sort_map. intros a b. by rewrite (Hf a), (Hf b).
Qed.

Lemma F64_NoDup_chronological fs p :
  NoDup (map F64.LedgerEntry.id (F64.entries fs)) ->
  NoDup (map F64.LedgerEntry.id (F64.chronological fs p)).
Proof.
  intros H. change (NoDup (F64.LedgerEntry.id <$> F64.chronological fs p)).
  rewrite F64_chronological_perm.
  by apply (NoDup_map_bfilter F64.LedgerEntry.id).
Qed.

Lemma F64_recalc_body_spec p now fs :
  F64.recalc_body p now fs
  = Ok (F64.pending PrimFloat.zero (F64.chronological fs p)
        ++ F64.party_writes fs p now).
Proof.
  unfold F64.recalc_body, F64.party_writes.
  by rewrite F64_recalc_loop_spec.
Qed.

Lemma F64_pending_updates r es :
  Forall F64.is_entry_update (F64.pending r es).
Proof.
  eapply Forall_impl; [apply F64_pending_keyed|]. apply F64_keyed_update.
Qed.

Lemma F64_party_writes_entries fs p now fs0 :
  F64.entries (F64.apply_writes (F64.party_writes fs p now) fs0)
  = F64.entries fs0.
Proof. unfold F64.party_writes. by repeat case_match. Qed.

Lemma F64_apply_writes_app ws1 ws2 fs :
  F64.apply_writes (ws1 ++ ws2) fs
  = F64.apply_writes ws2 (F64.apply_writes ws1 fs).
Proof. apply fold_left_app. Qed.

Lemma F64_recalc_entries p now fs :
  F64.entries (F64.recalculateBalancesForParty p now fs).1
  = map (F64.row_after (F64.pending PrimFloat.zero (F64.chronological fs p)))
      (F64.entries fs).
Proof.
  unfold F64.recalculateBalancesForParty, F64.transaction.
  rewrite F64_recalc_body_spec. cbn [fst].
  rewrite F64_apply_writes_app, F64_party_writes_entries.
  by rewrite F64_apply_entry_updates by apply F64_pending_updates.
Qed.

Lemma F64_recalc_parties p now fs :
  F64.parties (F64.recalculateBalancesForParty p now fs).1
  = F64.parties (F64.apply_writes (F64.party_writes fs p now) fs).
Proof.
  unfold F64.recalculateBalancesForParty, F64.transaction.
  rewrite F64_recalc_body_spec. cbn [fst].
  rewrite F64_apply_writes_app.
  rewrite (F64_apply_entry_updates
             (F64.pending PrimFloat.zero (F64.chronological fs p)))
    by apply F64_pending_updates.
  unfold F64.party_writes. by repeat case_match.
Qed.

Lemma F64_recalc_chronological p now fs :
  NoDup (map F64.LedgerEntry.id (F64.entries fs)) ->
  F64.chronological (F64.recalculateBalancesForParty p now fs).1 p
  = F64.settle_from PrimFloat.zero (F64.chronological fs p).
Proof.
  intros Hnd.
  rewrite (F64_chronological_map
             (F64.row_after (F64.pending PrimFloat.zero (F64.chronological fs p)))
             fs);
    [|apply F64_row_after_set|apply F64_recalc_entries].
  apply F64_map_row_after. by apply F64_NoDup_chronological.
Qed.

Lemma F64_settle_length r es : length (F64.settle_from r es) = length es.
Proof.
  revert r; induction es as [|e es IH]; intros r; simpl; [done|].
  by rewrite IH.
Qed.

Lemma F64_party_writes_after p now1 now2 fs :
  NoDup (map F64.LedgerEntry.id (F64.entries fs)) ->
  F64.not_nan (F64.running_balances (F64.chronological fs p)) = true ->
  F64.party_writes (F64.recalculateBalancesForParty p now1 fs).1 p now2
  = match F64.parties fs !! p, F64.chronological fs p with
    | Some _, [] => [F64.PartyUpdate p PrimFloat.zero now2]
    | _, _ => []
    end.
Proof.
  intros Hnd Hnan. unfold F64.party_writes at 1.
  rewrite F64_recalc_chronological by done.
  rewrite F64_final_settle, F64_settle_length.
  destruct (F64.parties fs !! p) as [party|] eqn:Hp.
  - destruct (F64_recalc_party_balance p now1 fs party Hp)
      as (party' & Hp' & Hbal).
    rewrite Hp'. rewrite F64_recalc_loop_spec in Hbal. cbn [fst] in Hbal.
    assert (Hne : F64.strict_ne (F64.Party.balance party')
                    (F64.final PrimFloat.zero (F64.chronological fs p)) = false).
    { unfold F64.strict_ne. apply negb_false_iff.
      destruct Hbal as [-> | H]; [|done].
      by apply F64_final_not_nan. }
    rewrite Hne. by destruct (F64.chronological fs p).
  - rewrite F64_recalc_parties. unfold F64.party_writes. rewrite Hp.
    simpl. by rewrite Hp.
Qed.

(** * The claims of the specification *)



(** In the exact model the loop follows the recurrence from 0, and the party
    row after the pass holds the sum of the credit amounts minus the sum of
    the debit amounts. *)
Lemma recurrence_exact st p now party :
  parties st !! p = Some party ->
  let es := chronological st p in
  (recalc_loop (take 0 es)).1 = 0
  /\ (forall (i : nat) e, es !! i = Some e ->
        (recalc_loop (take (S i) es)).1
        = (recalc_loop (take i es)).1 + signedAmount e)
  /\ (recalc_loop es).1
     = credits (where_partyId p (entries st))
       - debits (where_partyId p (entries st))
  /\ exists party',
       parties (recalculateBalancesForParty p now st).1 !! p = Some party'
       /\ Party.balance party' = (recalc_loop es).1.
Proof.
  intros Hp es. subst es. split; [done|]. split; [|split].
  - intros i e He. rewrite !recalc_loop_spec; simpl.
    rewrite (take_S_r _ _ _ He), signed_sum_app.
    unfold signed_sum at 2; simpl. lia.
  - rewrite recalc_loop_spec; simpl.
    rewrite (signed_sum_perm _ _ (chronological_perm st p)).
    apply signed_sum_credits_debits.
  - destruct (recalc_party_balance p now st party Hp) as (party' & H1 & H2).
    exists party'. split; [done|]. by rewrite recalc_loop_spec.
Qed.

(** C2 as stated fails: the running balance is a binary64 sum taken in
    chronological order, which is not the sum of the credits minus the sum
    of the debits.  With a credit of 0.1, a debit of 0.3 and a credit of 0.2
    the party is left with 2^-55 where the sums, added in binary64, differ by
    2^-54; with a credit of 2^53, a credit of 1 and a debit of 2^53 the party
    is left with 0 where the credits exceed the debits by 1. *)
Lemma C2_counterexample :
  (exists party',
     F64.parties (F64.recalculateBalancesForParty 1 40 fst_tenths).1 !! 1
     = Some party'
     /\ PrimFloat.eqb (F64.Party.balance party')
          (PrimFloat.sub (F64.credits (F64.entries fst_tenths))
                         (F64.debits (F64.entries fst_tenths))) = false)
  /\ (exists party',
        F64.parties
          (F64.recalculateBalancesForParty 1 40 (store_f64 st_large)).1 !! 1
        = Some party'
        /\ F64.Party.balance party' = num_of_Z 0
        /\ credits (entries st_large) - debits (entries st_large) = 1
        /\ PrimFloat.eqb (num_of_Z 0) (num_of_Z 1) = false).
Proof.
  split.
  - eexists. split; [vm_compute; reflexivity|]. vm_compute. reflexivity.
  - eexists. split; [vm_compute; reflexivity|].
    split; [vm_compute; reflexivity|]. split; vm_compute; reflexivity.
Qed.

(** C2, amended: the pass iterates over the entries of the party in the
    order of (date, createdAt); its running balance starts at 0 and grows,
    entry by entry, by the binary64 sum with the signed amount; the party
    row after the pass holds the last running balance (written, or left
    because it compared equal).  When the amounts are whole numbers with a
    total below 2^53 and the stored balances are whole numbers below 2^53,
    every addition is exact and that balance is the sum of the credit
    amounts minus the sum of the debit amounts. *)
Theorem C2_running_balance_recurrence fs p now fparty :
  F64.parties fs !! p = Some fparty ->
  F64.chronological fs p ≡ₚ F64.where_partyId p (F64.entries fs)
  /\ ordered F64.compareEntries (F64.chronological fs p)
  /\ (F64.recalc_loop (take 0 (F64.chronological fs p))).1 = PrimFloat.zero
  /\ (forall (i : nat) e, F64.chronological fs p !! i = Some e ->
        (F64.recalc_loop (take (S i) (F64.chronological fs p))).1
        = PrimFloat.add (F64.recalc_loop (take i (F64.chronological fs p))).1
            (F64.signedAmount e))
  /\ (exists fparty',
        F64.parties (F64.recalculateBalancesForParty p now fs).1 !! p
        = Some fparty'
        /\ (F64.Party.balance fparty'
            = (F64.recalc_loop (F64.chronological fs p)).1
            \/ PrimFloat.eqb (F64.Party.balance fparty')
                 (F64.recalc_loop (F64.chronological fs p)).1 = true))
  /\ (forall st, fs = store_f64 st -> safe_ledger st p = true ->
        (F64.recalc_loop (F64.chronological fs p)).1
        = num_of_Z (credits (where_partyId p (entries st))
                    - debits (where_partyId p (entries st)))
        /\ F64.Party.balance <$>
             F64.parties (F64.recalculateBalancesForParty p now fs).1 !! p
           = Some (num_of_Z (credits (where_partyId p (entries st))
                             - debits (where_partyId p (entries st))))).
Proof.
  intros Hp. split; [apply F64_chronological_perm|].
  split; [apply F64_chronological_ordered|]. split; [done|].
  split; [|split; [by apply (F64_recalc_party_balance p now fs fparty)|]].
  - intros i e He. rewrite (take_S_r _ _ _ He). apply F64_recalc_loop_snoc.
  - intros st -> Hsafe.
    change (F64.parties (store_f64 st)) with (party_f64 <$> parties st) in Hp.
    rewrite lookup_fmap in Hp.
    destruct (parties st !! p) as [party|] eqn:Hparty; [|done].
    destruct (recurrence_exact st p now party Hparty)
      as (_ & _ & Hsum & party' & Hp' & Hbal).
    destruct (safe_ledger_chronological st p Hsafe) as [Hes Htot].
    split.
    + rewrite sim_chronological. unfold F64.recalc_loop.
      change (PrimFloat.zero, @nil F64.Write)
        with (num_of_Z 0, map write_f64 []).
      rewrite sim_recalc_fold by (done || simpl; lia).
      cbn [fst]. f_equal. exact Hsum.
    + rewrite sim_recalculate by done. cbn [fst].
      change (F64.parties (store_f64 ?s)) with (party_f64 <$> parties s).
      rewrite lookup_fmap, Hp'. simpl. by rewrite Hbal, Hsum.
Qed.

Lemma C2_running_balance_recurrence_witness :
  F64.parties (store_f64 st_AB) !! 1 = Some (party_f64 party_AB)
  /\ F64.Party.balance <$>
       F64.parties (F64.recalculateBalancesForParty 1 40 (store_f64 st_AB)).1
         !! 1
     = Some (num_of_Z (credits (where_partyId 1 (entries st_AB))
                       - debits (where_partyId 1 (entries st_AB)))).
Proof.
  assert (H : F64.parties (store_f64 st_AB) !! 1 = Some (party_f64 party_AB))
    by (vm_compute; reflexivity).
  split; [exact H|].
  refine (proj2 (proj2 (proj2 (proj2 (proj2 (proj2
            (C2_running_balance_recurrence (store_f64 st_AB) 1 40
               (party_f64 party_AB) H))))) st_AB eq_refl _)).
  vm_compute; reflexivity.
Defined.

(** C3, evaluated on a store with an entry of party 7 and no party 7: the
    recalculation reports no error and its entry update is committed, whereas
    the add-entry transaction on the same store aborts with its error. *)
Theorem C3_recalculate_missing_party_is_silent :
  parties st_orphan !! 7 = None
  /\ recalculateBalancesForParty 7 9 st_orphan
     = (mkStore ∅ [set_balanceAfter 50 entry_orphan] 2, None)
  /\ handleSubmit (Some partyP) 7 None 10 credit "y" 20240102 8 9 st_orphan
     = (st_orphan, Some "Party not found").
Proof. split; [|split]; vm_compute; reflexivity. Qed.



(** C5 as stated fails on a party without entries: the second pass issues a
    party write and changes the party row, in the exact model and over
    binary64 numbers alike. *)
Lemma C5_counterexample :
  store_ok st0
  /\ recalc_body 1 41 (recalculateBalancesForParty 1 40 st0).1
     = Ok [PartyUpdate 1 0 41]
  /\ parties (recalculateBalancesForParty 1 41
                (recalculateBalancesForParty 1 40 st0).1).1 !! 1
     <> parties (recalculateBalancesForParty 1 40 st0).1 !! 1
  /\ F64.recalc_body 1 41
       (F64.recalculateBalancesForParty 1 40 (store_f64 st0)).1
     = Ok [F64.PartyUpdate 1 PrimFloat.zero 41]
  /\ F64.Party.updatedAt <$>
       F64.parties (F64.recalculateBalancesForParty 1 41
                      (F64.recalculateBalancesForParty 1 40 (store_f64 st0)).1).1
         !! 1
     = Some 41
  /\ F64.Party.updatedAt <$>
       F64.parties (F64.recalculateBalancesForParty 1 40 (store_f64 st0)).1 !! 1
     = Some 40.
Proof.
  split; [vm_compute; reflexivity|]. split; [vm_compute; reflexivity|].
  split; [vm_compute; discriminate|].
  split; [vm_compute; reflexivity|]. split; vm_compute; reflexivity.
Qed.

(** In the exact model a second recalculation right after a first one
    issues no entry update; it issues a party write only when the party
    exists and has no entries. *)
Lemma recalculate_twice_exact st p now1 now2 :
  store_ok st ->
  map LedgerEntry.id (chronological (recalculateBalancesForParty p now1 st).1 p)
  = map LedgerEntry.id (chronological st p)
  /\ chronological
       (recalculateBalancesForParty p now2
          (recalculateBalancesForParty p now1 st).1).1 p
     = chronological (recalculateBalancesForParty p now1 st).1 p
  /\ entries (recalculateBalancesForParty p now2
                (recalculateBalancesForParty p now1 st).1).1
     = entries (recalculateBalancesForParty p now1 st).1
  /\ recalc_updates (recalculateBalancesForParty p now1 st).1 p = []
  /\ recalc_body p now2 (recalculateBalancesForParty p now1 st).1
     = Ok (match parties st !! p, chronological st p with
           | Some _, [] => [PartyUpdate p 0 now2]
           | _, _ => []
           end)
  /\ (chronological st p <> [] \/ parties st !! p = None ->
      recalculateBalancesForParty p now2 (recalculateBalancesForParty p now1 st).1
      = ((recalculateBalancesForParty p now1 st).1, None)).
Proof.
  intros Hok.
  set (st1 := (recalculateBalancesForParty p now1 st).1).
  assert (Hchr : chronological st1 p = settle (chronological st p))
    by (by apply recalc_chronological).
  assert (Hups : recalc_updates st1 p = []).
  { apply recalc_updates_settled. rewrite Hchr. apply settle_consistent. }
  assert (Hrows : entries (recalculateBalancesForParty p now2 st1).1
                  = entries st1).
  { rewrite recalc_entries, Hups. apply map_id. }
  assert (Hpw : recalc_party_writes st1 p now2
                = match parties st !! p, chronological st p with
                  | Some _, [] => [PartyUpdate p 0 now2]
                  | _, _ => []
                  end).
  { destruct (parties st !! p) as [party|] eqn:Hp.
    - destruct (recalc_party_balance p now1 st party Hp) as (party' & H1 & H2).
      fold st1 in H1.
      rewrite (recalc_party_writes_same st1 p now2 party' H1).
      + rewrite Hchr, length_eqb_nil. by destruct (chronological st p).
      + rewrite H2, Hchr. apply signed_sum_signed. unfold settle.
        by rewrite settle_from_signed.
    - apply recalc_party_writes_missing.
      unfold st1. rewrite recalc_parties.
      by rewrite (recalc_party_writes_missing st p now1 Hp). }
  assert (Hbody : recalc_body p now2 st1
                  = Ok (match parties st !! p, chronological st p with
                        | Some _, [] => [PartyUpdate p 0 now2]
                        | _, _ => []
                        end))
    by (by rewrite recalc_body_spec, Hups, Hpw).
  split; [|split; [|split; [done|split; [done|split; [done|]]]]].
  - rewrite Hchr. apply settle_from_ids.
  - by rewrite !chronological_eq, Hrows.
  - intros Hcase. unfold recalculateBalancesForParty at 1, transaction.
    rewrite Hbody.
    destruct Hcase as [Hne| ->]; [|done].
    destruct (parties st !! p), (chronological st p); done.
Qed.

(** C5, amended: provided the primary keys are distinct and no running
    balance of the pass is NaN, a second recalculation right after a first
    one iterates over the entries in the same order, issues no entry
    update and leaves every entry row as it is; it issues no party write
    either when the party has at least one entry or does not exist, and
    exactly one party write, of balance 0 with a fresh [updatedAt], when the
    party exists and has no entries. *)
Theorem C5_recalculate_twice fs fs1 p now1 now2 :
  NoDup (map F64.LedgerEntry.id (F64.entries fs)) ->
  F64.not_nan (F64.running_balances (F64.chronological fs p)) = true ->
  fs1 = (F64.recalculateBalancesForParty p now1 fs).1 ->
  map F64.LedgerEntry.id (F64.chronological fs1 p)
  = map F64.LedgerEntry.id (F64.chronological fs p)
  /\ F64.chronological (F64.recalculateBalancesForParty p now2 fs1).1 p
     = F64.chronological fs1 p
  /\ F64.entries (F64.recalculateBalancesForParty p now2 fs1).1
     = F64.entries fs1
  /\ F64.recalc_body p now2 fs1
     = Ok (match F64.parties fs !! p, F64.chronological fs p with
           | Some _, [] => [F64.PartyUpdate p PrimFloat.zero now2]
           | _, _ => []
           end)
  /\ (F64.chronological fs p <> [] \/ F64.parties fs !! p = None ->
      F64.recalculateBalancesForParty p now2 fs1 = (fs1, None)).
Proof.
  intros Hnd Hnan ->.
  set (fs1 := (F64.recalculateBalancesForParty p now1 fs).1).
  assert (Hchr : F64.chronological fs1 p
                 = F64.settle_from PrimFloat.zero (F64.chronological fs p))
    by (by apply F64_recalc_chronological).
  assert (Hups : F64.pending PrimFloat.zero (F64.chronological fs1 p) = []).
  { rewrite Hchr. by apply F64_pending_settle. }
  assert (Hrows : F64.entries (F64.recalculateBalancesForParty p now2 fs1).1
                  = F64.entries fs1).
  { rewrite F64_recalc_entries, Hups. apply map_id. }
  assert (Hbody : F64.recalc_body p now2 fs1
                  = Ok (match F64.parties fs !! p, F64.chronological fs p with
                        | Some _, [] => [F64.PartyUpdate p PrimFloat.zero now2]
                        | _, _ => []
                        end)).
  { rewrite F64_recalc_body_spec, Hups. unfold fs1.
    by rewrite F64_party_writes_after. }
  split; [by rewrite Hchr, F64_settle_ids|].
  split; [unfold F64.chronological; by rewrite Hrows|].
  split; [done|]. split; [done|].
  intros Hcase. unfold F64.recalculateBalancesForParty at 1, F64.transaction.
  rewrite Hbody. destruct Hcase as [Hne| ->]; [|done].
  destruct (F64.parties fs !! p), (F64.chronological fs p); done.
Qed.

Lemma C5_recalculate_twice_witness :
  NoDup (map F64.LedgerEntry.id (F64.entries fst_tenths))
  /\ F64.not_nan (F64.running_balances (F64.chronological fst_tenths 1)) = true
  /\ F64.recalc_body 1 41 (F64.recalculateBalancesForParty 1 40 fst_tenths).1
     = Ok [].
Proof.
  assert (H1 : NoDup (map F64.LedgerEntry.id (F64.entries fst_tenths)))
    by (refine (bool_decide_unpack _ _); vm_compute; exact I).
  assert (H2 : F64.not_nan
                 (F64.running_balances (F64.chronological fst_tenths 1)) = true)
    by (vm_compute; reflexivity).
  split; [assumption|]. split; [assumption|].
  pose proof (C5_recalculate_twice fst_tenths _ 1 40 41 H1 H2 eq_refl)
    as (_ & _ & _ & H & _).
  rewrite H. vm_compute. reflexivity.
Defined.

(** A credit and a debit of Infinity leave NaN, which never compares
    equal: every later pass writes the entry and the party again.  The
    guard of [handleSubmit] lets an amount of Infinity through. *)
Example recalculate_twice_not_a_number :
  F64.recalc_body 1 41 (F64.recalculateBalancesForParty 1 40 fst_infinite).1
  = Ok [F64.EntryUpdate 2 PrimFloat.nan; F64.PartyUpdate 1 PrimFloat.nan 41]
  /\ (F64.handleSubmit (Some partyP_f64) 1 None PrimFloat.infinity credit "a"
        20240101 10 11 (store_f64 st0)).2 = None
  /\ F64.entries (F64.handleSubmit (Some partyP_f64) 1 None PrimFloat.infinity
                    credit "a" 20240101 10 11 (store_f64 st0)).1
     = [F64.LedgerEntry.mk 1 1 credit PrimFloat.infinity 20240101 "a"
          PrimFloat.infinity 10].
Proof. split; [|split]; vm_compute; reflexivity. Qed.







(** C8: recalculating a party without entries leaves its balance at 0; in
    particular deleting the party's only entry through [deleteEntry] leaves
    the party without entries, with balance 0, and rewrites no other row. *)
Theorem C8_zero_entries_balance_zero st p now party :
  parties st !! p = Some party ->
  (chronological st p = [] ->
   exists party',
     parties (recalculateBalancesForParty p now st).1 !! p = Some party'
     /\ Party.balance party' = 0)
  /\ (forall e, where_partyId p (entries st) = [e] ->
      where_partyId p (entries (deleteEntry (LedgerEntry.id e) p now st).1) = []
      /\ entries (deleteEntry (LedgerEntry.id e) p now st).1
         = List.filter (fun x => negb (LedgerEntry.id x =? LedgerEntry.id e))
             (entries st)
      /\ exists party',
           parties (deleteEntry (LedgerEntry.id e) p now st).1 !! p = Some party'
           /\ Party.balance party' = 0).
Proof.
  intros Hp. split.
  - intros Hnil.
    destruct (recalc_party_balance p now st party Hp) as (party' & H1 & H2).
    exists party'. split; [done|]. by rewrite H2, Hnil.
  - intros e He.
    set (st' := (deleteEntry (LedgerEntry.id e) p now st).1).
    assert (Hw : where_partyId p (entries (entries_delete (LedgerEntry.id e) st))
                 = []).
    { unfold entries_delete, where_partyId in *; simpl.
      rewrite bfilter_comm, He; simpl. by rewrite Z.eqb_refl. }
    assert (Hc : chronological (entries_delete (LedgerEntry.id e) st) p = [])
      by (by rewrite chronological_eq, Hw).
    assert (Hrows : entries st' = entries (entries_delete (LedgerEntry.id e) st)).
    { unfold st', deleteEntry, handleConfirmDelete. rewrite recalc_entries.
      unfold recalc_updates. rewrite Hc. simpl. apply map_id. }
    repeat split.
    + by rewrite Hrows.
    + by rewrite Hrows.
    + destruct (recalc_party_balance p now
                  (entries_delete (LedgerEntry.id e) st) party Hp)
        as (party' & H1 & H2).
      exists party'. split; [done|]. by rewrite H2, Hc.
Qed.

Lemma C8_zero_entries_balance_zero_witness :
  parties st_A !! 1 = Some (Party.mk customer "P" "555" 1 11 100)
  /\ exists party',
       parties (deleteEntry 1 1 40 st_A).1 !! 1 = Some party'
       /\ Party.balance party' = 0.
Proof.
  split; [vm_compute; reflexivity|].
  refine (proj2 (proj2
            (proj2 (C8_zero_entries_balance_zero st_A 1 40
                      (Party.mk customer "P" "555" 1 11 100) _)
               (LedgerEntry.mk 1 1 credit 100 20240101 "A" 100 10) _)));
    vm_compute; reflexivity.
Defined.




(** C10: the update of an edit changes nothing but amount, direction, note
    and date of the edited row; the whole edit submitted through
    [handleSubmit], update and recalculation, leaves the key, the party and
    [createdAt] of every row as they are; hence, across any sequence of
    edits, two entries that share their date before and after keep their
    relative place in the chronological order, which is the one given by
    [createdAt]. *)
Theorem C10_edit_preserves_rank rs st p i j :
  Forall (fun r => edit_entryId r <> 0) rs ->
  share_date i j (entries st) ->
  share_date i j (entries (submit_edits rs st)) ->
  Forall2 same_identity (entries st) (entries (submit_edits rs st))
  /\ (forall k a d n dt st1,
        Forall2 (updated_from k)
          (entries st1) (entries (entries_update_fields k a d n dt st1)))
  /\ (forall r st1, edit_entryId r <> 0 ->
        Forall2 (edited_from (edit_entryId r))
          (entries st1) (entries (submit_edit r st1)))
  /\ relative_rank st p i j
     = map LedgerEntry.id
         (sort compare_createdAt
            (pair_rows i j (where_partyId p (entries st))))
  /\ relative_rank (submit_edits rs st) p i j = relative_rank st p i j.
Proof.
  intros Hrs Hsh Hsh'.
  pose proof (edits_rows_identity rs st Hrs) as Hid.
  split; [done|]. split.
  { intros k a d n dt st1. simpl. apply Forall2_map_r_rel. intros e.
    destruct (Z.eqb_spec (LedgerEntry.id e) k); by repeat split. }
  split; [intros r st1; apply edit_rows_edited|].
  unfold relative_rank. rewrite !pair_rows_chronological by done.
  split; [done|].
  apply same_identity_ids.
  apply (sort_related same_identity compare_createdAt).
  - intros a a' b b' (_ & _ & Ha) (_ & _ & Hb).
    unfold compare_createdAt. by rewrite Ha, Hb.
  - unfold pair_rows, where_partyId.
    apply Forall2_bfilter; [by intros a a' (-> & _)|].
    apply Forall2_bfilter; [by intros a a' (_ & -> & _)|done].
Qed.

Lemma C10_edit_preserves_rank_witness :
  Forall (fun r => edit_entryId r <> 0) [edit_A]
  /\ share_date 1 2 (entries st_same)
  /\ share_date 1 2 (entries (submit_edits [edit_A] st_same))
  /\ relative_rank (submit_edits [edit_A] st_same) 1 1 2
     = relative_rank st_same 1 1 2.
Proof.
  assert (H1 : Forall (fun r => edit_entryId r <> 0) [edit_A])
    by (repeat constructor; discriminate).
  assert (H2 : share_date 1 2 (entries st_same)) by (vm_compute; reflexivity).
  assert (H3 : share_date 1 2 (entries (submit_edits [edit_A] st_same)))
    by (vm_compute; reflexivity).
  repeat (split; [assumption|]).
  exact (proj2 (proj2 (proj2 (proj2
           (C10_edit_preserves_rank [edit_A] st_same 1 1 2 H1 H2 H3))))).
Defined.

(** * Further properties of the handlers *)

(** ** Rows of other parties *)

Lemma same_for_refl st q : same_for st st q.
Proof. by split. Qed.

Lemma same_for_trans st1 st2 st3 q :
  same_for st1 st2 q -> same_for st2 st3 q -> same_for st1 st3 q.
Proof. intros [H1 H2] [H3 H4]. split; congruence. Qed.

Lemma same_for_chronological st st' q :
  same_for st st' q -> chronological st' q = chronological st q.
Proof. intros [H _]. by rewrite !chronological_eq, H. Qed.

Lemma same_for_invariant st st' q :
  same_for st st' q -> ledger_invariant st q -> ledger_invariant st' q.
Proof.
  intros Hs [H1 (party & H2 & H3)].
  pose proof (same_for_chronological _ _ _ Hs) as Hc.
  destruct Hs as [_ Hp]. split.
  - by rewrite Hc.
  - exists party. by rewrite Hp, Hc.
Qed.

Lemma rows_unique (rows : list Entry) e e' :
  NoDup (map LedgerEntry.id rows) -> e ∈ rows -> e' ∈ rows ->
  LedgerEntry.id e = LedgerEntry.id e' -> e = e'.
Proof.
  intros Hnd (i & Hi)%list_elem_of_lookup (j & Hj)%list_elem_of_lookup Heq.
  assert (i = j) as -> by (by eapply NoDup_ids_lookup).
  congruence.
Qed.

Lemma where_partyId_map_other f q rows :
  (forall e, LedgerEntry.partyId (f e) = LedgerEntry.partyId e) ->
  (forall e, e ∈ rows -> LedgerEntry.partyId e = q -> f e = e) ->
  where_partyId q (map f rows) = where_partyId q rows.
Proof.
  intros Hp Hf. unfold where_partyId.
  induction rows as [|e rows IH]; simpl; [done|].
  rewrite Hp, IH by (intros; apply Hf; [by apply list_elem_of_further|done]).
  destruct (Z.eqb_spec (LedgerEntry.partyId e) q); [|done].
  by rewrite Hf by (done || apply list_elem_of_here).
Qed.

(** The updates of a recalculation are keyed by entries of its party. *)
Lemma recalc_row_other st p e :
  store_ok st -> e ∈ entries st -> LedgerEntry.partyId e <> p ->
  row_after (recalc_updates st p) e = e.
Proof.
  intros Hok He Hp. apply row_after_other, Forall_forall.
  intros e0 [He0 Hp0]%chronological_rows _ Heq.
  apply Hp. rewrite <- Hp0. f_equal.
  symmetry. by eapply rows_unique; [apply store_ok_NoDup| | |].
Qed.

Lemma add_row_other st p c e :
  store_ok st -> LedgerEntry.id c = 0 ->
  e ∈ entries st -> LedgerEntry.partyId e <> p ->
  row_after (add_updates st p c) e = e.
Proof.
  intros Hok Hc He Hp. apply row_after_other, Forall_forall.
  intros e0 He0 Hk Heq. rewrite allEntries_split in He0.
  assert (He0' : e0 ∈ chronological st p).
  { rewrite (chronological_split st p c).
    apply elem_of_app in He0 as [?|He0]; [by apply elem_of_app; left|].
    apply elem_of_cons in He0 as [->|?]; [|by apply elem_of_app; right].
    unfold persisted in Hk. by rewrite Hc in Hk. }
  apply chronological_rows in He0' as [He0' Hp0].
  apply Hp. rewrite <- Hp0. f_equal.
  symmetry. by eapply rows_unique; [apply store_ok_NoDup| | |].
Qed.

Lemma recalc_same_for p q now st :
  store_ok st -> q <> p -> same_for st (recalculateBalancesForParty p now st).1 q.
Proof.
  intros Hok Hq. split.
  - rewrite recalc_entries. apply where_partyId_map_other.
    + intros e. apply row_after_keys.
    + intros e He Hpe. apply recalc_row_other; [done|done|congruence].
  - rewrite recalc_parties. unfold recalc_party_writes.
    repeat case_match; simpl; try done; by rewrite lookup_alter_ne.
Qed.

Lemma where_partyId_snoc_other q rows c :
  LedgerEntry.partyId c <> q ->
  where_partyId q (rows ++ [c]) = where_partyId q rows.
Proof.
  intros Hc. unfold where_partyId. rewrite List.filter_app; simpl.
  destruct (Z.eqb_spec (LedgerEntry.partyId c) q); [done|]. apply app_nil_r.
Qed.

Lemma add_same_for p q a d n dt t1 t2 st :
  store_ok st -> q <> p ->
  same_for st (transaction (add_body p a d n dt t1 t2) st).1 q.
Proof.
  intros Hok Hq.
  destruct (parties st !! p) as [party|] eqn:Hp.
  - destruct (add_entries p a d n dt t1 t2 st party Hp) as (Hrows & _ & Hps).
    split.
    + rewrite Hrows, add_newEntry_balance by done.
      rewrite where_partyId_snoc_other by (simpl; congruence).
      apply where_partyId_map_other.
      * intros e. apply row_after_keys.
      * intros e He Hpe. apply add_row_other; [done|done|done|congruence].
    + rewrite Hps. by rewrite lookup_alter_ne.
  - unfold transaction, add_body. rewrite Hp. apply same_for_refl.
Qed.

Lemma entry_of_spec st k p e :
  entry_of st k p -> e ∈ entries st -> LedgerEntry.id e = k ->
  LedgerEntry.partyId e = p.
Proof.
  unfold entry_of. rewrite forallb_forall. intros H He Hk.
  apply list_elem_of_In, H in He. rewrite Hk, Z.eqb_refl in He.
  by apply Z.eqb_eq in He.
Qed.

Lemma entries_delete_same_for k p q st :
  entry_of st k p -> q <> p -> same_for st (entries_delete k st) q.
Proof.
  intros Hk Hq. split; [|done]. simpl. unfold where_partyId.
  rewrite bfilter_comm. apply forallb_filter_id, forallb_forall.
  intros e [He Hpe]%filter_In. apply Z.eqb_eq in Hpe.
  destruct (Z.eqb_spec (LedgerEntry.id e) k) as [Hid|]; [|done].
  apply list_elem_of_In in He.
  pose proof (entry_of_spec st k p e Hk He Hid). congruence.
Qed.

Lemma entries_update_fields_same_for k p q a d n dt st :
  entry_of st k p -> q <> p ->
  same_for st (entries_update_fields k a d n dt st) q.
Proof.
  intros Hk Hq. split; [|done]. simpl.
  apply where_partyId_map_other.
  - intros e. by destruct (LedgerEntry.id e =? k).
  - intros e He Hpe.
    destruct (Z.eqb_spec (LedgerEntry.id e) k) as [Hid|]; [|done].
    pose proof (entry_of_spec st k p e Hk He Hid). congruence.
Qed.

Lemma delete_party_same_for p q st : q <> p -> same_for st (delete_party p st) q.
Proof.
  intros Hq. split; simpl.
  - unfold where_partyId. rewrite bfilter_comm.
    apply forallb_filter_id, forallb_forall.
    intros e [_ Hpe]%filter_In. apply Z.eqb_eq in Hpe.
    destruct (Z.eqb_spec (LedgerEntry.partyId e) p); [congruence|done].
  - by rewrite lookup_delete_ne.
Qed.

Lemma handleSubmit_same_for view p q k a d n dt t1 t2 st :
  store_ok st -> q <> p ->
  match k with Some entryId => entry_of st entryId p | None => True end ->
  same_for st (handleSubmit view p k a d n dt t1 t2 st).1 q.
Proof.
  intros Hok Hq Hk. unfold handleSubmit.
  destruct ((a <=? 0) || negb (bool_decide (is_Some view)));
    [apply same_for_refl|].
  destruct k as [entryId|]; [|by apply add_same_for].
  destruct (entryId =? 0); [by apply add_same_for|].
  eapply same_for_trans; [by eapply entries_update_fields_same_for|].
  apply recalc_same_for; [by apply entries_update_fields_ok|done].
Qed.

Lemma deleteEntry_same_for k p q now st :
  store_ok st -> q <> p -> entry_of st k p ->
  same_for st (deleteEntry k p now st).1 q.
Proof.
  intros Hok Hq Hk. unfold deleteEntry, handleConfirmDelete.
  eapply same_for_trans; [by eapply entries_delete_same_for|].
  apply recalc_same_for; [by apply entries_delete_ok|done].
Qed.

(** ** Keys *)

Lemma keys_increasing_snoc lo rows x :
  keys_increasing lo rows = true ->
  Forall (fun e => LedgerEntry.id e < LedgerEntry.id x) rows ->
  lo < LedgerEntry.id x ->
  keys_increasing lo (rows ++ [x]) = true.
Proof.
  revert lo; induction rows as [|e rows IH]; intros lo H Hall Hlo; simpl in *.
  - apply andb_true_intro. split; [by apply Z.ltb_lt|done].
  - apply andb_prop in H as [H1 H2]. apply Forall_cons in Hall as [He Hall].
    rewrite H1; simpl. by apply IH.
Qed.

Lemma add_keys_ok p a d n dt t1 t2 st :
  keys_ok st -> keys_ok (transaction (add_body p a d n dt t1 t2) st).1.
Proof.
  intros [Hok Hpos].
  destruct (parties st !! p) as [party|] eqn:Hp.
  2:{ unfold transaction, add_body. by rewrite Hp. }
  destruct (add_entries p a d n dt t1 t2 st party Hp) as (Hrows & Hnext & _).
  rewrite add_newEntry_balance in Hrows by done.
  pose proof (store_ok_bounds st Hok) as Hb.
  pose proof Hok as [H1 H2]%andb_prop.
  split; [|lia]. unfold store_ok, store_okb. rewrite Hrows, Hnext.
  apply andb_true_intro. split.
  - apply keys_increasing_snoc; simpl; [|  |done].
    + by rewrite keys_increasing_map by apply row_after_id.
    + apply List.Forall_map. eapply Forall_impl; [exact Hb|].
      intros e He. rewrite row_after_id. simpl in *. lia.
  - apply forallb_forall. intros e [He|He]%in_app_iff.
    + apply in_map_iff in He as (e0 & <- & He0). rewrite row_after_id.
      rewrite Forall_forall in Hb. apply list_elem_of_In, Hb in He0.
      apply Z.ltb_lt. lia.
    + destruct He as [<-|[]]. simpl. apply Z.ltb_lt. lia.
Qed.

Lemma recalc_keys_ok p now st :
  keys_ok st -> keys_ok (recalculateBalancesForParty p now st).1.
Proof.
  intros [Hok Hpos]. split; [by apply recalc_store_ok|].
  by rewrite recalc_nextEntryId.
Qed.

Lemma handleSubmit_keys_ok view p k a d n dt t1 t2 st :
  keys_ok st -> keys_ok (handleSubmit view p k a d n dt t1 t2 st).1.
Proof.
  intros Hok. unfold handleSubmit.
  destruct ((a <=? 0) || negb (bool_decide (is_Some view))); [done|].
  destruct k as [entryId|]; [|by apply add_keys_ok].
  destruct (entryId =? 0); [by apply add_keys_ok|].
  apply recalc_keys_ok. destruct Hok as [Hok Hpos].
  split; [by apply entries_update_fields_ok|done].
Qed.

Lemma delete_party_ok p st : store_ok st -> store_ok (delete_party p st).
Proof.
  unfold store_ok, store_okb; simpl. intros [H1 H2]%andb_prop.
  rewrite keys_increasing_bfilter by done. simpl.
  rewrite forallb_forall in *. intros e [He _]%filter_In. by apply H2.
Qed.

Lemma handleConfirmDelete_keys_ok c now st :
  keys_ok st -> keys_ok (handleConfirmDelete c now st).1.
Proof.
  intros [Hok Hpos]. destruct c as [[p|k p]|]; simpl.
  - split; [by apply delete_party_ok|done].
  - apply recalc_keys_ok. split; [by apply entries_delete_ok|done].
  - done.
Qed.

Lemma partySubmit_store name phone type k t1 t2 d :
  entries (store (AddEditPartyPage.handleSubmit name phone type k t1 t2 d))
  = entries (store d)
  /\ nextEntryId (store (AddEditPartyPage.handleSubmit name phone type k t1 t2 d))
     = nextEntryId (store d).
Proof.
  unfold AddEditPartyPage.handleSubmit.
  destruct (is_empty name || is_empty phone); [done|].
  destruct k as [k|]; [destruct (k =? 0)|]; done.
Qed.

Lemma store_ok_entries st st' :
  entries st' = entries st -> nextEntryId st' = nextEntryId st ->
  store_ok st -> store_ok st'.
Proof. unfold store_ok, store_okb. by intros -> ->. Qed.

Lemma step_keys_ok a d : keys_ok (store d) -> keys_ok (store (step a d)).
Proof.
  intros Hok. destruct a; simpl.
  - by apply handleSubmit_keys_ok.
  - by apply handleConfirmDelete_keys_ok.
  - destruct (partySubmit_store name phone type partyId nowUpdated nowCreated d)
      as [H1 H2].
    destruct Hok as [Hok Hpos]. split; [by eapply store_ok_entries|].
    by rewrite H2.
Qed.

(** ** The parties a handler leaves *)

Lemma recalc_parties_is_Some p now st k :
  is_Some (parties (recalculateBalancesForParty p now st).1 !! k)
  <-> is_Some (parties st !! k).
Proof.
  rewrite recalc_parties. unfold recalc_party_writes.
  repeat case_match; simpl; try done; apply lookup_alter_is_Some.
Qed.

Lemma add_parties_is_Some p a d n dt t1 t2 st k :
  is_Some (parties (transaction (add_body p a d n dt t1 t2) st).1 !! k)
  <-> is_Some (parties st !! k).
Proof.
  destruct (parties st !! p) as [party|] eqn:Hp.
  - destruct (add_entries p a d n dt t1 t2 st party Hp) as (_ & _ & ->).
    apply lookup_alter_is_Some.
  - unfold transaction, add_body. by rewrite Hp.
Qed.

Lemma handleSubmit_parties_is_Some view p e a d n dt t1 t2 st k :
  is_Some (parties (handleSubmit view p e a d n dt t1 t2 st).1 !! k)
  <-> is_Some (parties st !! k).
Proof.
  unfold handleSubmit.
  destruct ((a <=? 0) || negb (bool_decide (is_Some view))); [done|].
  destruct e as [entryId|]; [|apply add_parties_is_Some].
  destruct (entryId =? 0); [apply add_parties_is_Some|].
  by rewrite recalc_parties_is_Some.
Qed.

(** ** Referential integrity *)

Lemma no_orphans_intro st st' :
  (forall e', e' ∈ entries st' ->
     (exists e, e ∈ entries st /\ LedgerEntry.partyId e' = LedgerEntry.partyId e)
     \/ is_Some (parties st' !! LedgerEntry.partyId e')) ->
  (forall k, is_Some (parties st !! k) -> is_Some (parties st' !! k)) ->
  no_orphans st -> no_orphans st'.
Proof.
  unfold no_orphans. rewrite !Forall_forall. intros Hrows Hdom H e' He'.
  destruct (Hrows e' He') as [(e & He & ->)|]; [|done]. by apply Hdom, H.
Qed.

Lemma recalc_no_orphans p now st :
  no_orphans st -> no_orphans (recalculateBalancesForParty p now st).1.
Proof.
  apply no_orphans_intro.
  - intros e'. rewrite recalc_entries.
    intros (e & -> & He)%list_elem_of_fmap. left. exists e. split; [done|].
    apply row_after_keys.
  - intros k. by rewrite recalc_parties_is_Some.
Qed.

Lemma add_no_orphans p a d n dt t1 t2 st :
  keys_ok st -> no_orphans st ->
  no_orphans (transaction (add_body p a d n dt t1 t2) st).1.
Proof.
  intros [Hok _].
  destruct (parties st !! p) as [party|] eqn:Hp.
  2:{ unfold transaction, add_body. by rewrite Hp. }
  destruct (add_entries p a d n dt t1 t2 st party Hp) as (Hrows & _ & Hps).
  rewrite add_newEntry_balance in Hrows by done.
  apply no_orphans_intro.
  - intros e'. rewrite Hrows.
    intros [(e & -> & He)%list_elem_of_fmap| ->%list_elem_of_singleton]%elem_of_app.
    + left. exists e. split; [done|]. apply row_after_keys.
    + right. simpl. rewrite Hps, lookup_alter_eq, Hp. by eexists.
  - intros k. by rewrite add_parties_is_Some.
Qed.

Lemma entries_update_fields_no_orphans k a d n dt st :
  no_orphans st -> no_orphans (entries_update_fields k a d n dt st).
Proof.
  apply no_orphans_intro; [|done].
  intros e' (e & -> & He)%list_elem_of_fmap. left. exists e. split; [done|].
  by destruct (LedgerEntry.id e =? k).
Qed.

Lemma handleSubmit_no_orphans view p k a d n dt t1 t2 st :
  keys_ok st -> no_orphans st ->
  no_orphans (handleSubmit view p k a d n dt t1 t2 st).1.
Proof.
  intros Hok Hno. unfold handleSubmit.
  destruct ((a <=? 0) || negb (bool_decide (is_Some view))); [done|].
  destruct k as [entryId|]; [|by apply add_no_orphans].
  destruct (entryId =? 0); [by apply add_no_orphans|].
  by apply recalc_no_orphans, entries_update_fields_no_orphans.
Qed.

Lemma entries_delete_no_orphans k st :
  no_orphans st -> no_orphans (entries_delete k st).
Proof.
  apply no_orphans_intro; [|done].
  intros e' [He _]%list_elem_of_In%filter_In. left. exists e'.
  by split; [apply list_elem_of_In|].
Qed.

Lemma delete_party_no_orphans p st :
  no_orphans st -> no_orphans (delete_party p st).
Proof.
  unfold no_orphans. rewrite !Forall_forall. simpl.
  intros H e [He Hp]%list_elem_of_In%filter_In.
  destruct (Z.eqb_spec (LedgerEntry.partyId e) p); [done|].
  rewrite lookup_delete_ne by done. by apply H, list_elem_of_In.
Qed.

Lemma handleConfirmDelete_no_orphans c now st :
  no_orphans st -> no_orphans (handleConfirmDelete c now st).1.
Proof.
  intros Hno. destruct c as [[p|k p]|]; simpl; [|
    by apply recalc_no_orphans, entries_delete_no_orphans|done].
  by apply delete_party_no_orphans.
Qed.

Lemma partySubmit_parties_is_Some name phone type k t1 t2 d q :
  is_Some (parties (store d) !! q) ->
  is_Some (parties (store (AddEditPartyPage.handleSubmit name phone type k t1 t2 d))
           !! q).
Proof.
  intros Hq. unfold AddEditPartyPage.handleSubmit.
  destruct (is_empty name || is_empty phone); [done|].
  assert (Hadd : is_Some (parties (store (parties_add type name phone t1 t2 d))
                          !! q)).
  { simpl. destruct (decide (nextPartyId d = q)) as [->|];
      [rewrite lookup_insert_eq; by eexists|by rewrite lookup_insert_ne]. }
  destruct k as [k|]; [destruct (k =? 0)|]; try done.
  simpl. by apply lookup_alter_is_Some.
Qed.

Lemma step_no_orphans a d :
  keys_ok (store d) -> no_orphans (store d) -> no_orphans (store (step a d)).
Proof.
  intros Hok Hno. destruct a; simpl.
  - by apply handleSubmit_no_orphans.
  - by apply handleConfirmDelete_no_orphans.
  - destruct (partySubmit_store name phone type partyId nowUpdated nowCreated d)
      as [H1 _].
    unfold no_orphans in *. rewrite H1.
    eapply Forall_impl; [exact Hno|]. intros e He.
    by apply partySubmit_parties_is_Some.
Qed.

(** ** The ledger invariant of every party *)

Lemma handleSubmit_all_consistent view p k a d n dt t1 t2 st :
  store_ok st ->
  match k with Some entryId => entry_of st entryId p | None => True end ->
  all_consistent st ->
  all_consistent (handleSubmit view p k a d n dt t1 t2 st).1.
Proof.
  intros Hok Hk Hall q Hq.
  pose proof Hq as Hq'. apply handleSubmit_parties_is_Some in Hq'.
  destruct (decide (q = p)) as [->|Hne].
  2:{ eapply same_for_invariant; [by apply handleSubmit_same_for|by apply Hall]. }
  destruct Hq' as [party Hp]. unfold handleSubmit.
  destruct ((a <=? 0) || negb (bool_decide (is_Some view))) eqn:Hg;
    [by apply Hall; eexists|].
  destruct k as [entryId|]; [|by eapply add_invariant].
  destruct (entryId =? 0); [by eapply add_invariant|].
  eapply recalc_invariant; [by apply entries_update_fields_ok|done].
Qed.

Lemma delete_party_lookup p st : parties (delete_party p st) !! p = None.
Proof. simpl. apply lookup_delete_eq. Qed.

Lemma handleConfirmDelete_all_consistent c now st :
  store_ok st ->
  match c with
  | Some (ConfirmEntry entryId partyId) => entry_of st entryId partyId
  | _ => True
  end ->
  all_consistent st -> all_consistent (handleConfirmDelete c now st).1.
Proof.
  intros Hok Hc Hall q Hq. destruct c as [[p|k p]|]; simpl in *.
  - destruct (decide (q = p)) as [->|Hne].
    + rewrite lookup_delete_eq in Hq. by destruct Hq.
    + eapply same_for_invariant; [by apply delete_party_same_for|].
      apply Hall. by rewrite lookup_delete_ne in Hq.
  - pose proof Hq as Hq'. apply recalc_parties_is_Some in Hq'. simpl in Hq'.
    destruct (decide (q = p)) as [->|Hne].
    + destruct Hq' as [party Hp].
      eapply recalc_invariant; [by apply entries_delete_ok|done].
    + eapply same_for_invariant; [|by apply Hall].
      by apply (deleteEntry_same_for k p q now st).
  - by apply Hall.
Qed.

Lemma party_lookup_invariant st st' q party party' :
  entries st' = entries st ->
  parties st !! q = Some party -> parties st' !! q = Some party' ->
  Party.balance party' = Party.balance party ->
  ledger_invariant st q -> ledger_invariant st' q.
Proof.
  intros Hrows Hp Hp' Hbal [H1 (party0 & H2 & H3)].
  assert (Hc : chronological st' q = chronological st q)
    by (by rewrite !chronological_eq, Hrows).
  rewrite Hp in H2. injection H2 as <-. split.
  - by rewrite Hc.
  - exists party'. rewrite Hc. split; [done|]. congruence.
Qed.

Lemma no_orphans_where_nil st q :
  no_orphans st -> parties st !! q = None -> where_partyId q (entries st) = [].
Proof.
  unfold no_orphans, where_partyId. intros H Hq.
  induction H as [|e rows He _ IH]; simpl; [done|].
  destruct (Z.eqb_spec (LedgerEntry.partyId e) q) as [Heq|]; [|done].
  rewrite Heq, Hq in He. by destruct He.
Qed.

Lemma partySubmit_all_consistent name phone type k t1 t2 d :
  party_keys_ok d -> no_orphans (store d) -> all_consistent (store d) ->
  all_consistent (store (AddEditPartyPage.handleSubmit name phone type k t1 t2 d)).
Proof.
  intros [_ Hkeys] Hno Hall. unfold AddEditPartyPage.handleSubmit.
  destruct (is_empty name || is_empty phone); [done|].
  assert (Hadd : all_consistent (store (parties_add type name phone t1 t2 d))).
  { intros q Hq. simpl in Hq.
    assert (Hfresh : parties (store d) !! nextPartyId d = None).
    { destruct (parties (store d) !! nextPartyId d) eqn:E; [|done].
      assert (0 < nextPartyId d < nextPartyId d) by (apply Hkeys; by eexists).
      lia. }
    destruct (decide (q = nextPartyId d)) as [->|Hne].
    - assert (Hc : chronological (store (parties_add type name phone t1 t2 d))
                     (nextPartyId d) = []).
      { rewrite chronological_eq. simpl.
        by rewrite (no_orphans_where_nil (store d)). }
      split.
      + rewrite Hc. by intros i e.
      + unfold party_consistent. rewrite Hc. simpl.
        rewrite lookup_insert_eq. by eexists.
    - rewrite lookup_insert_ne in Hq by done.
      destruct Hq as [party Hp].
      apply (party_lookup_invariant (store d) _ q party party);
        [done|done| |done|by apply Hall; eexists].
      simpl. by rewrite lookup_insert_ne. }
  assert (Hupd : forall k0,
            all_consistent (store (parties_update k0 type name phone t1 d))).
  { intros k0 q Hq. simpl in Hq. apply lookup_alter_is_Some in Hq.
    pose proof Hq as [party Hp].
    destruct (decide (q = k0)) as [->|Hne].
    - apply (party_lookup_invariant (store d) _ k0 party
               (set_party_fields type name phone t1 party));
        [done|done| |done|by apply Hall].
      simpl. by rewrite lookup_alter_eq, Hp.
    - apply (party_lookup_invariant (store d) _ q party party);
        [done|done| |done|by apply Hall].
      simpl. by rewrite lookup_alter_ne. }
  destruct k as [k|]; [destruct (k =? 0)|]; done.
Qed.

Lemma step_all_consistent a d :
  db_ok d -> action_ok a (store d) -> all_consistent (store (step a d)).
Proof.
  intros ([Hok _] & Hkeys & Hno & Hall) Ha. destruct a; simpl.
  - apply handleSubmit_all_consistent; try done; by destruct entryId.
  - apply handleConfirmDelete_all_consistent; try done;
      by destruct deleteConfirmation as [[|]|].
  - by apply partySubmit_all_consistent.
Qed.

Lemma step_party_keys_ok a d : party_keys_ok d -> party_keys_ok (step a d).
Proof.
  intros [Hpos Hkeys]. destruct a; simpl in *.
  - split; [done|]. intros k Hk.
    apply Hkeys. by apply handleSubmit_parties_is_Some in Hk.
  - split; [done|]. intros k Hk.
    apply Hkeys. destruct deleteConfirmation as [[p|e p]|]; simpl in Hk.
    + destruct (decide (k = p)) as [->|];
        [rewrite lookup_delete_eq in Hk; by destruct Hk
        |by rewrite lookup_delete_ne in Hk].
    + by apply recalc_parties_is_Some in Hk.
    + done.
  - unfold AddEditPartyPage.handleSubmit.
    destruct (is_empty name || is_empty phone); [done|].
    assert (Hadd : party_keys_ok (parties_add type name phone
                                    nowUpdated nowCreated d)).
    { split; simpl; [lia|]. intros k Hk.
      destruct (decide (nextPartyId d = k)) as [<-|Hne]; [lia|].
      rewrite lookup_insert_ne in Hk by done. apply Hkeys in Hk. lia. }
    assert (Hupd : forall k0, party_keys_ok (parties_update k0 type name phone
                                               nowUpdated d)).
    { intros k0. split; simpl; [done|]. intros k Hk.
      apply Hkeys. by apply lookup_alter_is_Some in Hk. }
    destruct partyId as [k|]; [destruct (k =? 0)|]; done.
Qed.

Lemma step_db_ok a d : db_ok d -> action_ok a (store d) -> db_ok (step a d).
Proof.
  intros Hd Ha. pose proof Hd as (Hok & Hkeys & Hno & Hall).
  split; [by apply step_keys_ok|]. split; [by apply step_party_keys_ok|].
  split; [by apply step_no_orphans|by apply step_all_consistent].
Qed.

Lemma empty_db_ok : db_ok empty_db.
Proof.
  split; [by split|]. split; [split; [done|]|split; [constructor|]].
  - intros k [x Hx]. simpl in Hx. by rewrite lookup_empty in Hx.
  - intros p [x Hx]. simpl in Hx. by rewrite lookup_empty in Hx.
Qed.

Lemma step_nextEntryId a d :
  nextEntryId (store d) <= nextEntryId (store (step a d)).
Proof.
  destruct a; simpl.
  - unfold handleSubmit.
    destruct ((numAmount <=? 0) || negb (bool_decide (is_Some view))); [done|].
    assert (Hadd : nextEntryId (store d)
                   <= nextEntryId (transaction
                        (add_body partyId numAmount direction note date
                           nowCreated nowUpdated) (store d)).1).
    { destruct (parties (store d) !! partyId) as [party|] eqn:Hp.
      - destruct (add_entries partyId numAmount direction note date nowCreated
                    nowUpdated (store d) party Hp) as (_ & -> & _). lia.
      - unfold transaction, add_body. by rewrite Hp. }
    destruct entryId as [k|]; [destruct (k =? 0)|]; try done.
    by rewrite recalc_nextEntryId.
  - destruct deleteConfirmation as [[p|k p]|]; simpl; try done.
    by rewrite recalc_nextEntryId.
  - by rewrite (proj2 (partySubmit_store _ _ _ _ _ _ _)).
Qed.

Lemma step_nextPartyId a d : nextPartyId d <= nextPartyId (step a d).
Proof.
  destruct a; simpl; try done. unfold AddEditPartyPage.handleSubmit.
  destruct (is_empty name || is_empty phone); [done|].
  destruct partyId as [k|]; [destruct (k =? 0)|]; simpl; lia.
Qed.

(** X1: whatever the user submits or confirms, in any order, the primary
    keys of the entries stay positive, strictly increasing along the table and
    below the generator, and neither key generator ever steps back: no key is
    handed out twice. *)
Theorem X1_keys_never_reused acts d :
  keys_ok (store d) ->
  keys_ok (store (run acts d))
  /\ nextEntryId (store d) <= nextEntryId (store (run acts d))
  /\ nextPartyId d <= nextPartyId (run acts d).
Proof.
  revert d; induction acts as [|a acts IH]; intros d Hok; simpl.
  - split; [done|split; lia].
  - destruct (IH (step a d) (step_keys_ok a d Hok)) as (H1 & H2 & H3).
    split; [done|].
    pose proof (step_nextEntryId a d). pose proof (step_nextPartyId a d).
    split; lia.
Qed.

(** X2: the handlers keep referential integrity: if every entry refers to
    an existing party, it still does after any sequence of entry
    submissions, party submissions and confirmed deletions. *)
Theorem X2_no_orphans_preserved acts d :
  keys_ok (store d) -> no_orphans (store d) -> no_orphans (store (run acts d)).
Proof.
  revert d; induction acts as [|a acts IH]; intros d Hok Hno; simpl; [done|].
  apply IH; [by apply step_keys_ok|by apply step_no_orphans].
Qed.


Lemma X1_keys_never_reused_witness :
  keys_ok (store empty_db)
  /\ keys_ok (store (run acts_demo empty_db))
  /\ nextEntryId (store empty_db) <= nextEntryId (store (run acts_demo empty_db))
  /\ nextPartyId empty_db <= nextPartyId (run acts_demo empty_db).
Proof.
  assert (H : keys_ok (store empty_db))
    by (split; [vm_compute; reflexivity|simpl; lia]).
  split; [assumption|]. exact (X1_keys_never_reused acts_demo empty_db H).
Defined.

Lemma X2_no_orphans_preserved_witness :
  keys_ok (store empty_db) /\ no_orphans (store empty_db)
  /\ no_orphans (store (run acts_demo empty_db)).
Proof.
  assert (H1 : keys_ok (store empty_db))
    by (split; [vm_compute; reflexivity|simpl; lia]).
  assert (H2 : no_orphans (store empty_db)) by constructor.
  repeat (split; [assumption|]).
  exact (X2_no_orphans_preserved acts_demo empty_db H1 H2).
Defined.


Example acts_demo_result :
  map (fun kp => (kp.1, Party.name kp.2, Party.balance kp.2))
      (map_to_list (parties (store (run acts_demo empty_db))))
  = [(2, "Q", 0)]
  /\ entries (store (run acts_demo empty_db)) = []
  /\ nextEntryId (store (run acts_demo empty_db)) = 4
  /\ nextPartyId (run acts_demo empty_db) = 3.
Proof. vm_compute. repeat split. Qed.

(** X4: an entry submission, an entry deletion or a recalculation for one
    party leaves every other party alone: the rows of the other party's
    entries and its party row are exactly what they were, so that its ledger
    invariant, if it held, still holds. *)
Theorem X4_other_parties_untouched st p q :
  store_ok st -> q <> p ->
  (forall now, same_for st (recalculateBalancesForParty p now st).1 q)
  /\ (forall view k a d n dt t1 t2,
        match k with Some entryId => entry_of st entryId p | None => True end ->
        same_for st (handleSubmit view p k a d n dt t1 t2 st).1 q)
  /\ (forall k now, entry_of st k p -> same_for st (deleteEntry k p now st).1 q)
  /\ (forall st', same_for st st' q ->
        ledger_invariant st q -> ledger_invariant st' q).
Proof.
  intros Hok Hq. split; [|split; [|split]].
  - intros now. by apply recalc_same_for.
  - intros view k a d n dt t1 t2 Hk. by apply handleSubmit_same_for.
  - intros k now Hk. by apply deleteEntry_same_for.
  - intros st'. apply same_for_invariant.
Qed.

Lemma X4_other_parties_untouched_witness :
  store_ok st_two /\ 1 <> 2
  /\ same_for st_two (recalculateBalancesForParty 2 9 st_two).1 1
  /\ entries (recalculateBalancesForParty 2 9 st_two).1 <> entries st_two.
Proof.
  assert (H1 : store_ok st_two) by (vm_compute; reflexivity).
  assert (H2 : 1 <> 2) by discriminate.
  split; [assumption|]. split; [assumption|].
  split; [exact (proj1 (X4_other_parties_untouched st_two 2 1 H1 H2) 9)|].
  vm_compute. discriminate.
Defined.

(** X5: confirming the deletion of a party removes the party row and every
    entry of the party, reports no error, keeps the keys of the remaining
    rows in order, removes no entry of another party and touches no other
    party row; confirming with nothing pending changes nothing. *)
Theorem X5_delete_party_cascades st p now :
  store_ok st ->
  (handleConfirmDelete (Some (ConfirmParty p)) now st).2 = None
  /\ parties (handleConfirmDelete (Some (ConfirmParty p)) now st).1 !! p = None
  /\ where_partyId p
       (entries (handleConfirmDelete (Some (ConfirmParty p)) now st).1) = []
  /\ store_ok (handleConfirmDelete (Some (ConfirmParty p)) now st).1
  /\ nextEntryId (handleConfirmDelete (Some (ConfirmParty p)) now st).1
     = nextEntryId st
  /\ (forall q, q <> p ->
        same_for st (handleConfirmDelete (Some (ConfirmParty p)) now st).1 q)
  /\ (forall e, e ∈ entries st -> LedgerEntry.partyId e <> p ->
        e ∈ entries (handleConfirmDelete (Some (ConfirmParty p)) now st).1)
  /\ handleConfirmDelete None now st = (st, None).
Proof.
  intros Hok. simpl. split; [done|]. split; [apply lookup_delete_eq|].
  split; [|split; [by apply delete_party_ok|split; [done|split; [|split]]]].
  - unfold where_partyId. induction (entries st) as [|e rows IH]; simpl; [done|].
    destruct (Z.eqb_spec (LedgerEntry.partyId e) p) as [Heq|Hne]; simpl; [done|].
    destruct (Z.eqb_spec (LedgerEntry.partyId e) p); [done|]. exact IH.
  - intros q Hq. by apply delete_party_same_for.
  - intros e He Hp. apply list_elem_of_In, filter_In.
    split; [by apply list_elem_of_In|].
    by destruct (Z.eqb_spec (LedgerEntry.partyId e) p).
  - done.
Qed.

Lemma X5_delete_party_cascades_witness :
  store_ok st_ABC
  /\ parties (handleConfirmDelete (Some (ConfirmParty 1)) 70 st_ABC).1 !! 1 = None
  /\ where_partyId 1
       (entries (handleConfirmDelete (Some (ConfirmParty 1)) 70 st_ABC).1) = [].
Proof.
  assert (H1 : store_ok st_ABC) by (vm_compute; reflexivity).
  split; [assumption|].
  pose proof (X5_delete_party_cascades st_ABC 1 70 H1) as (_ & G1 & G2 & _).
  split; assumption.
Defined.

(** X6: submitting a new entry for a party whose row is not in the store (the
    page still showing it) aborts the transaction: the error "Party not
    found" comes back and the store is exactly what it was, entries, parties
    and key generator. *)
Theorem X6_add_entry_missing_party_aborts st view p k a d n dt t1 t2 :
  parties st !! p = None -> 0 < a ->
  match k with Some entryId => entryId = 0 | None => True end ->
  handleSubmit (Some view) p k a d n dt t1 t2 st = (st, Some "Party not found").
Proof.
  intros Hp Ha Hk. unfold handleSubmit.
  destruct (Z.leb_spec a 0); [lia|]. simpl.
  assert (Habort : transaction (add_body p a d n dt t1 t2) st
                   = (st, Some "Party not found"))
    by (unfold transaction, add_body; by rewrite Hp).
  destruct k as [entryId|]; [|done]. by rewrite Hk.
Qed.

Lemma X6_add_entry_missing_party_aborts_witness :
  parties st_orphan !! 7 = None /\ 0 < 10
  /\ handleSubmit (Some partyP) 7 None 10 credit "y" 20240102 8 9 st_orphan
     = (st_orphan, Some "Party not found").
Proof.
  assert (H1 : parties st_orphan !! 7 = None) by (vm_compute; reflexivity).
  assert (H2 : 0 < 10) by lia.
  repeat (split; [assumption|]).
  exact (X6_add_entry_missing_party_aborts st_orphan partyP 7 None 10 credit
           "y" 20240102 8 9 H1 H2 I).
Defined.

(** ** Adding, then deleting *)

Lemma settle_from_rebalanced r (f : Entry -> Entry) es :
  (forall e, f e = set_balanceAfter (LedgerEntry.balanceAfter (f e)) e) ->
  settle_from r (map f es) = settle_from r es.
Proof.
  intros Hf. revert r; induction es as [|e es IH]; intros r; simpl; [done|].
  assert (Hs : signedAmount (f e) = signedAmount e) by (by rewrite (Hf e)).
  assert (Hb : forall b, set_balanceAfter b (f e) = set_balanceAfter b e)
    by (intros b; by rewrite (Hf e)).
  by rewrite IH, Hs, Hb.
Qed.

Lemma signed_sum_rebalanced (f : Entry -> Entry) es :
  (forall e, f e = set_balanceAfter (LedgerEntry.balanceAfter (f e)) e) ->
  signed_sum (map f es) = signed_sum es.
Proof.
  intros Hf. apply signed_sum_signed. rewrite map_map. apply map_ext.
  intros e. by rewrite (Hf e).
Qed.

Lemma recalc_noop p now st :
  ledger_invariant st p -> chronological st p <> [] ->
  recalculateBalancesForParty p now st = (st, None).
Proof.
  intros Hinv Hne. pose proof Hinv as [Hcons (party & Hp & _)].
  pose proof (ledger_invariant_balance st p party Hinv Hp) as Hbal.
  unfold recalculateBalancesForParty, transaction.
  rewrite recalc_body_spec, recalc_updates_settled by done.
  rewrite (recalc_party_writes_same st p now party) by done.
  rewrite length_eqb_nil. by destruct (chronological st p).
Qed.

Lemma add_then_delete_rows p a d n dt t1 t2 st party :
  store_ok st -> parties st !! p = Some party ->
  entries (entries_delete (nextEntryId st)
             (transaction (add_body p a d n dt t1 t2) st).1)
  = map (row_after (add_updates st p (mk_newEntry p a d n dt t1))) (entries st).
Proof.
  intros Hok Hp.
  destruct (add_entries p a d n dt t1 t2 st party Hp) as (Hrows & _ & _).
  rewrite add_newEntry_balance in Hrows by done.
  simpl. rewrite Hrows, List.filter_app. simpl. rewrite Z.eqb_refl. simpl.
  rewrite app_nil_r. apply forallb_filter_id, forallb_forall.
  intros e' (e & <- & He)%in_map_iff. rewrite row_after_id.
  pose proof (store_ok_bounds st Hok) as Hb. rewrite Forall_forall in Hb.
  apply list_elem_of_In, Hb in He.
  destruct (Z.eqb_spec (LedgerEntry.id e) (nextEntryId st)); [lia|done].
Qed.

(** X7: on a party whose ledger satisfies the invariant, adding an entry and
    then deleting that very entry brings back every entry row of the store,
    each [balanceAfter] included, and the balance of the party; only the key
    generator has moved on. *)
Theorem X7_add_then_delete_restores st p view a d n dt t1 t2 now party :
  store_ok st -> parties st !! p = Some party -> ledger_invariant st p ->
  0 < a ->
  entries (deleteEntry (nextEntryId st) p now
             (handleSubmit (Some view) p None a d n dt t1 t2 st).1).1
  = entries st
  /\ Party.balance <$>
       parties (deleteEntry (nextEntryId st) p now
                  (handleSubmit (Some view) p None a d n dt t1 t2 st).1).1 !! p
     = Some (Party.balance party)
  /\ nextEntryId (deleteEntry (nextEntryId st) p now
                    (handleSubmit (Some view) p None a d n dt t1 t2 st).1).1
     = nextEntryId st + 1.
Proof.
  intros Hok Hp Hinv Ha. rewrite handleSubmit_add by done.
  unfold deleteEntry, handleConfirmDelete.
  set (c := mk_newEntry p a d n dt t1).
  set (st1 := (transaction (add_body p a d n dt t1 t2) st).1).
  set (sd := entries_delete (nextEntryId st) st1).
  set (f1 := row_after (add_updates st p c)).
  set (f2 := row_after (recalc_updates sd p)).
  assert (Hsd : entries sd = map f1 (entries st))
    by (by apply (add_then_delete_rows p a d n dt t1 t2 st party)).
  destruct (add_entries p a d n dt t1 t2 st party Hp) as (_ & Hnext & Hps).
  fold st1 c in Hnext, Hps.
  pose proof (store_ok_bounds st Hok) as Hb.
  assert (Hoksd : store_ok sd).
  { pose proof Hok as [H1 H2]%andb_prop.
    unfold store_ok, store_okb. rewrite Hsd.
    rewrite keys_increasing_map, H1 by apply row_after_id. simpl.
    apply forallb_forall. intros e' (e & <- & He)%in_map_iff.
    unfold f1. rewrite row_after_id, Hnext.
    rewrite Forall_forall in Hb. apply list_elem_of_In, Hb in He.
    apply Z.ltb_lt. lia. }
  assert (Hf1 : forall e, f1 e = set_balanceAfter
                                   (LedgerEntry.balanceAfter (f1 e)) e)
    by (intros e; apply row_after_set).
  assert (Hcsd : chronological sd p = map f1 (chronological st p))
    by (apply chronological_map; [apply row_after_keys|done]).
  pose proof Hinv as [Hcons _]. apply entries_consistent_iff in Hcons.
  assert (Hc2 : chronological (recalculateBalancesForParty p now sd).1 p
                = chronological st p).
  { rewrite recalc_chronological, Hcsd by done. unfold settle.
    rewrite settle_from_rebalanced by done. by apply settle_from_fixed. }
  split; [|split].
  - rewrite recalc_entries, Hsd, map_map. fold f2.
    rewrite <- (map_id (entries st)) at 2. apply map_ext_in.
    intros e He%list_elem_of_In.
    destruct (decide (LedgerEntry.partyId e = p)) as [Hpe|Hpe].
    + assert (Hin : f2 (f1 e) ∈ chronological st p).
      { rewrite <- Hc2. apply chronological_rows. split.
        - rewrite recalc_entries, Hsd, map_map. fold f2.
          apply list_elem_of_fmap. by exists e.
        - unfold f2, f1.
          rewrite (proj1 (row_after_keys _ _)), (proj1 (row_after_keys _ _)).
          done. }
      apply chronological_rows in Hin as [Hin _].
      apply (rows_unique (entries st)); [by apply store_ok_NoDup|done|done|].
      unfold f2, f1. by rewrite !row_after_id.
    + assert (H1 : f1 e = e) by (by apply add_row_other).
      rewrite H1. apply recalc_row_other; [done| |done].
      rewrite Hsd. apply list_elem_of_fmap. exists e. by rewrite H1.
  - assert (Hp1 : parties sd !! p
                  = Some (set_balance (signed_sum (allEntries st p c)) t2 party))
      by (simpl; by rewrite Hps, lookup_alter_eq, Hp).
    destruct (recalc_party_balance p now sd _ Hp1) as (party' & H1 & H2).
    rewrite H1. simpl. f_equal. rewrite H2, Hcsd.
    rewrite signed_sum_rebalanced by done.
    symmetry. by apply ledger_invariant_balance.
  - rewrite recalc_nextEntryId. simpl. exact Hnext.
Qed.

Lemma X7_add_then_delete_restores_witness :
  store_ok st_AB /\ parties st_AB !! 1 = Some party_AB
  /\ ledger_invariant st_AB 1 /\ 0 < 20
  /\ entries (deleteEntry (nextEntryId st_AB) 1 50
                (handleSubmit (Some partyP) 1 None 20 credit "C" 20240102 30 31
                   st_AB).1).1
     = entries st_AB.
Proof.
  assert (H1 : store_ok st_AB) by (vm_compute; reflexivity).
  assert (H2 : parties st_AB !! 1 = Some party_AB) by (vm_compute; reflexivity).
  assert (H3 : ledger_invariant st_AB 1)
    by (apply ledger_invariantb_sound; vm_compute; reflexivity).
  assert (H4 : 0 < 20) by lia.
  repeat (split; [assumption|]).
  exact (proj1 (X7_add_then_delete_restores st_AB 1 partyP 20 credit "C"
                  20240102 30 31 50 party_AB H1 H2 H3 H4)).
Defined.

(** In the exact model a recalculation right after an entry was added
    changes nothing, and so on every store in which the party has entries
    and satisfies the ledger invariant. *)
Lemma recalculate_after_add_exact st p view a d n dt t1 t2 now party :
  store_ok st -> parties st !! p = Some party -> 0 < a ->
  recalculateBalancesForParty p now
    (handleSubmit (Some view) p None a d n dt t1 t2 st).1
  = ((handleSubmit (Some view) p None a d n dt t1 t2 st).1, None)
  /\ (forall st', ledger_invariant st' p -> chronological st' p <> [] ->
        recalculateBalancesForParty p now st' = (st', None)).
Proof.
  intros Hok Hp Ha. split; [|intros st'; apply recalc_noop].
  rewrite handleSubmit_add by done. apply recalc_noop.
  - by eapply add_invariant.
  - rewrite (add_chronological _ _ _ _ _ _ _ _ party) by done.
    unfold settle. rewrite settle_from_app. simpl.
    by destruct (settle_from 0 _).
Qed.

(** X8: on a ledger whose amounts, the new one included, are positive whole
    numbers with a total below 2^53, the inline recalculation of the
    add-entry transaction and the standalone [recalculateBalancesForParty]
    agree: calling the latter right after an entry was added changes
    nothing in the store and reports no error; more generally it is the
    identity on every such store in which the party has entries and
    satisfies the ledger invariant. *)
Theorem X8_recalculate_after_add_is_identity st p view a d n dt t1 t2 now party :
  store_ok st -> parties st !! p = Some party ->
  safe_ledger st p = true -> safe_amount st p a = true ->
  F64.recalculateBalancesForParty p now
    (F64.handleSubmit (Some (party_f64 view)) p None (num_of_Z a) d n dt t1 t2
       (store_f64 st)).1
  = ((F64.handleSubmit (Some (party_f64 view)) p None (num_of_Z a) d n dt
        t1 t2 (store_f64 st)).1, None)
  /\ (forall st', ledger_invariant st' p -> chronological st' p <> [] ->
        safe_ledger st' p = true ->
        F64.recalculateBalancesForParty p now (store_f64 st')
        = (store_f64 st', None)).
Proof.
  intros Hok Hp Hsafe Hamount.
  destruct (safe_amount_pos st p a Hsafe Hamount) as [Ha _].
  destruct (recalculate_after_add_exact st p view a d n dt t1 t2 now party
              Hok Hp Ha) as [H1 H2].
  split.
  - rewrite sim_handleSubmit_add by done. cbn [fst].
    rewrite sim_recalculate.
    + by rewrite H1.
    + rewrite handleSubmit_add by done. by eapply add_safe.
  - intros st' Hinv Hne Hsafe'. rewrite sim_recalculate by done.
    by rewrite H2.
Qed.

Lemma X8_recalculate_after_add_is_identity_witness :
  store_ok st_AB /\ parties st_AB !! 1 = Some party_AB
  /\ safe_ledger st_AB 1 = true /\ safe_amount st_AB 1 20 = true
  /\ F64.recalculateBalancesForParty 1 40
       (F64.handleSubmit (Some (party_f64 partyP)) 1 None (num_of_Z 20) credit
          "C" 20240102 30 31 (store_f64 st_AB)).1
     = ((F64.handleSubmit (Some (party_f64 partyP)) 1 None (num_of_Z 20)
           credit "C" 20240102 30 31 (store_f64 st_AB)).1, None).
Proof.
  assert (H1 : store_ok st_AB) by (vm_compute; reflexivity).
  assert (H2 : parties st_AB !! 1 = Some party_AB) by (vm_compute; reflexivity).
  assert (H3 : safe_ledger st_AB 1 = true) by (vm_compute; reflexivity).
  assert (H4 : safe_amount st_AB 1 20 = true) by (vm_compute; reflexivity).
  repeat (split; [assumption|]).
  exact (proj1 (X8_recalculate_after_add_is_identity st_AB 1 partyP 20 credit
                  "C" 20240102 30 31 40 party_AB H1 H2 H3 H4)).
Defined.

(** ** How the balance of a party moves *)

Lemma signed_sum_delete (rows : list Entry) e :
  NoDup (map LedgerEntry.id rows) -> e ∈ rows ->
  signed_sum (List.filter
                (fun x => negb (LedgerEntry.id x =? LedgerEntry.id e)) rows)
  + signedAmount e = signed_sum rows.
Proof.
  induction rows as [|x rows IH]; intros Hnd He; [by apply elem_of_nil in He|].
  apply NoDup_cons in Hnd as [Hx Hnd]. simpl.
  destruct (Z.eqb_spec (LedgerEntry.id x) (LedgerEntry.id e)) as [Heq|Hne]; simpl.
  - assert (x = e) as ->.
    { apply elem_of_cons in He as [->|He]; [done|]. exfalso. apply Hx.
      rewrite Heq. apply list_elem_of_fmap. by exists e. }
    rewrite forallb_filter_id; [by rewrite signed_sum_cons; lia|].
    apply forallb_forall. intros y Hy.
    destruct (Z.eqb_spec (LedgerEntry.id y) (LedgerEntry.id e)) as [Hye|]; [|done].
    exfalso. apply Hx. rewrite <- Hye.
    apply list_elem_of_fmap. exists y. by split; [|apply list_elem_of_In].
  - apply elem_of_cons in He as [->|He]; [done|].
    rewrite !signed_sum_cons, <- (IH Hnd He). lia.
Qed.

Lemma signed_sum_update (rows : list Entry) (g : Entry -> Entry) e :
  NoDup (map LedgerEntry.id rows) -> e ∈ rows ->
  signed_sum (map (fun x => if LedgerEntry.id x =? LedgerEntry.id e
                            then g x else x) rows)
  = signed_sum rows - signedAmount e + signedAmount (g e).
Proof.
  induction rows as [|x rows IH]; intros Hnd He; [by apply elem_of_nil in He|].
  apply NoDup_cons in Hnd as [Hx Hnd]. simpl. rewrite !signed_sum_cons.
  destruct (Z.eqb_spec (LedgerEntry.id x) (LedgerEntry.id e)) as [Heq|Hne].
  - assert (x = e) as ->.
    { apply elem_of_cons in He as [->|He]; [done|]. exfalso. apply Hx.
      rewrite Heq. apply list_elem_of_fmap. by exists e. }
    rewrite (map_ext_in _ (fun x => x)), map_id; [lia|].
    intros y Hy.
    destruct (Z.eqb_spec (LedgerEntry.id y) (LedgerEntry.id e)) as [Hye|]; [|done].
    exfalso. apply Hx. rewrite <- Hye.
    apply list_elem_of_fmap. exists y. by split; [|apply list_elem_of_In].
  - apply elem_of_cons in He as [->|He]; [done|].
    rewrite (IH Hnd He). lia.
Qed.

Lemma where_partyId_map_party f p rows :
  (forall e, LedgerEntry.partyId (f e) = LedgerEntry.partyId e) ->
  where_partyId p (map f rows) = map f (where_partyId p rows).
Proof.
  intros Hf. unfold where_partyId.
  induction rows as [|e rows IH]; simpl; [done|].
  rewrite Hf, IH. by destruct (LedgerEntry.partyId e =? p).
Qed.

Lemma where_partyId_elem p rows e :
  e ∈ where_partyId p rows <-> e ∈ rows /\ LedgerEntry.partyId e = p.
Proof.
  unfold where_partyId. by rewrite !list_elem_of_In, filter_In, Z.eqb_eq.
Qed.

(** In the exact model, on a party whose ledger satisfies the invariant,
    adding an entry moves the balance of the party by the signed amount of
    the entry, deleting one moves it back, and editing one replaces the old
    signed amount by the new one. *)
Lemma balance_moves_exact st p party :
  store_ok st -> parties st !! p = Some party -> ledger_invariant st p ->
  (forall view a d n dt t1 t2, 0 < a ->
     parties (handleSubmit (Some view) p None a d n dt t1 t2 st).1 !! p
     = Some (set_balance
               (Party.balance party + signedAmount (mk_newEntry p a d n dt t1))
               t2 party))
  /\ (forall e now, e ∈ entries st -> LedgerEntry.partyId e = p ->
        Party.balance <$>
          parties (deleteEntry (LedgerEntry.id e) p now st).1 !! p
        = Some (Party.balance party - signedAmount e))
  /\ (forall e view a d n dt t1 t2, e ∈ entries st ->
        LedgerEntry.partyId e = p -> 0 < a ->
        Party.balance <$>
          parties (handleSubmit (Some view) p (Some (LedgerEntry.id e))
                     a d n dt t1 t2 st).1 !! p
        = Some (Party.balance party - signedAmount e
                + signedAmount (set_edit_fields a d n dt e))).
Proof.
  intros Hok Hp Hinv.
  pose proof (ledger_invariant_balance st p party Hinv Hp) as Hbal0.
  pose proof Hbal0 as Hbal.
  rewrite (signed_sum_perm _ _ (chronological_perm st p)) in Hbal.
  assert (Hnd : NoDup (map LedgerEntry.id (where_partyId p (entries st))))
    by (by apply NoDup_map_bfilter, store_ok_NoDup).
  split; [|split].
  - intros view a d n dt t1 t2 Ha. rewrite handleSubmit_add by done.
    destruct (add_entries p a d n dt t1 t2 st party Hp) as (_ & _ & ->).
    rewrite lookup_alter_eq, Hp. simpl. do 2 f_equal.
    rewrite allEntries_split, Hbal0.
    rewrite (chronological_split st p (mk_newEntry p a d n dt t1)).
    rewrite !signed_sum_app, signed_sum_cons. lia.
  - intros e now He Hpe. unfold deleteEntry, handleConfirmDelete.
    destruct (recalc_party_balance p now (entries_delete (LedgerEntry.id e) st)
                party Hp) as (party' & -> & H2).
    simpl. f_equal. rewrite H2.
    rewrite (signed_sum_perm _ _ (chronological_perm _ p)). simpl.
    unfold where_partyId at 1. rewrite bfilter_comm. fold (where_partyId p (entries st)).
    rewrite Hbal, <- (signed_sum_delete (where_partyId p (entries st)) e);
      [lia|done|by apply where_partyId_elem].
  - intros e view a d n dt t1 t2 He Hpe Ha. unfold handleSubmit.
    destruct (Z.leb_spec a 0); [lia|]. simpl.
    pose proof (store_ok_bounds st Hok) as Hb. rewrite Forall_forall in Hb.
    destruct (Z.eqb_spec (LedgerEntry.id e) 0) as [H0|_];
      [apply Hb in He; lia|].
    destruct (recalc_party_balance p t2
                (entries_update_fields (LedgerEntry.id e) a d n dt st)
                party Hp) as (party' & -> & H2).
    simpl. f_equal. rewrite H2.
    rewrite (signed_sum_perm _ _ (chronological_perm _ p)). simpl.
    rewrite where_partyId_map_party
      by (intros x; by destruct (LedgerEntry.id x =? LedgerEntry.id e)).
    rewrite (signed_sum_update _ (set_edit_fields a d n dt) e);
      [lia|done|by apply where_partyId_elem].
Qed.

(** X9: on a party whose ledger satisfies the invariant and stays within
    whole numbers with a total below 2^53, whatever the date, adding an
    entry leaves in the party row the binary64 sum of the old balance and
    the signed amount of the entry, which is exact; deleting one of its
    entries leaves the old balance minus the signed amount of that entry, and
    editing one replaces the old signed amount by the new one. *)
Theorem X9_balance_moves_by_signed_amount st p party :
  store_ok st -> parties st !! p = Some party -> ledger_invariant st p ->
  safe_ledger st p = true ->
  (forall view a d n dt t1 t2, safe_amount st p a = true ->
     F64.parties
       (F64.handleSubmit (Some (party_f64 view)) p None (num_of_Z a) d n dt
          t1 t2 (store_f64 st)).1 !! p
     = Some (F64.set_balance
               (PrimFloat.add (F64.Party.balance (party_f64 party))
                  (F64.signedAmount (F64.mk_newEntry p (num_of_Z a) d n dt t1)))
               t2 (party_f64 party))
     /\ PrimFloat.add (F64.Party.balance (party_f64 party))
          (F64.signedAmount (F64.mk_newEntry p (num_of_Z a) d n dt t1))
        = num_of_Z (Party.balance party
                    + signedAmount (mk_newEntry p a d n dt t1)))
  /\ (forall e now, e ∈ entries st -> LedgerEntry.partyId e = p ->
        F64.Party.balance <$>
          F64.parties
            (F64.deleteEntry (LedgerEntry.id e) p now (store_f64 st)).1 !! p
        = Some (num_of_Z (Party.balance party - signedAmount e)))
  /\ (forall e view a d n dt t1 t2, e ∈ entries st ->
        LedgerEntry.partyId e = p -> 0 < a -> safe a ->
        safe_ledger (entries_update_fields (LedgerEntry.id e) a d n dt st) p
        = true ->
        F64.Party.balance <$>
          F64.parties
            (F64.handleSubmit (Some (party_f64 view)) p
               (Some (LedgerEntry.id e)) (num_of_Z a) d n dt t1 t2
               (store_f64 st)).1 !! p
        = Some (num_of_Z (Party.balance party - signedAmount e
                          + signedAmount (set_edit_fields a d n dt e)))).
Proof.
  intros Hok Hp Hinv Hsafe.
  destruct (balance_moves_exact st p party Hok Hp Hinv) as (Hadd & Hdel & Hed).
  split; [|split].
  - intros view a d n dt t1 t2 Hamount.
    destruct (safe_amount_pos st p a Hsafe Hamount) as [Ha Hsa].
    assert (Hex : PrimFloat.add (F64.Party.balance (party_f64 party))
                    (F64.signedAmount (F64.mk_newEntry p (num_of_Z a) d n dt t1))
                  = num_of_Z (Party.balance party
                              + signedAmount (mk_newEntry p a d n dt t1))).
    { change (F64.mk_newEntry p (num_of_Z a) d n dt t1)
        with (entry_f64 (mk_newEntry p a d n dt t1)).
      unfold safe in Hsa.
      rewrite sim_signedAmount by (simpl; lia).
      pose proof (abs_signedAmount (mk_newEntry p a d n dt t1)) as Hs.
      specialize (Hs ltac:(simpl; lia)). simpl in Hs.
      destruct (safe_ledger_amounts st p Hsafe) as [Hpos Htot].
      pose proof (abs_signed_sum _ Hpos) as Hb.
      rewrite <- (ledger_invariant_balance st p party Hinv Hp) in Hb.
      unfold safe_amount in Hamount. apply andb_prop in Hamount as [_ H].
      rewrite (sumZ_perm _ _
                 (Permutation_map _ (chronological_perm st p))) in Hb.
      apply num_add_exact; unfold safe; simpl; lia. }
    split; [|exact Hex]. rewrite Hex.
    rewrite sim_handleSubmit_add by done. cbn [fst].
    by rewrite sim_parties_lookup, (Hadd view a d n dt t1 t2 Ha).
  - intros e now He Hpe.
    rewrite sim_deleteEntry by (by apply entries_delete_safe). cbn [fst].
    rewrite sim_parties_lookup, <- option_fmap_compose.
    change (F64.Party.balance ∘ party_f64) with (num_of_Z ∘ Party.balance).
    rewrite option_fmap_compose, (Hdel e now He Hpe). done.
  - intros e view a d n dt t1 t2 He Hpe Ha Hsa Hsafe'.
    rewrite (sim_handleSubmit (Some view)); [|done|].
    + cbn [fst]. rewrite sim_parties_lookup, <- option_fmap_compose.
      change (F64.Party.balance ∘ party_f64) with (num_of_Z ∘ Party.balance).
      rewrite option_fmap_compose, (Hed e view a d n dt t1 t2 He Hpe Ha). done.
    + intros _. simpl. destruct (LedgerEntry.id e =? 0) eqn:E; [|done].
      exfalso. apply Z.eqb_eq in E.
      pose proof (store_ok_bounds st Hok) as Hb.
      rewrite Forall_forall in Hb. specialize (Hb e He). lia.
Qed.

Lemma X9_balance_moves_by_signed_amount_witness :
  store_ok st_AB /\ parties st_AB !! 1 = Some party_AB
  /\ ledger_invariant st_AB 1 /\ safe_ledger st_AB 1 = true
  /\ F64.parties
       (F64.handleSubmit (Some (party_f64 partyP)) 1 None (num_of_Z 20) credit
          "C" 20240102 30 31 (store_f64 st_AB)).1 !! 1
     = Some (F64.set_balance
               (PrimFloat.add (F64.Party.balance (party_f64 party_AB))
                  (F64.signedAmount
                     (F64.mk_newEntry 1 (num_of_Z 20) credit "C" 20240102 30)))
               31 (party_f64 party_AB)).
Proof.
  assert (H1 : store_ok st_AB) by (vm_compute; reflexivity).
  assert (H2 : parties st_AB !! 1 = Some party_AB) by (vm_compute; reflexivity).
  assert (H3 : ledger_invariant st_AB 1)
    by (apply ledger_invariantb_sound; vm_compute; reflexivity).
  assert (H4 : safe_ledger st_AB 1 = true) by (vm_compute; reflexivity).
  repeat (split; [assumption|]).
  refine (proj1 (proj1 (X9_balance_moves_by_signed_amount st_AB 1 party_AB
                          H1 H2 H3 H4)
                   partyP 20 credit "C" 20240102 30 31 _)).
  vm_compute; reflexivity.
Defined.

(** ** The dashboard *)

Lemma totals_from ps r0 p0 :
  fold_left totals_step ps (r0, p0) = (r0 + receivable ps, p0 + payable ps).
Proof.
  revert r0 p0; induction ps as [|x ps IH]; intros r0 p0; simpl.
  - unfold receivable, payable; simpl. by rewrite !Z.add_0_r.
  - unfold totals_step at 2; simpl. rewrite IH.
    unfold receivable, payable; simpl.
    destruct (0 <? Party.balance x), (Party.balance x <? 0); simpl;
      f_equal; lia.
Qed.

Lemma receivable_nonneg ps : 0 <= receivable ps.
Proof.
  unfold receivable. induction ps as [|x ps IH]; simpl; [done|].
  destruct (Z.ltb_spec 0 (Party.balance x)); simpl; lia.
Qed.

Lemma payable_nonneg ps : 0 <= payable ps.
Proof.
  unfold payable. induction ps as [|x ps IH]; simpl; [done|].
  destruct (Z.ltb_spec (Party.balance x) 0); simpl; lia.
Qed.

Lemma receivable_payable ps : receivable ps - payable ps = balances_sum ps.
Proof.
  unfold receivable, payable, balances_sum.
  induction ps as [|x ps IH]; simpl; [done|].
  destruct (Z.ltb_spec 0 (Party.balance x)), (Z.ltb_spec (Party.balance x) 0);
    simpl; lia.
Qed.

Lemma receivable_perm ps ps' : ps ≡ₚ ps' -> receivable ps = receivable ps'.
Proof.
  unfold receivable.
  induction 1 as [|x l l' _ IH|x y l|l l' l'' _ IH1 _ IH2]; simpl;
    [done| | |congruence].
  - destruct (0 <? Party.balance x); simpl; lia.
  - destruct (0 <? Party.balance x), (0 <? Party.balance y); simpl; lia.
Qed.

Lemma payable_perm ps ps' : ps ≡ₚ ps' -> payable ps = payable ps'.
Proof.
  unfold payable.
  induction 1 as [|x l l' _ IH|x y l|l l' l'' _ IH1 _ IH2]; simpl;
    [done| | |congruence].
  - destruct (Party.balance x <? 0); simpl; lia.
  - destruct (Party.balance x <? 0), (Party.balance y <? 0); simpl; lia.
Qed.

(** In the exact model the two totals are the sum of the positive balances
    and the sum of the absolute values of the negative ones, whatever the
    order of the array. *)
Lemma dashboard_totals_exact ps :
  dashboardTotals (Some ps) = (receivable ps, payable ps)
  /\ 0 <= (dashboardTotals (Some ps)).1
  /\ 0 <= (dashboardTotals (Some ps)).2
  /\ (dashboardTotals (Some ps)).1 - (dashboardTotals (Some ps)).2
     = balances_sum ps
  /\ (forall ps', ps ≡ₚ ps' ->
        dashboardTotals (Some ps') = dashboardTotals (Some ps))
  /\ (forall party, Party.balance party = 0 ->
        dashboardTotals (Some (party :: ps)) = dashboardTotals (Some ps)).
Proof.
  assert (H : forall l, dashboardTotals (Some l) = (receivable l, payable l)).
  { intros l. unfold dashboardTotals. rewrite totals_from. f_equal; lia. }
  rewrite !H. cbn [fst snd]. split; [done|].
  split; [apply receivable_nonneg|]. split; [apply payable_nonneg|].
  split; [apply receivable_payable|]. split.
  - intros ps' Hperm. rewrite H.
    by rewrite (receivable_perm _ _ Hperm), (payable_perm _ _ Hperm).
  - intros party Hz. rewrite H. unfold receivable, payable. simpl.
    by rewrite Hz.
Qed.

Lemma sumZ_map_add {A : Type} (f g : A -> Z) l :
  sumZ (map (fun x => f x + g x) l) = sumZ (map f l) + sumZ (map g l).
Proof. induction l as [|x l IH]; simpl; lia. Qed.

Lemma sumZ_indicator (ks : list Z) k s :
  NoDup ks ->
  sumZ (map (fun k' => if k =? k' then s else 0) ks)
  = if bool_decide (k ∈ ks) then s else 0.
Proof.
  induction 1 as [|k0 ks Hk0 Hnd IH]; simpl; [done|]. rewrite IH.
  destruct (Z.eqb_spec k k0) as [->|Hne].
  - rewrite (bool_decide_eq_false_2 (k0 ∈ ks)) by done.
    rewrite bool_decide_eq_true_2 by apply list_elem_of_here. lia.
  - destruct (decide (k ∈ ks)).
    + rewrite !bool_decide_eq_true_2; [lia|by apply list_elem_of_further|done].
    + rewrite !bool_decide_eq_false_2; [lia| |done].
      by intros [?|?]%elem_of_cons.
Qed.

(** Summing party by party covers every entry whose party is listed. *)
Lemma signed_sum_by_party (ks : list Z) rows :
  NoDup ks ->
  Forall (fun e => LedgerEntry.partyId e ∈ ks) rows ->
  sumZ (map (fun k => signed_sum (where_partyId k rows)) ks) = signed_sum rows.
Proof.
  intros Hnd. induction 1 as [|e rows He _ IH].
  - assert (Hz : forall l : list Z, sumZ (map (fun _ => 0) l) = 0)
      by (induction l; simpl; lia).
    exact (Hz ks).
  - rewrite (map_ext _ (fun k =>
               (if LedgerEntry.partyId e =? k then signedAmount e else 0)
               + signed_sum (where_partyId k rows))).
    + rewrite sumZ_map_add, sumZ_indicator, IH by done.
      rewrite bool_decide_eq_true_2 by done. by rewrite signed_sum_cons.
    + intros k. unfold where_partyId. simpl.
      destruct (LedgerEntry.partyId e =? k); [by rewrite signed_sum_cons|lia].
Qed.

Lemma parties_toArray_perm st :
  parties_toArray st ≡ₚ (map_to_list (parties st)).*2.
Proof. unfold parties_toArray. by rewrite sort_perm. Qed.

Lemma all_consistentb_sound st : all_consistentb st = true -> all_consistent st.
Proof.
  unfold all_consistentb. rewrite forallb_forall. intros H p [party Hp].
  apply ledger_invariantb_sound.
  apply (H (p, party)), list_elem_of_In, elem_of_map_to_list, Hp.
Qed.

Lemma no_orphansb_sound st : no_orphansb st = true -> no_orphans st.
Proof.
  unfold no_orphansb, no_orphans. rewrite forallb_forall, Forall_forall.
  intros H e He. apply list_elem_of_In, H in He.
  by apply bool_decide_eq_true_1 in He.
Qed.

Lemma sumZ_map_ext_in {A : Type} (f g : A -> Z) l :
  (forall x, x ∈ l -> f x = g x) -> sumZ (map f l) = sumZ (map g l).
Proof.
  induction l as [|x l IH]; intros H; simpl; [done|].
  rewrite (H x) by apply list_elem_of_here.
  rewrite IH; [done|]. intros y Hy. apply H. by apply list_elem_of_further.
Qed.

Lemma balances_by_party st :
  all_consistent st ->
  balances_sum (map_to_list (parties st)).*2
  = sumZ (map (fun k => signed_sum (where_partyId k (entries st)))
            (map_to_list (parties st)).*1).
Proof.
  intros Hall. unfold balances_sum.
  change ((map_to_list (parties st)).*2) with (map snd (map_to_list (parties st))).
  change ((map_to_list (parties st)).*1) with (map fst (map_to_list (parties st))).
  rewrite !map_map. apply sumZ_map_ext_in.
  intros [k party] Hkp%elem_of_map_to_list. simpl.
  rewrite <- (signed_sum_perm _ _ (chronological_perm st k)).
  apply ledger_invariant_balance; [|done]. apply Hall. by eexists.
Qed.

(** In the exact model, when every entry has its party and every party
    satisfies the ledger invariant, receivable minus payable is the sum of
    the credits minus the sum of the debits over all entries. *)
Lemma dashboard_net_exact st :
  no_orphans st -> all_consistent st ->
  (dashboardTotals (Some (parties_toArray st))).1
  - (dashboardTotals (Some (parties_toArray st))).2
  = credits (entries st) - debits (entries st).
Proof.
  intros Hno Hall.
  assert (H : dashboardTotals (Some (parties_toArray st))
              = (receivable (parties_toArray st), payable (parties_toArray st))).
  { unfold dashboardTotals. rewrite totals_from. f_equal; lia. }
  rewrite H. cbn [fst snd]. rewrite receivable_payable.
  unfold balances_sum.
  rewrite (sumZ_perm _ (map Party.balance (map_to_list (parties st)).*2))
    by (apply Permutation_map, parties_toArray_perm).
  fold (balances_sum (map_to_list (parties st)).*2).
  rewrite balances_by_party by done.
  rewrite signed_sum_by_party; [apply signed_sum_credits_debits| |].
  - apply NoDup_fst_map_to_list.
  - unfold no_orphans in Hno. eapply Forall_impl; [exact Hno|].
    intros e [party Hp]. simpl.
    apply list_elem_of_fmap. exists (LedgerEntry.partyId e, party).
    split; [done|]. by apply elem_of_map_to_list.
Qed.

(** ** The dashboard over binary64 numbers *)

Lemma sim_totals_step r q party :
  0 <= r -> 0 <= q -> r + q + Z.abs (Party.balance party) < 2 ^ 53 ->
  F64.totals_step (num_of_Z r, num_of_Z q) (party_f64 party)
  = (num_of_Z (totals_step (r, q) party).1,
     num_of_Z (totals_step (r, q) party).2).
Proof.
  intros Hr Hq Hb. unfold F64.totals_step, totals_step. cbn [fst snd].
  change (F64.Party.balance (party_f64 party))
    with (num_of_Z (Party.balance party)).
  rewrite num_zero_ltb, num_ltb_zero, num_abs_exact by (unfold safe; lia).
  f_equal.
  - destruct (0 <? Party.balance party); [|done].
    apply num_add_exact; unfold safe; lia.
  - destruct (Party.balance party <? 0); [|done].
    apply num_add_exact; unfold safe; lia.
Qed.

Lemma sim_totals_fold ps r q :
  0 <= r -> 0 <= q ->
  r + q + sumZ (map (fun p => Z.abs (Party.balance p)) ps) < 2 ^ 53 ->
  fold_left F64.totals_step (map party_f64 ps) (num_of_Z r, num_of_Z q)
  = (num_of_Z (fold_left totals_step ps (r, q)).1,
     num_of_Z (fold_left totals_step ps (r, q)).2).
Proof.
  revert r q; induction ps as [|x ps IH]; intros r q Hr Hq Hb; [done|].
  simpl in Hb.
  assert (0 <= sumZ (map (fun p => Z.abs (Party.balance p)) ps)).
  { clear. induction ps as [|y ps IH]; simpl; lia. }
  cbn [map fold_left]. rewrite sim_totals_step by lia.
  unfold totals_step at 2 4. cbn [fst snd].
  apply IH.
  - destruct (Z.ltb_spec 0 (Party.balance x)); lia.
  - destruct (Z.ltb_spec (Party.balance x) 0); lia.
  - destruct (Z.ltb_spec 0 (Party.balance x)),
      (Z.ltb_spec (Party.balance x) 0); lia.
Qed.

Lemma sim_dashboardTotals ps :
  safe_balances ps = true ->
  F64.dashboardTotals (Some (map party_f64 ps))
  = (num_of_Z (receivable ps), num_of_Z (payable ps)).
Proof.
  unfold safe_balances. intros Hs%Z.ltb_lt.
  unfold F64.dashboardTotals.
  change (PrimFloat.zero, PrimFloat.zero) with (num_of_Z 0, num_of_Z 0).
  rewrite sim_totals_fold by lia. rewrite totals_from. done.
Qed.

Lemma safe_balances_perm ps ps' :
  ps ≡ₚ ps' -> safe_balances ps' = safe_balances ps.
Proof.
  intros H. unfold safe_balances.
  by rewrite (sumZ_perm _ _ (Permutation_map _ H)).
Qed.

(** X10: when the balances are whole numbers whose absolute values add up
    to less than 2^53, the two totals of the dashboard are the sum of the
    positive balances and the sum of the absolute values of the negative
    balances; neither is negative, their difference is the sum of all
    balances, a settled party counts in neither, and the totals do not
    depend on the order in which the parties are enumerated.  While the
    query loads both totals are 0. *)
Theorem X10_dashboard_totals ps :
  safe_balances ps = true ->
  F64.dashboardTotals (Some (map party_f64 ps))
  = (num_of_Z (receivable ps), num_of_Z (payable ps))
  /\ 0 <= receivable ps
  /\ 0 <= payable ps
  /\ receivable ps - payable ps = balances_sum ps
  /\ (forall ps', ps ≡ₚ ps' ->
        F64.dashboardTotals (Some (map party_f64 ps'))
        = F64.dashboardTotals (Some (map party_f64 ps)))
  /\ (forall party, Party.balance party = 0 ->
        F64.dashboardTotals (Some (map party_f64 (party :: ps)))
        = F64.dashboardTotals (Some (map party_f64 ps)))
  /\ F64.dashboardTotals None = (PrimFloat.zero, PrimFloat.zero).
Proof.
  intros Hs. split; [by apply sim_dashboardTotals|].
  split; [apply receivable_nonneg|]. split; [apply payable_nonneg|].
  split; [apply receivable_payable|]. split; [|split; [|done]].
  - intros ps' Hperm. rewrite !sim_dashboardTotals;
      [|done|by rewrite (safe_balances_perm ps ps')].
    by rewrite (receivable_perm _ _ Hperm), (payable_perm _ _ Hperm).
  - intros party Hz. rewrite !sim_dashboardTotals; [|done|].
    + unfold receivable, payable. simpl. by rewrite Hz.
    + unfold safe_balances in *. simpl. by rewrite Hz.
Qed.

Lemma X10_dashboard_totals_witness :
  safe_balances (parties_toArray st_ABC) = true
  /\ F64.dashboardTotals (Some (map party_f64 (parties_toArray st_ABC)))
     = (num_of_Z (receivable (parties_toArray st_ABC)),
        num_of_Z (payable (parties_toArray st_ABC))).
Proof.
  assert (H : safe_balances (parties_toArray st_ABC) = true)
    by (vm_compute; reflexivity).
  split; [exact H|].
  exact (proj1 (X10_dashboard_totals (parties_toArray st_ABC) H)).
Defined.

(** In binary64 the totals depend on the order of the array once the
    balances are not integers. *)
Example dashboard_totals_order :
  PrimFloat.eqb
    (F64.dashboardTotals
       (Some [F64.Party.mk customer "a" "1" 1 1 0x1.999999999999ap-4%float;
              F64.Party.mk customer "b" "2" 1 1 0x1.999999999999ap-3%float;
              F64.Party.mk customer "c" "3" 1 1 0x1.3333333333333p-2%float])).1
    (F64.dashboardTotals
       (Some [F64.Party.mk customer "c" "3" 1 1 0x1.3333333333333p-2%float;
              F64.Party.mk customer "b" "2" 1 1 0x1.999999999999ap-3%float;
              F64.Party.mk customer "a" "1" 1 1 0x1.999999999999ap-4%float])).1
  = false.
Proof. vm_compute. reflexivity. Qed.

Lemma sim_parties_toArray st :
  exists ps, F64.parties_toArray (store_f64 st) = map party_f64 ps
             /\ parties_toArray st ≡ₚ ps.
Proof.
  apply Permutation_map_inv. unfold F64.parties_toArray, parties_toArray.
  change (F64.parties (store_f64 st)) with (party_f64 <$> parties st).
  change (map party_f64 ?l) with (party_f64 <$> l).
  rewrite !sort_perm, map_to_list_fmap.
  rewrite <- !list_fmap_compose. done.
Qed.

(** X11: when every entry has its party, every party satisfies the ledger
    invariant and the balances are whole numbers whose absolute values add
    up to less than 2^53, the dashboard shows the exact receivable and
    payable totals, and what it shows as receivable minus what it shows as
    payable is the sum of the credits minus the sum of the debits over all
    entries of the store. *)
Theorem X11_dashboard_net_position st :
  no_orphans st -> all_consistent st ->
  safe_balances (parties_toArray st) = true ->
  F64.dashboardTotals (Some (F64.parties_toArray (store_f64 st)))
  = (num_of_Z (receivable (parties_toArray st)),
     num_of_Z (payable (parties_toArray st)))
  /\ receivable (parties_toArray st) - payable (parties_toArray st)
     = credits (entries st) - debits (entries st).
Proof.
  intros Hno Hall Hsafe. split.
  - destruct (sim_parties_toArray st) as (ps & -> & Hperm).
    rewrite sim_dashboardTotals by (by rewrite (safe_balances_perm _ _ Hperm)).
    by rewrite (receivable_perm _ _ Hperm), (payable_perm _ _ Hperm).
  - pose proof (dashboard_net_exact st Hno Hall) as H.
    assert (Ht : dashboardTotals (Some (parties_toArray st))
                 = (receivable (parties_toArray st),
                    payable (parties_toArray st))).
    { unfold dashboardTotals. rewrite totals_from. f_equal; lia. }
    by rewrite Ht in H.
Qed.

Lemma X11_dashboard_net_position_witness :
  no_orphans st_ABC /\ all_consistent st_ABC
  /\ safe_balances (parties_toArray st_ABC) = true
  /\ receivable (parties_toArray st_ABC) - payable (parties_toArray st_ABC)
     = credits (entries st_ABC) - debits (entries st_ABC).
Proof.
  assert (H1 : no_orphans st_ABC)
    by (apply no_orphansb_sound; vm_compute; reflexivity).
  assert (H2 : all_consistent st_ABC)
    by (apply all_consistentb_sound; vm_compute; reflexivity).
  assert (H3 : safe_balances (parties_toArray st_ABC) = true)
    by (vm_compute; reflexivity).
  repeat (split; [assumption|]).
  exact (proj2 (X11_dashboard_net_position st_ABC H1 H2 H3)).
Defined.

Example dashboard_scenario :
  dashboardTotals (Some (parties_toArray st_ABC)) = (90, 0)
  /\ dashboardTotals
       (Some [Party.mk customer "a" "1" 0 0 40; Party.mk supplier "b" "2" 0 0 (-25);
              Party.mk customer "c" "3" 0 0 0]) = (40, 25).
Proof. vm_compute. split; reflexivity. Qed.

(** ** The party form *)

(** X12: submitting the party form for an existing key changes name, phone,
    type and [updatedAt] of that party and nothing else: no entry, no other
    party row, no balance and no [createdAt]; so every ledger invariant
    that held still holds.  If the party was deleted in the meantime the
    submission changes nothing; with an empty name or phone nothing is
    submitted. *)
Theorem X12_party_edit_keeps_ledger name phone type k t1 t2 d d' :
  k <> 0 ->
  d' = AddEditPartyPage.handleSubmit name phone type (Some k) t1 t2 d ->
  entries (store d') = entries (store d)
  /\ nextEntryId (store d') = nextEntryId (store d)
  /\ nextPartyId d' = nextPartyId d
  /\ (forall q, q <> k -> parties (store d') !! q = parties (store d) !! q)
  /\ (forall q, Party.balance <$> parties (store d') !! q
                = Party.balance <$> parties (store d) !! q)
  /\ (forall q, Party.createdAt <$> parties (store d') !! q
                = Party.createdAt <$> parties (store d) !! q)
  /\ (forall q, ledger_invariant (store d) q -> ledger_invariant (store d') q)
  /\ (parties (store d) !! k = None -> parties (store d') = parties (store d))
  /\ (is_empty name = false -> is_empty phone = false ->
      forall party, parties (store d) !! k = Some party ->
        parties (store d') !! k
        = Some (Party.mk type name phone (Party.createdAt party) t1
                  (Party.balance party)))
  /\ (is_empty name = true \/ is_empty phone = true -> d' = d).
Proof.
  intros Hk ->. unfold AddEditPartyPage.handleSubmit.
  destruct (Z.eqb_spec k 0) as [|_]; [done|].
  assert (Hinv : forall (st st' : Store) q,
            entries st' = entries st ->
            Party.balance <$> parties st' !! q = Party.balance <$> parties st !! q ->
            ledger_invariant st q -> ledger_invariant st' q).
  { intros st st' q Hrows Hbal Hq. pose proof Hq as [_ (party & Hp & _)].
    rewrite Hp in Hbal. simpl in Hbal.
    destruct (parties st' !! q) as [party'|] eqn:Hp'; [|done].
    injection Hbal as Hbal.
    by apply (party_lookup_invariant st st' q party party'). }
  destruct (is_empty name || is_empty phone) eqn:Hempty.
  - repeat (split; [done|]). split; [|done].
    intros H1 H2. by rewrite H1, H2 in Hempty.
  - assert (Hbal : forall q,
              Party.balance <$>
                alter (set_party_fields type name phone t1) k
                  (parties (store d)) !! q
              = Party.balance <$> parties (store d) !! q).
    { intros q. destruct (decide (q = k)) as [->|];
        [rewrite lookup_alter_eq; by destruct (parties (store d) !! k)
        |by rewrite lookup_alter_ne]. }
    simpl. split; [done|]. split; [done|]. split; [done|].
    split; [by intros q Hq; rewrite lookup_alter_ne|].
    split; [exact Hbal|]. split; [|split; [|split; [|split]]].
    + intros q. destruct (decide (q = k)) as [->|];
        [rewrite lookup_alter_eq; by destruct (parties (store d) !! k)
        |by rewrite lookup_alter_ne].
    + intros q. by apply Hinv.
    + intros Hnone. apply map_eq. intros q.
      destruct (decide (q = k)) as [->|];
        [by rewrite lookup_alter_eq, Hnone|by rewrite lookup_alter_ne].
    + intros _ _ party Hp. by rewrite lookup_alter_eq, Hp.
    + intros [H|H]; rewrite H in Hempty; [done|].
      by rewrite orb_true_r in Hempty.
Qed.

Lemma X12_party_edit_keeps_ledger_witness :
  (1 <> 0)
  /\ entries
       (store (AddEditPartyPage.handleSubmit "P2" "556" supplier (Some 1) 90 91
                 (mkAppDB st_AB 2)))
     = entries st_AB.
Proof.
  split; [lia|].
  exact (proj1 (X12_party_edit_keeps_ledger "P2" "556" supplier 1 90 91
                  (mkAppDB st_AB 2) _ ltac:(lia) eq_refl)).
Defined.

(** X13: submitting the party form without a key creates one party row,
    under the next key of the generator, with the submitted name, phone and
    type and with balance 0; every existing party row and every entry stays
    as it is, and the new party satisfies the ledger invariant as soon as no
    entry refers to a missing party. *)
Theorem X13_party_add_starts_settled name phone type t1 t2 d d' :
  party_keys_ok d -> is_empty name = false -> is_empty phone = false ->
  d' = AddEditPartyPage.handleSubmit name phone type None t1 t2 d ->
  parties (store d') !! nextPartyId d
  = Some (Party.mk type name phone t2 t1 0)
  /\ parties (store d) !! nextPartyId d = None
  /\ nextPartyId d' = nextPartyId d + 1
  /\ entries (store d') = entries (store d)
  /\ (forall q, q <> nextPartyId d ->
        parties (store d') !! q = parties (store d) !! q)
  /\ (no_orphans (store d) -> ledger_invariant (store d') (nextPartyId d))
  /\ d' = AddEditPartyPage.handleSubmit name phone type (Some 0) t1 t2 d.
Proof.
  intros [Hpos Hkeys] Hn Hph ->. unfold AddEditPartyPage.handleSubmit.
  rewrite Hn, Hph. simpl.
  assert (Hfresh : parties (store d) !! nextPartyId d = None).
  { destruct (parties (store d) !! nextPartyId d) eqn:E; [|done].
    assert (0 < nextPartyId d < nextPartyId d) by (apply Hkeys; by eexists).
    lia. }
  split; [apply lookup_insert_eq|]. split; [done|]. split; [done|].
  split; [done|]. split; [by intros q Hq; rewrite lookup_insert_ne|].
  split; [|done].
  intros Hno.
  assert (Hc : chronological
                 (store (parties_add type name phone t1 t2 d)) (nextPartyId d)
               = []).
  { rewrite chronological_eq. simpl.
    by rewrite (no_orphans_where_nil (store d)). }
  split.
  - simpl in Hc. rewrite Hc. by intros i e.
  - unfold party_consistent. simpl in Hc. rewrite Hc. simpl.
    rewrite lookup_insert_eq. by eexists.
Qed.

Lemma X13_party_add_starts_settled_witness :
  party_keys_ok (step (SubmitParty "P" "555" customer None 1 1) empty_db)
  /\ parties
       (store (AddEditPartyPage.handleSubmit "Q" "777" supplier None 60 61
                 (step (SubmitParty "P" "555" customer None 1 1) empty_db)))
       !! 2
     = Some (Party.mk supplier "Q" "777" 61 60 0).
Proof.
  assert (H : party_keys_ok
                (step (SubmitParty "P" "555" customer None 1 1) empty_db)).
  { exact (proj1 (proj2 (step_db_ok (SubmitParty "P" "555" customer None 1 1)
                            empty_db empty_db_ok I))). }
  split; [exact H|].
  exact (proj1 (X13_party_add_starts_settled "Q" "777" supplier 60 61
                  (step (SubmitParty "P" "555" customer None 1 1) empty_db) _
                  H eq_refl eq_refl eq_refl)).
Defined.

(** ** Navigation *)

Lemma handleBack_handleNavigate page params n :
  handleBack (handleNavigate page params n) = n.
Proof.
  unfold handleBack, handleNavigate, navigate. simpl.
  rewrite last_snoc, removelast_last. by destruct n as [[] ?].
Qed.

(** X14: going back undoes going forward: after any series of
    [handleNavigate] calls, as many [handleBack] calls lead back to the
    route and the history one started from; on an empty history
    [handleBack] leads to the dashboard and leaves the history empty; the
    bottom navigation, calling [navigate] directly, leaves the history as it
    is. *)
Theorem X14_back_undoes_navigate n (targets : list (Page.t * option RouteParams)) :
  Nat.iter (length targets) handleBack
    (fold_left (fun n t => handleNavigate t.1 t.2 n) targets n) = n
  /\ (forall r, handleBack (mkNav r []) = mkNav (mkRoute Page.dashboard None) [])
  /\ (forall page params, history (navigate page params n) = history n)
  /\ (forall page params,
        length (history (handleNavigate page params n))
        = S (length (history n))).
Proof.
  split; [|split; [done|split; [done|]]].
  - induction targets as [|t targets IH] using rev_ind; [done|].
    rewrite fold_left_app, length_app, Nat.add_1_r. cbn [fold_left length].
    rewrite Nat.iter_succ_r, handleBack_handleNavigate. exact IH.
  - intros page params. simpl. rewrite length_app. simpl. lia.
Qed.

(** ** The history of a party, as the detail page lists it *)

Section SortReverse.
Context {A : Type} (compareFn : A -> A -> Z).
Hypothesis compare_flip : forall a b, compareFn b a = - compareFn a b.
Hypothesis compare_trans :
  forall a b c, compareFn a b <= 0 -> compareFn b c <= 0 -> compareFn a c <= 0.

Local Abbreviation prev := (fun a b : A => compareFn a b * -1).

Lemma sort_insert_last_end x t :
  Forall (fun y => compareFn x y <= 0) t ->
  sort_insert_last prev x t = t ++ [x].
Proof.
  induction 1 as [|y t Hy _ IH]; simpl; [done|].
  destruct (Z.ltb_spec (compareFn x y * -1) 0); [lia|]. by rewrite IH.
Qed.

Lemma sort_insert_last_inside x t z :
  0 < compareFn x z ->
  sort_insert_last prev x (t ++ [z]) = sort_insert_last prev x t ++ [z].
Proof.
  intros Hz. induction t as [|y t IH]; simpl.
  - destruct (Z.ltb_spec (compareFn x z * -1) 0); [done|lia].
  - destruct (compareFn x y * -1 <? 0); [done|]. by rewrite IH.
Qed.

Lemma sort_insert_last_rev x s :
  ordered compareFn s ->
  sort_insert_last prev x (rev s) = rev (sort_insert compareFn x s).
Proof using compare_trans.
  unfold ordered. induction 1 as [|z s Hs IH Hz]; simpl; [done|].
  destruct (Z.leb_spec (compareFn x z) 0) as [Hxz|Hxz]; simpl.
  - apply (sort_insert_last_end x (rev s ++ [z])).
    apply Forall_app. split; [|by repeat constructor].
    apply Forall_rev. eapply Forall_impl; [exact Hz|]. simpl; eauto.
  - rewrite sort_insert_last_inside by lia. by rewrite IH.
Qed.

(** Sorting the reversed array with the reversed comparator gives the
    reversed sorted array. *)
Lemma sort_rev l : sort prev (rev l) = rev (sort compareFn l).
Proof using compare_flip compare_trans.
  induction l as [|x l IH]; [done|].
  change (rev (x :: l)) with (rev l ++ [x]).
  rewrite (sort_snoc prev); [| intros a b; rewrite compare_flip; lia |].
  - rewrite IH. change (sort compareFn (x :: l))
      with (sort_insert compareFn x (sort compareFn l)).
    apply sort_insert_last_rev. by apply sort_ordered.
  - intros a b c Hab Hbc.
    assert (compareFn b a <= 0) by (rewrite compare_flip; lia).
    assert (compareFn c b <= 0) by (rewrite compare_flip; lia).
    assert (compareFn c a <= 0) by eauto.
    rewrite (compare_flip c a) in *. lia.
Qed.

Lemma sort_of_ordered l : ordered compareFn l -> sort compareFn l = l.
Proof.
  unfold ordered. induction 1 as [|x l Hl IH Hx]; [done|].
  change (sort compareFn (x :: l))
    with (sort_insert compareFn x (sort compareFn l)).
  rewrite IH. by apply sort_insert_front.
Qed.
End SortReverse.

Lemma sorter_date_flip a b : sorter_date b a = - sorter_date a b.
Proof. unfold sorter_date. repeat case_match; lia. Qed.

Lemma sorter_date_trans a b c :
  sorter_date a b <= 0 -> sorter_date b c <= 0 -> sorter_date a c <= 0.
Proof. unfold sorter_date. repeat case_match; lia. Qed.

Lemma party_history_eq st p :
  party_history st p = rev (sortBy_date (where_partyId p (entries st))).
Proof.
  unfold party_history, sortBy_date.
  apply (sort_rev sorter_date); [apply sorter_date_flip|apply sorter_date_trans].
Qed.

Lemma rev_reverse {A : Type} (l : list A) : rev l = reverse l.
Proof. unfold reverse. apply rev_alt. Qed.

(** X15: the detail page lists the entries of the party newest date first:
    the list is the exact reverse of the date-sorted array that the
    recalculation starts from, and a permutation of the entries of the
    party.  When entries that share a date were created in the order of
    their keys, the list is the reverse of the order in which the balances
    accumulate; under the ledger invariant every row then shows the sum,
    taken from the oldest entry on, of the signed amounts of the rows listed
    below it and of its own, and the first row shows the balance of the
    party. *)
Theorem X15_history_newest_first st p :
  party_history st p = rev (sortBy_date (where_partyId p (entries st)))
  /\ party_history st p ≡ₚ where_partyId p (entries st)
  /\ (ordered compareEntries (sortBy_date (where_partyId p (entries st))) ->
      party_history st p = rev (chronological st p)
      /\ (ledger_invariant st p ->
          (forall (i : nat) e, party_history st p !! i = Some e ->
             LedgerEntry.balanceAfter e
             = signed_sum (rev (drop i (party_history st p))))
          /\ (forall e party, head (party_history st p) = Some e ->
                parties st !! p = Some party ->
                LedgerEntry.balanceAfter e = Party.balance party))).
Proof.
  split; [apply party_history_eq|]. split.
  { rewrite party_history_eq, rev_reverse, reverse_Permutation.
    unfold sortBy_date. apply sort_perm. }
  intros Hord.
  assert (Hc : chronological st p
               = sortBy_date (where_partyId p (entries st))).
  { unfold chronological. by apply sort_of_ordered. }
  assert (Hh : party_history st p = reverse (chronological st p)).
  { by rewrite party_history_eq, Hc, rev_reverse. }
  split; [by rewrite Hh, rev_reverse|].
  intros [Hrows (party & Hp & Hbal)]. rewrite Hh. split.
  - intros i e Hi. apply reverse_lookup_Some in Hi as [Hi Hlt].
    rewrite (Hrows _ _ Hi), drop_reverse, rev_reverse, reverse_involutive.
    f_equal. f_equal. lia.
  - intros e party' He Hp'. rewrite Hp in Hp'. injection Hp' as <-.
    rewrite head_reverse in He.
    change (map LedgerEntry.balanceAfter (chronological st p))
      with (LedgerEntry.balanceAfter <$> chronological st p) in Hbal.
    by rewrite Hbal, fmap_last, He.
Qed.

Lemma X15_history_newest_first_witness :
  ordered compareEntries (sortBy_date (where_partyId 1 (entries st_ABC)))
  /\ party_history st_ABC 1 = rev (chronological st_ABC 1).
Proof.
  assert (H : ordered compareEntries
                (sortBy_date (where_partyId 1 (entries st_ABC)))).
  { assert (E : sortBy_date (where_partyId 1 (entries st_ABC))
                = chronological st_ABC 1) by (vm_compute; reflexivity).
    rewrite E.
    apply sort_ordered; [apply compareEntries_flip|apply compareEntries_trans]. }
  split; [exact H|].
  exact (proj1 (proj2 (proj2 (X15_history_newest_first st_ABC 1)) H)).
Defined.

(** ** The exact model and the code *)

(** X16: on a ledger whose amounts are positive whole numbers with a total
    below 2^53 and whose stored balances are whole numbers below 2^53 in
    magnitude, the handlers over binary64 numbers and the handlers of the
    exact model agree: a recalculation, an entry submission (add or edit)
    and an entry deletion on the binary64 image of the store give the image
    of what the exact model gives, with the same error; recalculation,
    deletion and addition keep the ledger within that range. *)
Theorem X16_binary64_agrees_on_integers st p :
  safe_ledger st p = true ->
  (forall now,
     F64.recalculateBalancesForParty p now (store_f64 st)
     = (store_f64 (recalculateBalancesForParty p now st).1,
        (recalculateBalancesForParty p now st).2))
  /\ (forall view a d n dt t1 t2, safe_amount st p a = true ->
        F64.handleSubmit (Some (party_f64 view)) p None (num_of_Z a) d n dt
          t1 t2 (store_f64 st)
        = (store_f64 (handleSubmit (Some view) p None a d n dt t1 t2 st).1,
           (handleSubmit (Some view) p None a d n dt t1 t2 st).2))
  /\ (forall view k a d n dt t1 t2, safe a ->
        (0 < a -> submit_safe st p k a d n dt = true) ->
        F64.handleSubmit (party_f64 <$> view) p k (num_of_Z a) d n dt t1 t2
          (store_f64 st)
        = (store_f64 (handleSubmit view p k a d n dt t1 t2 st).1,
           (handleSubmit view p k a d n dt t1 t2 st).2))
  /\ (forall k now,
        F64.deleteEntry k p now (store_f64 st)
        = (store_f64 (deleteEntry k p now st).1, (deleteEntry k p now st).2))
  /\ (store_ok st ->
      (forall now, safe_ledger (recalculateBalancesForParty p now st).1 p = true)
      /\ (forall k now, safe_ledger (deleteEntry k p now st).1 p = true)
      /\ (forall view a d n dt t1 t2 party,
            parties st !! p = Some party -> safe_amount st p a = true ->
            safe_ledger (handleSubmit (Some view) p None a d n dt t1 t2 st).1 p
            = true)).
Proof.
  intros Hsafe. split; [by intros; apply sim_recalculate|].
  split; [by intros; apply sim_handleSubmit_add|].
  split; [by intros; apply sim_handleSubmit|].
  split; [by intros; apply sim_deleteEntry, entries_delete_safe|].
  intros Hok. split; [by intros; apply recalc_safe|]. split.
  - intros k now. unfold deleteEntry, handleConfirmDelete.
    apply recalc_safe; [by apply entries_delete_ok|by apply entries_delete_safe].
  - intros view a d n dt t1 t2 party Hp Hamount.
    destruct (safe_amount_pos st p a Hsafe Hamount) as [Ha _].
    rewrite handleSubmit_add by done. by eapply add_safe.
Qed.

Lemma X16_binary64_agrees_on_integers_witness :
  safe_ledger st_AB 1 = true
  /\ F64.recalculateBalancesForParty 1 40 (store_f64 st_AB)
     = (store_f64 (recalculateBalancesForParty 1 40 st_AB).1,
        (recalculateBalancesForParty 1 40 st_AB).2).
Proof.
  assert (H : safe_ledger st_AB 1 = true) by (vm_compute; reflexivity).
  split; [exact H|].
  exact (proj1 (X16_binary64_agrees_on_integers st_AB 1 H) 40).
Defined.
